(** * Bill reader: image normalisation and field extraction

    A shallow embedding of the two algorithmic stages of the OCR hook of
    [src/components/FileUpload.tsx] (the variant with Otsu thresholding and
    scored merchant extraction):

    - [preprocessImage]: grayscale, Otsu threshold, median filter, over the
      flat RGBA byte array of a canvas [ImageData];
    - [extractDate], [extractTotal], [extractMerchant] and the record built
      from them in [processImage].

    Modelling conventions.

    - A recognised text is a [string] of ASCII characters (the alphabet of
      the Tesseract whitelist plus control characters); the character
      classes [\s], [\d], [\w], case folding and [toUpperCase] are the ASCII
      ones.
    - A regular expression literal is an abstract syntax tree run by a
      backtracking matcher that follows the ECMAScript matching order
      (ordered alternation, greedy and lazy quantifiers, leftmost match).
    - A JavaScript exception is the [Throw] outcome of a [completion].
    - The Numbers of the image stage are IEEE-754 doubles ([PrimFloat]);
      integer counters are [Z] and converted where the source mixes them
      with fractions.  The amounts of [extractTotal] are only compared, so
      they are exact rationals. *)

From Stdlib Require Import String Ascii List Sorted ZArith QArith Lia Bool.
From Stdlib Require Import PrimFloat Uint63 FloatOps FloatAxioms SpecFloat.
From stdpp Require Import base list.

Import ListNotations.
Local Open Scope list_scope.
Local Open Scope string_scope.

(** ** Outcomes of JavaScript evaluation *)

Inductive completion (A : Type) : Type :=
| Normal (a : A)
| Throw (error : string).

Arguments Normal {A} a.
Arguments Throw {A} error.

Definition bind {A B} (c : completion A) (f : A -> completion B) : completion B :=
  match c with
  | Normal a => f a
  | Throw e => Throw e
  end.

(** ** Characters and strings *)

Definition code (c : ascii) : nat := nat_of_ascii c.

Definition in_range (lo hi c : ascii) : bool :=
  (code lo <=? code c)%nat && (code c <=? code hi)%nat.

Definition is_char (a c : ascii) : bool := Ascii.eqb a c.

Definition isDigit (c : ascii) : bool := in_range "0" "9" c.
Definition isLower (c : ascii) : bool := in_range "a" "z" c.
Definition isUpper (c : ascii) : bool := in_range "A" "Z" c.
Definition isAlpha (c : ascii) : bool := isLower c || isUpper c.

(** [\w]: letters, digits and the underscore. *)
Definition isWordChar (c : ascii) : bool :=
  isAlpha c || isDigit c || is_char "_" c.

(** [\s] and the characters removed by [trim]: TAB, LF, VT, FF, CR, space. *)
Definition isWhiteSpace (c : ascii) : bool :=
  ((9 <=? code c)%nat && (code c <=? 13)%nat) || (code c =? 32)%nat.

Definition upper_char (c : ascii) : ascii :=
  if isLower c then ascii_of_nat (code c - 32) else c.

Definition lower_char (c : ascii) : ascii :=
  if isUpper c then ascii_of_nat (code c + 32) else c.

(** [s.toUpperCase()] *)
Fixpoint toUpperCase (s : string) : string :=
  match s with
  | EmptyString => EmptyString
  | String c s' => String (upper_char c) (toUpperCase s')
  end.

Fixpoint trimStart (s : string) : string :=
  match s with
  | EmptyString => EmptyString
  | String c s' => if isWhiteSpace c then trimStart s' else s
  end.

(** The string without its trailing white space. *)
Fixpoint trimEnd (s : string) : string :=
  match s with
  | EmptyString => EmptyString
  | String c s' =>
      match trimEnd s' with
      | EmptyString => if isWhiteSpace c then EmptyString else String c EmptyString
      | t => String c t
      end
  end.

(** [s.trim()] *)
Definition trim (s : string) : string := trimEnd (trimStart s).

(** [s.split('\n')]: the pieces between line feeds; never empty. *)
Fixpoint split_lines (s : string) : list string :=
  match s with
  | EmptyString => [EmptyString]
  | String c s' =>
      if is_char "010" c then EmptyString :: split_lines s'
      else match split_lines s' with
           | l :: ls => String c l :: ls
           | [] => [String c EmptyString]
           end
  end.

(** [s.replace(',', '.')]: the first occurrence only. *)
Fixpoint replace_first (a b : ascii) (s : string) : string :=
  match s with
  | EmptyString => EmptyString
  | String c s' => if is_char a c then String b s' else String c (replace_first a b s')
  end.

(** [s.includes(t)] *)
Fixpoint includes (s t : string) : bool :=
  String.prefix t s ||
  match s with
  | EmptyString => false
  | String _ s' => includes s' t
  end.

(** ** Regular expressions

    The abstract syntax of the regular expression literals of the source.
    [Class] is a character class (a single character, a range, [\d], [\s],
    a bracket expression); [Rep greedy lo hi r] is [r{lo,hi}], [hi = None]
    standing for no upper bound, lazy when [greedy] is false; [Grp n r] is
    the [n]-th capturing group; [(?:...)] needs no node. *)

Inductive regex : Type :=
| Eps
| Class (p : ascii -> bool)
| Seq (r1 r2 : regex)
| Alt (r1 r2 : regex)
| Rep (greedy : bool) (lo : nat) (hi : option nat) (r : regex)
| Grp (n : nat) (r : regex)
| Bol
| Eol
| WordB.

(** A position in the subject: its index, the character before it and the
    text from it on. *)
Record cursor : Type := mkCursor {
  pos : nat;
  before : option ascii;
  rest : string
}.

Definition start_of (s : string) : cursor :=
  {| pos := 0; before := None; rest := s |}.

Definition captures : Type := nat -> option (nat * nat).

Definition no_captures : captures := fun _ => None.

Definition set_capture (n : nat) (span : nat * nat) (g : captures) : captures :=
  fun k => if (k =? n)%nat then Some span else g k.

Definition word_before (c : cursor) : bool :=
  match before c with
  | Some a => isWordChar a
  | None => false
  end.

Definition word_after (c : cursor) : bool :=
  match rest c with
  | String a _ => isWordChar a
  | EmptyString => false
  end.

Definition dec_bound (hi : option nat) : option nat :=
  match hi with
  | Some n => Some (Nat.pred n)
  | None => None
  end.

Definition orelse {R} (a b : option R) : option R :=
  match a with
  | Some x => Some x
  | None => b
  end.

(** The repetition of a matcher [step], after RepeatMatcher of ECMA-262:
    mandatory iterations first, then one more iteration before (greedy) or
    after (lazy) the continuation [k]; an optional iteration that consumes
    nothing is rejected, so [lo] plus the length of the remaining text,
    plus one, bounds the number of calls and is the [fuel] given. *)
Fixpoint iterate {R}
    (step : (cursor -> captures -> option R) -> cursor -> captures -> option R)
    (k : cursor -> captures -> option R) (greedy : bool)
    (fuel lo : nat) (hi : option nat) (c : cursor) (g : captures)
    {struct fuel} : option R :=
  match fuel with
  | O => None
  | S fuel' =>
      match hi with
      | Some O => k c g
      | _ =>
          let again :=
            step (fun c' g' =>
                    if (lo =? 0)%nat && (pos c' =? pos c)%nat then None
                    else iterate step k greedy fuel' (Nat.pred lo) (dec_bound hi) c' g')
              c g in
          if (0 <? lo)%nat then again
          else if greedy then orelse again (k c g)
          else orelse (k c g) again
      end
  end.

(** The backtracking matcher in continuation-passing style: [m r k c g] runs
    [r] at cursor [c] with captures [g] and hands every way of matching, in
    priority order, to the continuation [k] until [k] succeeds. *)
Fixpoint m {R} (r : regex) (k : cursor -> captures -> option R)
    (c : cursor) (g : captures) {struct r} : option R :=
  match r with
  | Eps => k c g
  | Class p =>
      match rest c with
      | String a s' =>
          if p a then k {| pos := S (pos c); before := Some a; rest := s' |} g
          else None
      | EmptyString => None
      end
  | Seq r1 r2 => m r1 (m r2 k) c g
  | Alt r1 r2 => orelse (m r1 k c g) (m r2 k c g)
  | Grp n r1 => m r1 (fun c' g' => k c' (set_capture n (pos c, pos c') g')) c g
  | Rep greedy lo hi r1 =>
      iterate (m r1) k greedy (S (lo + String.length (rest c))) lo hi c g
  | Bol => if (pos c =? 0)%nat then k c g else None
  | Eol => match rest c with
           | EmptyString => k c g
           | String _ _ => None
           end
  | WordB => if xorb (word_before c) (word_after c) then k c g else None
  end.

(** A successful match: where it starts, the cursor after it, its groups. *)
Record match_result : Type := mkMatch {
  m_start : nat;
  m_after : cursor;
  m_groups : captures
}.

Definition m_end (res : match_result) : nat := pos (m_after res).

Definition match_at (r : regex) (c : cursor) : option match_result :=
  m r (fun c' g => Some {| m_start := pos c; m_after := c'; m_groups := g |})
    c no_captures.

(** The leftmost match at or after position [p] (RegExpBuiltinExec without
    the sticky flag): every start position is tried, the end of the text
    included. *)
Fixpoint search (r : regex) (p : nat) (b : option ascii) (s : string)
    : option match_result :=
  match match_at r {| pos := p; before := b; rest := s |} with
  | Some res => Some res
  | None =>
      match s with
      | String a s' => search r (S p) (Some a) s'
      | EmptyString => None
      end
  end.

Definition search_from (r : regex) (c : cursor) : option match_result :=
  search r (pos c) (before c) (rest c).

(** [regex.exec(text)] from the start. *)
Definition exec (r : regex) (text : string) : option match_result :=
  search_from r (start_of text).

(** The next start position after a match: its end, or one character
    further when the match is empty (AdvanceStringIndex). *)
Definition resume (res : match_result) : option cursor :=
  if (m_end res =? m_start res)%nat then
    match rest (m_after res) with
    | String a s' => Some {| pos := S (m_end res); before := Some a; rest := s' |}
    | EmptyString => None
    end
  else Some (m_after res).

(** All successive matches of a [g]-flagged expression, as [text.match(re)]
    and [text.matchAll(re)] enumerate them. *)
Fixpoint matches_from (fuel : nat) (r : regex) (c : cursor) : list match_result :=
  match fuel with
  | O => []
  | S fuel' =>
      match search_from r c with
      | None => []
      | Some res =>
          res :: match resume res with
                 | Some c' => matches_from fuel' r c'
                 | None => []
                 end
      end
  end.

Definition matchAll (r : regex) (text : string) : list match_result :=
  matches_from (S (String.length text)) r (start_of text).

(** [text.replace(re, replacement)] for a [g]-flagged expression and a
    replacement without [$]: the matches are collected as by [matchAll],
    then the pieces of text between them are joined by the replacement
    (RegExp.prototype[Symbol.replace]). *)
Fixpoint replace_matches (text replacement : string) (next : nat)
    (ms : list match_result) : string :=
  match ms with
  | [] => substring next (String.length text - next) text
  | res :: more =>
      if (next <=? m_start res)%nat then
        substring next (m_start res - next) text ++ replacement ++
        replace_matches text replacement (m_end res) more
      else replace_matches text replacement next more
  end.

Definition replace_all (r : regex) (replacement text : string) : string :=
  replace_matches text replacement 0 (matchAll r text).

(** The text of a match ([match[0]]) and of a group ([match[n]], [undefined]
    when the group took no part). *)
Definition matched (text : string) (res : match_result) : string :=
  substring (m_start res) (m_end res - m_start res) text.

Definition group (text : string) (res : match_result) (n : nat) : option string :=
  match m_groups res n with
  | Some (i, j) => Some (substring i (j - i) text)
  | None => None
  end.

(** [text.match(re) !== null], as a condition. *)
Definition test (r : regex) (text : string) : bool :=
  match exec r text with
  | Some _ => true
  | None => false
  end.

(** Building blocks for writing the literals. *)

Definition chr (a : ascii) : regex := Class (is_char a).

(** A character of a literal under the [i] flag. *)
Definition chr_i (a : ascii) : regex :=
  Class (fun c => is_char (lower_char a) (lower_char c)).

Fixpoint lit (s : string) : regex :=
  match s with
  | EmptyString => Eps
  | String a EmptyString => chr a
  | String a s' => Seq (chr a) (lit s')
  end.

Fixpoint lit_i (s : string) : regex :=
  match s with
  | EmptyString => Eps
  | String a EmptyString => chr_i a
  | String a s' => Seq (chr_i a) (lit_i s')
  end.

Fixpoint seq_of (rs : list regex) : regex :=
  match rs with
  | [] => Eps
  | [r] => r
  | r :: rs' => Seq r (seq_of rs')
  end.

Fixpoint alt_of (rs : list regex) : regex :=
  match rs with
  | [] => Class (fun _ => false)
  | [r] => r
  | r :: rs' => Alt r (alt_of rs')
  end.

Definition maybe (r : regex) : regex := Rep true 0 (Some 1) r.
Definition many (r : regex) : regex := Rep true 0 None r.
Definition many1 (r : regex) : regex := Rep true 1 None r.
Definition many1_lazy (r : regex) : regex := Rep false 1 None r.
Definition between (lo hi : nat) (r : regex) : regex := Rep true lo (Some hi) r.
Definition at_least (lo : nat) (r : regex) : regex := Rep true lo None r.
Definition exactly (n : nat) (r : regex) : regex := Rep true n (Some n) r.

Definition digit : regex := Class isDigit.
Definition space : regex := Class isWhiteSpace.

(** A bracket expression listing characters: [one_of "/.-"] is [[/.-]]. *)
Fixpoint mem_char (s : string) (c : ascii) : bool :=
  match s with
  | EmptyString => false
  | String a s' => is_char a c || mem_char s' c
  end.

Definition one_of (s : string) : regex := Class (mem_char s).

(** A regular expression object: the text of the literal, its flags and
    the syntax tree the matcher runs.  The [i] flag is built into the tree
    ([lit_i]); the [g] flag selects the behaviour of [text.match]. *)
Record RegExp : Type := mkRegExp {
  source : string;
  flags : string;
  ast : regex
}.

(** [re.toString()] *)
Definition toString (re : RegExp) : string :=
  "/" ++ source re ++ "/" ++ flags re.

Definition global (re : RegExp) : bool := includes (flags re) "g".

(** The number of capturing groups of an expression. *)
Fixpoint group_count (r : regex) : nat :=
  match r with
  | Seq r1 r2 | Alt r1 r2 => Nat.max (group_count r1) (group_count r2)
  | Rep _ _ _ r1 => group_count r1
  | Grp n r1 => Nat.max n (group_count r1)
  | _ => 0
  end.

(** [text.match(re)]: [null] ([None]) when nothing matches; with the [g]
    flag the array of all matched texts; without it the array of the first
    match: its text, then each group or [undefined]. *)
Definition js_match (text : string) (re : RegExp) : option (list (option string)) :=
  if global re then
    match matchAll (ast re) text with
    | [] => None
    | all => Some (map (fun res => Some (matched text res)) all)
    end
  else
    match exec (ast re) text with
    | None => None
    | Some res =>
        Some (Some (matched text res)
                :: map (group text res) (List.seq 1 (group_count (ast re))))
    end.

(** [array[i]], [undefined] out of range. *)
Definition at_index (a : list (option string)) (i : nat) : option string :=
  match nth_error a i with
  | Some v => v
  | None => None
  end.

(** ** Numbers read from text

    [parseFloat] on an unsigned decimal literal: the longest prefix made of
    digits, optionally a point and more digits; [None] is [NaN].  (The
    inputs of the source are captured by [\d+(?:[,.]\d{1,2})?] with the
    comma replaced, so signs, exponents and leading white space do not
    occur.) *)

Definition digit_value (c : ascii) : Z := Z.of_nat (code c - 48).

(** Reads digits: the number read so far, the count of digits, the rest. *)
Fixpoint read_digits (acc : Z) (n : nat) (s : string) : Z * nat * string :=
  match s with
  | String c s' =>
      if isDigit c then read_digits (10 * acc + digit_value c) (S n) s'
      else (acc, n, s)
  | EmptyString => (acc, n, s)
  end.

Definition parseFloat (s : string) : option Q :=
  let '(int_part, n_int, after_int) := read_digits 0 0 s in
  match after_int with
  | String "." frac =>
      let '(all, n_frac, _) := read_digits int_part 0 frac in
      if ((n_int + n_frac)%nat =? 0)%nat then None
      else Some (Qmake all (Z.to_pos (10 ^ Z.of_nat n_frac)))
  | _ => if (n_int =? 0)%nat then None else Some (inject_Z int_part)
  end.

(** [x > 0] and [x < 100000] on a parsed number; false on [NaN]. *)
Definition is_positive (x : option Q) : bool :=
  match x with
  | Some q => negb (Qle_bool q 0)
  | None => false
  end.

Definition below (bound : Z) (x : option Q) : bool :=
  match x with
  | Some q => negb (Qle_bool (inject_Z bound) q)
  | None => false
  end.

Definition isNaN (x : option Q) : bool :=
  match x with
  | Some _ => false
  | None => true
  end.

(** ** Sorting

    [array.sort(compare)] is a stable sort; [keeps_before a b] says that
    the comparator does not put [a] after [b] ([compare(a, b) <= 0]). *)

Fixpoint insert_sorted {A} (keeps_before : A -> A -> bool) (x : A) (l : list A)
    : list A :=
  match l with
  | [] => [x]
  | y :: l' =>
      if keeps_before x y then x :: y :: l'
      else y :: insert_sorted keeps_before x l'
  end.

Fixpoint js_sort {A} (keeps_before : A -> A -> bool) (l : list A) : list A :=
  match l with
  | [] => []
  | x :: l' => insert_sorted keeps_before x (js_sort keeps_before l')
  end.

(** ** The extracted record *)

Record BillData : Type := mkBillData {
  fullText : string;
  date : option string;
  total : option string;
  merchant : option string
}.

(** ** extractDate *)

(** [\d{1,2}[/.-]\d{1,2}[/.-]\d{2,4}], also a filter of [extractMerchant]. *)
Definition numeric_date : regex :=
  seq_of [between 1 2 digit; one_of "/.-"; between 1 2 digit; one_of "/.-";
       between 2 4 digit].

Definition month (abbreviation ending : string) : regex :=
  Seq (lit_i abbreviation) (maybe (lit_i ending)).

Definition month_name : regex :=
  alt_of [month "Jan" "uary"; month "Feb" "ruary"; month "Mar" "ch";
       month "Apr" "il"; lit_i "May"; month "Jun" "e"; month "Jul" "y";
       month "Aug" "ust"; month "Sep" "tember"; month "Oct" "ober";
       month "Nov" "ember"; month "Dec" "ember"].

(** [[A-Za-z0-9\s,./-]] *)
Definition date_fragment_char (c : ascii) : bool :=
  isAlpha c || isDigit c || isWhiteSpace c || mem_char ",./-" c.

(** [[:\s]] *)
Definition colon_or_space (c : ascii) : bool :=
  is_char ":" c || isWhiteSpace c.

(* MM/DD/YYYY or DD/MM/YYYY *)
Definition date_numeric : RegExp :=
  {| source := "\b(\d{1,2}[/.-]\d{1,2}[/.-]\d{2,4})\b";
     flags := "g";
     ast := seq_of [WordB; Grp 1 numeric_date; WordB] |}.

(* Month name formats: Jan 01, 2023 or January 1st, 2023 *)
Definition date_month : RegExp :=
  {| source := "\b(Jan(?:uary)?|Feb(?:ruary)?|Mar(?:ch)?|Apr(?:il)?|May|Jun(?:e)?|Jul(?:y)?|Aug(?:ust)?|Sep(?:tember)?|Oct(?:ober)?|Nov(?:ember)?|Dec(?:ember)?)\s+\d{1,2}(?:st|nd|rd|th)?,?\s+\d{4}\b";
     flags := "gi";
     ast := seq_of [WordB; Grp 1 month_name; many1 space; between 1 2 digit;
                 maybe (alt_of [lit_i "st"; lit_i "nd"; lit_i "rd"; lit_i "th"]);
                 maybe (chr ","); many1 space; exactly 4 digit; WordB] |}.

(* YYYY-MM-DD ISO format *)
Definition date_iso : RegExp :=
  {| source := "\b(\d{4}[/.-]\d{1,2}[/.-]\d{1,2})\b";
     flags := "g";
     ast := seq_of [WordB;
                 Grp 1 (seq_of [exactly 4 digit; one_of "/.-"; between 1 2 digit;
                             one_of "/.-"; between 1 2 digit]);
                 WordB] |}.

(* Looking for "Date:" or "DATE" followed by a date *)
Definition date_keyword : RegExp :=
  {| source := "(?:Date|DATE|Invoice Date|Transaction Date|Purchase Date)[:\s]+([A-Za-z0-9\s,./-]+?)(?:\n|$|\s{2,})";
     flags := "i";
     ast := seq_of [alt_of [lit_i "Date"; lit_i "DATE"; lit_i "Invoice Date";
                      lit_i "Transaction Date"; lit_i "Purchase Date"];
                 many1 (Class colon_or_space);
                 Grp 1 (many1_lazy (Class date_fragment_char));
                 alt_of [chr "010"; Eol; at_least 2 space]] |}.

Definition datePatterns : list RegExp :=
  [date_numeric; date_month; date_iso; date_keyword].

(** The loop over [datePatterns]. *)
Fixpoint date_loop (cleanText : string) (patterns : list RegExp)
    : completion (option string) :=
  match patterns with
  | [] => Normal None
  | pattern :: more =>
      match js_match cleanText pattern with
      | Some matches =>
          if (0 <? length matches)%nat then
            (* For keyword matches, extract the date from the captured group *)
            if includes (toString pattern) "Date|DATE" then
              match at_index matches 1 with
              | None => Throw "TypeError: matches[1] is undefined"
              | Some captured =>
                  let dateMatch := trim captured in
                  (* Return only if it looks like a date *)
                  if test (many1 digit) dateMatch && test (one_of "/-.") dateMatch
                  then Normal (Some dateMatch)
                  else date_loop cleanText more
              end
            else Normal (at_index matches 0)
          else date_loop cleanText more
      | None => date_loop cleanText more
      end
  end.

(** [text.replace(/\s+/g, ' ').trim()] *)
Definition cleanText (text : string) : string :=
  trim (replace_all (many1 space) " " text).

Definition extractDate (text : string) : completion (option string) :=
  date_loop (cleanText text) datePatterns.

(** ** extractTotal *)

(** [\d+(?:[,.]\d{1,2})] and [\d+(?:[,.]\d{1,2})?] *)
Definition decimal_amount : regex :=
  Seq (many1 digit) (Seq (one_of ",.") (between 1 2 digit)).

Definition amount_number : regex :=
  Seq (many1 digit) (maybe (Seq (one_of ",.") (between 1 2 digit))).

(** [a\s+b], [a\s+b\s+c] under the [i] flag. *)
Fixpoint phrase (words : list string) : regex :=
  match words with
  | [] => Eps
  | [w] => lit_i w
  | w :: ws => Seq (lit_i w) (Seq (many1 space) (phrase ws))
  end.

(* Total/Amount/Sum with keywords in close proximity *)
Definition total_phrase : RegExp :=
  {| source := "(?:total\s+amount|grand\s+total|amount\s+due|balance\s+due|total\s+due|total\s+to\s+pay)[:\s]*\$?\s*(\d+(?:[,.]\d{1,2}))";
     flags := "i";
     ast := seq_of [alt_of [phrase ["total"; "amount"]; phrase ["grand"; "total"];
                      phrase ["amount"; "due"]; phrase ["balance"; "due"];
                      phrase ["total"; "due"]; phrase ["total"; "to"; "pay"]];
                 many (Class colon_or_space); maybe (chr "$"); many space;
                 Grp 1 decimal_amount] |}.

(* Standard total formats with variations *)
Definition total_keyword : RegExp :=
  {| source := "(?:total|amount|due|balance|sum|charge)(?:\s*:|\s*due|\s*payment)?\s*\$?\s*(\d+(?:[,.]\d{1,2})?)";
     flags := "i";
     ast := seq_of [alt_of [lit_i "total"; lit_i "amount"; lit_i "due";
                      lit_i "balance"; lit_i "sum"; lit_i "charge"];
                 maybe (alt_of [Seq (many space) (chr ":");
                           Seq (many space) (lit_i "due");
                           Seq (many space) (lit_i "payment")]);
                 many space; maybe (chr "$"); many space;
                 Grp 1 amount_number] |}.

(* Amount with $ symbol near total keyword *)
Definition total_trailing : RegExp :=
  {| source := "\$\s*(\d+(?:[,.]\d{1,2})?)(?:\s*(?:total|amount|due))";
     flags := "i";
     ast := seq_of [chr "$"; many space; Grp 1 amount_number; many space;
                 alt_of [lit_i "total"; lit_i "amount"; lit_i "due"]] |}.

(* Find lines with currency symbols and extract the largest value *)
Definition currency_amount : RegExp :=
  {| source := "\$\s*(\d+(?:[,.]\d{1,2}))";
     flags := "g";
     ast := seq_of [chr "$"; many space; Grp 1 decimal_amount] |}.

Definition totalPatterns : list RegExp :=
  [total_phrase; total_keyword; total_trailing; currency_amount].

(** A pattern that is always there: [totalPatterns[i]] for an index in
    range ([undefined] otherwise, on which the source never calls). *)
Definition pattern_at (patterns : list RegExp) (i : nat) : RegExp :=
  nth i patterns {| source := EmptyString; flags := EmptyString; ast := Eps |}.

(** The body of the loop over the specific patterns, for one pattern: the
    cleaned and validated total, if the pattern gives one. *)
Definition labeled_total (cleanText : string) (pattern : RegExp) : option string :=
  match js_match cleanText pattern with
  | Some found =>
      match at_index found 1 with
      | Some captured =>
          if (0 <? String.length captured)%nat then
            (* Clean and validate the total *)
            let total := replace_first "," "." captured in
            if is_positive (parseFloat total) then Some total else None
          else None
      | None => None
      end
  | None => None
  end.

(** [for (let i = 0; i < totalPatterns.length - 1; i++)], [count] iterations
    from index [i]. *)
Fixpoint labeled_loop (cleanText : string) (count i : nat) : option string :=
  match count with
  | O => None
  | S count' =>
      match labeled_total cleanText (pattern_at totalPatterns i) with
      | Some total => Some total
      | None => labeled_loop cleanText count' (S i)
      end
  end.

(** An element of [amounts]. *)
Record amount_item : Type := mkAmount {
  value : string;
  amount : option Q;
  index : nat
}.

(** The [map] callback of the fallback; [match[1].replace] throws on an
    [undefined] group. *)
Definition to_amount (cleanText : string) (found : match_result)
    : completion amount_item :=
  match group cleanText found 1 with
  | None => Throw "TypeError: match[1] is undefined"
  | Some captured =>
      let value := replace_first "," "." captured in
      Normal {| value := value; amount := parseFloat value; index := m_start found |}
  end.

Fixpoint map_completion {A B} (f : A -> completion B) (l : list A)
    : completion (list B) :=
  match l with
  | [] => Normal []
  | x :: l' =>
      bind (f x) (fun y => bind (map_completion f l') (fun ys => Normal (y :: ys)))
  end.

(** [b.amount - a.amount <= 0]: [a] is not put after [b].  A difference
    with [NaN] is [NaN], which [sort] takes for 0. *)
Definition amount_not_after (a b : amount_item) : bool :=
  match amount a, amount b with
  | Some x, Some y => Qle_bool y x
  | _, _ => true
  end.

Definition extractTotal (text : string) : completion (option string) :=
  (* First look for total with more contextual hints *)
  let cleanText := cleanText text in
  (* Try specific total patterns first *)
  match labeled_loop cleanText (length totalPatterns - 1) 0 with
  | Some total => Normal (Some total)
  | None =>
      (* If no specific total found, find all currency amounts *)
      bind (map_completion (to_amount cleanText)
              (matchAll (ast (pattern_at totalPatterns (length totalPatterns - 1)))
                 cleanText))
        (fun mapped =>
           let amounts :=
             List.filter (fun item => negb (isNaN (amount item)) && is_positive (amount item))
               mapped in
           if (0 <? length amounts)%nat then
             (* Sort by amount in descending order *)
             let sorted := js_sort amount_not_after amounts in
             (* exclude very large amounts that might be account numbers *)
             let reasonableAmounts := List.filter (fun a => below 100000 (amount a)) sorted in
             match reasonableAmounts with
             | first :: _ => Normal (Some (value first))
             | [] => Normal None
             end
           else Normal None)
  end.

(** ** extractMerchant *)

(** [[A-Za-z0-9\s&,.'\-]] *)
Definition name_char (c : ascii) : bool :=
  isAlpha c || isDigit c || isWhiteSpace c || mem_char "&,.'-" c.

Definition merchant_label : RegExp :=
  {| source := "(?:merchant|vendor|store|business|retailer|seller|company)[:\s]+([A-Za-z0-9\s&,.'\-]+)";
     flags := "i";
     ast := seq_of [alt_of [lit_i "merchant"; lit_i "vendor"; lit_i "store";
                      lit_i "business"; lit_i "retailer"; lit_i "seller";
                      lit_i "company"];
                 many1 (Class colon_or_space);
                 Grp 1 (many1 (Class name_char))] |}.

Definition merchant_phrase : RegExp :=
  {| source := "(?:invoice from|receipt from|sold by)[:\s]+([A-Za-z0-9\s&,.'\-]+)";
     flags := "i";
     ast := seq_of [alt_of [lit_i "invoice from"; lit_i "receipt from"; lit_i "sold by"];
                 many1 (Class colon_or_space);
                 Grp 1 (many1 (Class name_char))] |}.

Definition merchantPatterns : list RegExp := [merchant_label; merchant_phrase].

(** The test of the inner loop on one line: the trimmed name, if the line
    carries the label with a fragment of more than two characters. *)
Definition labeled_merchant (pattern : RegExp) (line : string) : option string :=
  match js_match line pattern with
  | Some found =>
      match at_index found 1 with
      | Some captured =>
          if (0 <? String.length captured)%nat && (2 <? String.length captured)%nat
          then Some (trim captured)
          else None
      | None => None
      end
  | None => None
  end.

(** [for (const line of lines)] for one pattern. *)
Fixpoint merchant_line_loop (pattern : RegExp) (lines : list string) : option string :=
  match lines with
  | [] => None
  | line :: more =>
      match labeled_merchant pattern line with
      | Some name => Some name
      | None => merchant_line_loop pattern more
      end
  end.

(** [for (const pattern of merchantPatterns)], the loop over the lines
    inside. *)
Fixpoint merchant_pattern_loop (patterns : list RegExp) (lines : list string)
    : option string :=
  match patterns with
  | [] => None
  | pattern :: more =>
      match merchant_line_loop pattern lines with
      | Some name => Some name
      | None => merchant_pattern_loop more lines
      end
  end.

(** [/\$\d+\.\d{2}/] *)
Definition two_decimal_amount : regex :=
  seq_of [chr "$"; many1 digit; chr "."; exactly 2 digit].

(** [/^\d+\s+[a-zA-Z]+\s+(?:street|st|avenue|ave|road|rd|boulevard|blvd)/i] *)
Definition street_address : regex :=
  seq_of [Bol; many1 digit; many1 space; many1 (Class isAlpha); many1 space;
       alt_of [lit_i "street"; lit_i "st"; lit_i "avenue"; lit_i "ave";
            lit_i "road"; lit_i "rd"; lit_i "boulevard"; lit_i "blvd"]].

(** [/^(?:tel|phone|fax|www|http)/i] *)
Definition contact_prefix : regex :=
  Seq Bol (alt_of [lit_i "tel"; lit_i "phone"; lit_i "fax"; lit_i "www"; lit_i "http"]).

(** [/^[A-Z][a-z]/] and [/\d{3,}/] *)
Definition title_case : regex := seq_of [Bol; Class isUpper; Class isLower].
Definition digit_run : regex := at_least 3 digit.

(** The filter of [potentialMerchants]. *)
Definition potential_merchant (line : string) : bool :=
  (3 <? String.length line)%nat
  && negb (test numeric_date line)
  && negb (test two_decimal_amount line)
  && negb (test street_address line)
  && negb (test contact_prefix line).

Record scored_line : Type := mkScored {
  line : string;
  score : Z
}.

Definition score_of (line : string) : Z :=
  ((if String.eqb line (toUpperCase line) then 4 else 0)
   + (if test title_case line then 3 else 0)
   + (if (7 <? String.length line)%nat then 2 else 0)
   + (if (String.length line <? 30)%nat then 1 else 0)
   - (if test digit_run line then 3 else 0))%Z.

(** [b.score - a.score <= 0] *)
Definition score_not_after (a b : scored_line) : bool :=
  (score b - score a <=? 0)%Z.

(** [text.split('\n').map(line => line.trim()).filter(line => line.length > 2)] *)
Definition merchant_lines (text : string) : list string :=
  List.filter (fun line => (2 <? String.length line)%nat) (map trim (split_lines text)).

Definition extractMerchant (text : string) : option string :=
  (* Split text into lines and clean them *)
  let lines := merchant_lines text in
  (* First look for explicit merchant indicators *)
  match merchant_pattern_loop merchantPatterns lines with
  | Some name => Some name
  | None =>
      (* First few lines often contain the merchant name *)
      let headerLines := firstn (Nat.min 6 (length lines)) lines in
      let potentialMerchants := List.filter potential_merchant headerLines in
      let prioritizedLines :=
        js_sort score_not_after
          (map (fun line => {| line := line; score := score_of line |})
             potentialMerchants) in
      match prioritizedLines with
      | best :: _ => Some (line best)
      | [] => None
      end
  end.

(** ** The record built in processImage *)

(** The object literal [{ fullText: text, date: extractDate(text), total:
    extractTotal(text), merchant: extractMerchant(text) }], its properties
    evaluated in order. *)
Definition extractFields (text : string) : completion BillData :=
  bind (extractDate text) (fun date =>
  bind (extractTotal text) (fun total =>
  Normal {| fullText := text; date := date; total := total;
            merchant := extractMerchant text |})).

(** ** preprocessImage

    [imageData]: the canvas dimensions and the flat array of bytes, four
    (red, green, blue, alpha) per pixel, row by row. *)

Record ImageData : Type := mkImageData {
  width : nat;
  height : nat;
  data : list Z
}.

(** [data[i]] where the source reads inside the array (0 stands for the
    [undefined] of a read outside, which the loops never make on an array
    of [4 * width * height] bytes). *)
Definition get (a : list Z) (i : nat) : Z := default 0%Z (a !! i).

(** An integer-valued Number (exact below 2^53). *)
Definition of_int (z : Z) : float := of_uint63 (Uint63.of_Z z).

Set Warnings "-inexact-float".

(** [0.299 * r + 0.587 * g + 0.114 * b] *)
Definition luminance (r g b : Z) : float :=
  (0.299 * of_int r + 0.587 * of_int g + 0.114 * of_int b)%float.

(** The largest integer at most [x] among [k], [k - 1], ..., 0. *)
Fixpoint floor_from (k : nat) (x : float) : Z :=
  match k with
  | O => 0%Z
  | S k' => if (of_int (Z.of_nat k) <=? x)%float then Z.of_nat k else floor_from k' x
  end.

(** ToUint8Clamp, the conversion of a store into a [Uint8ClampedArray]:
    [NaN] and negatives give 0, 255 and more give 255, the rest is rounded
    to the nearest integer, a tie to the even one. *)
Definition toUint8Clamp (x : float) : Z :=
  if (0 <? x)%float then
    if (255 <=? x)%float then 255%Z
    else
      let f := floor_from 254 x in
      if (of_int f + 0.5 <? x)%float then (f + 1)%Z
      else if (x <? of_int f + 0.5)%float then f
      else if Z.even f then f else (f + 1)%Z
  else 0%Z.

(** The indices [0, 4, 8, ...] below [n] of
    [for (let i = 0; i < n; i += 4)]. *)
Definition pixel_offsets (n : nat) : list nat :=
  map (fun k => 4 * k)%nat (List.seq 0 ((n + 3) / 4)).

(** [data[i] = v; data[i + 1] = v; data[i + 2] = v;] *)
Definition set_rgb (i : nat) (v : Z) (a : list Z) : list Z :=
  <[(i + 2)%nat := v]> (<[(i + 1)%nat := v]> (<[i := v]> a)).

(** 1. Grayscale conversion with accurate weighting *)
Definition grayscale_step (a : list Z) (i : nat) : list Z :=
  let grayscale := luminance (get a i) (get a (i + 1)) (get a (i + 2)) in
  set_rgb i (toUint8Clamp grayscale) a.

Definition grayscale_pass (a : list Z) : list Z :=
  foldl grayscale_step a (pixel_offsets (length a)).

(** 2. Calculate histogram for adaptive thresholding:
    [histogram[Math.floor(data[i])]++] *)
Definition histogram_step (a : list Z) (histogram : list Z) (i : nat) : list Z :=
  let level := Z.to_nat (get a i) in
  <[level := (get histogram level + 1)%Z]> histogram.

Definition histogram_of (a : list Z) : list Z :=
  foldl (histogram_step a) (replicate 256 0%Z) (pixel_offsets (length a)).

(** [for (let i = 0; i < 256; i++) sum += i * histogram[i]] *)
Definition weighted_sum (histogram : list Z) : Z :=
  foldl (fun sum i => (sum + Z.of_nat i * get histogram i)%Z) 0%Z (List.seq 0 256).

(** 3. Otsu's method for optimal threshold: the variables of the loop. *)
Record otsu_state : Type := mkOtsu {
  sumB : Z;
  wB : Z;
  wF : Z;
  maxVariance : float;
  threshold : Z
}.

Definition otsu_init : otsu_state :=
  {| sumB := 0; wB := 0; wF := 0; maxVariance := 0%float; threshold := 0 |}.

(** [wB * wF * (mB - mF) * (mB - mF)] *)
Definition variance_of (wB wF sumB sum : Z) : float :=
  let mB := (of_int sumB / of_int wB)%float in
  let mF := (of_int (sum - sumB) / of_int wF)%float in
  (of_int wB * of_int wF * (mB - mF) * (mB - mF))%float.

(** [for (let t = 0; t < 256; t++)] over the remaining values [ts] of [t],
    with its [continue] and [break]. *)
Fixpoint otsu_loop (histogram : list Z) (total sum : Z) (ts : list nat)
    (st : otsu_state) : otsu_state :=
  match ts with
  | [] => st
  | t :: ts' =>
      let wB' := (wB st + get histogram t)%Z in
      if (wB' =? 0)%Z then
        otsu_loop histogram total sum ts'
          {| sumB := sumB st; wB := wB'; wF := wF st;
             maxVariance := maxVariance st; threshold := threshold st |}
      else
        let wF' := (total - wB')%Z in
        if (wF' =? 0)%Z then
          {| sumB := sumB st; wB := wB'; wF := wF';
             maxVariance := maxVariance st; threshold := threshold st |}
        else
          let sumB' := (sumB st + Z.of_nat t * get histogram t)%Z in
          let variance := variance_of wB' wF' sumB' sum in
          if (maxVariance st <? variance)%float then
            otsu_loop histogram total sum ts'
              {| sumB := sumB'; wB := wB'; wF := wF';
                 maxVariance := variance; threshold := Z.of_nat t |}
          else
            otsu_loop histogram total sum ts'
              {| sumB := sumB'; wB := wB'; wF := wF';
                 maxVariance := maxVariance st; threshold := threshold st |}
  end.

Definition otsu_threshold (histogram : list Z) (total : Z) : Z :=
  threshold
    (otsu_loop histogram total (weighted_sum histogram) (List.seq 0 256) otsu_init).

(** 4. Apply adaptive threshold and increase contrast *)
Definition threshold_step (threshold : Z) (a : list Z) (i : nat) : list Z :=
  let value := if (threshold <? get a i)%Z then 255%Z else 0%Z in
  set_rgb i value a.

Definition threshold_pass (threshold : Z) (a : list Z) : list Z :=
  foldl (threshold_step threshold) a (pixel_offsets (length a)).

(** 5. Noise reduction (simple median filter): the pixel at column [x] of
    row [y]; [tempData] is the copy made before the pass. *)
Definition median_step (width : nat) (tempData : list Z) (y : nat)
    (a : list Z) (x : nat) : list Z :=
  let idx := ((y * width + x) * 4)%nat in
  (* Skip if pixel is clearly white or black (reduces processing) *)
  if (get a idx =? 0)%Z || (get a idx =? 255)%Z then a
  else
    (* j and i run over -1, 0, 1 *)
    let neighbors :=
      flat_map (fun j =>
        map (fun i => get tempData (((y + j - 1) * width + (x + i - 1)) * 4)%nat)
          [0; 1; 2]%nat) [0; 1; 2]%nat in
    let sorted := js_sort (fun a b => (a - b <=? 0)%Z) neighbors in
    let median := nth 4 sorted 0%Z in
    set_rgb idx median a.

Definition median_row (width : nat) (tempData : list Z) (a : list Z) (y : nat)
    : list Z :=
  foldl (median_step width tempData y) a (List.seq 1 (width - 2)).

Definition median_pass (width height : nat) (a : list Z) : list Z :=
  if (10 <? width)%nat && (10 <? height)%nat then
    foldl (median_row width a) a (List.seq 1 (height - 2))
  else a.

(** The threshold the pipeline selects for an image. *)
Definition selected_threshold (img : ImageData) : Z :=
  let gray := grayscale_pass (data img) in
  otsu_threshold (histogram_of gray) (Z.of_nat (width img * height img)).

(** The processing between [getImageData] and [putImageData]. *)
Definition preprocessImage (img : ImageData) : ImageData :=
  let gray := grayscale_pass (data img) in
  let binary := threshold_pass (selected_threshold img) gray in
  {| width := width img;
     height := height img;
     data := median_pass (width img) (height img) binary |}.
(** ** Notions used to state the properties *)

(** The groups that an expression sets on every successful match. *)
Fixpoint binds (r : regex) (n : nat) : Prop :=
  match r with
  | Seq r1 r2 => binds r1 n \/ binds r2 n
  | Alt r1 r2 => binds r1 n /\ binds r2 n
  | Grp k r1 => k = n \/ binds r1 n
  | _ => False
  end.

(** Captures are never unset. *)
Definition keeps (g g' : captures) : Prop :=
  forall n, g n <> None -> g' n <> None.

(** [c'] is a position of the same text at or after [c]. *)
Definition later (c c' : cursor) : Prop :=
  (pos c <= pos c')%nat /\
  (pos c' + String.length (rest c') = pos c + String.length (rest c))%nat.

(** A matcher that succeeds only through its continuation, called at a
    later position. *)
Definition passes_on {R}
    (step : (cursor -> captures -> option R) -> cursor -> captures -> option R)
    : Prop :=
  forall k c g res, step k c g = Some res ->
    exists c' g', k c' g' = Some res /\ keeps g g' /\ later c c'.

(** [d] occurs in [s] as a contiguous piece. *)
Definition occurs_in (d s : string) : Prop :=
  exists before after, s = before ++ d ++ after.

(** The text with every maximal run of white space replaced by one space,
    read off the characters: what [replace_all (many1 space)] computes. *)
Fixpoint collapse_from (in_run : bool) (s : string) : string :=
  match s with
  | EmptyString => EmptyString
  | String c s' =>
      if isWhiteSpace c
      then (if in_run then collapse_from true s' else String " " (collapse_from true s'))
      else String c (collapse_from false s')
  end.

Definition collapse_ws (s : string) : string := collapse_from false s.

(** Every white space character is a space that follows no other white
    space. *)
Fixpoint single_spaced_from (after_space : bool) (s : string) : bool :=
  match s with
  | EmptyString => true
  | String c s' =>
      if isWhiteSpace c
      then is_char " " c && negb after_space && single_spaced_from true s'
      else single_spaced_from false s'
  end.

Definition single_spaced (s : string) : bool := single_spaced_from false s.

(** The first result in a list of attempts. *)
Fixpoint first_of {A} (attempts : list (option A)) : option A :=
  match attempts with
  | [] => None
  | Some x :: _ => Some x
  | None :: more => first_of more
  end.

(** The text of the leftmost match of a pattern. *)
Definition literal_match (pattern : RegExp) (clean : string) : option string :=
  option_map (matched clean) (exec (ast pattern) clean).

(** The keyword-anchored family: the fragment captured after the label,
    when it has a digit and one of the separators. *)
Definition keyword_date (clean : string) : option string :=
  match exec (ast date_keyword) clean with
  | Some res =>
      match group clean res 1 with
      | Some captured =>
          if test (many1 digit) (trim captured) && test (one_of "/-.") (trim captured)
          then Some (trim captured)
          else None
      | None => None
      end
  | None => None
  end.

(** A list in which every element is kept before all later ones. *)
Definition ordered {A} (le : A -> A -> bool) (l : list A) : Prop :=
  StronglySorted (fun a b => le a b = true) l.

(** The element of [amounts] made from a match whose group 1 is set. *)
Definition amount_of (clean : string) (found : match_result) : amount_item :=
  let value := replace_first "," "." (default EmptyString (group clean found 1)) in
  {| value := value; amount := parseFloat value; index := m_start found |}.

(** Every [$]-prefixed amount of the text, as the fallback collects them. *)
Definition currency_amounts (clean : string) : list amount_item :=
  map (amount_of clean) (matchAll (ast currency_amount) clean).

(** The number an amount stands for (0 for [NaN]). *)
Definition amount_value (item : amount_item) : Q := default 0%Q (amount item).

(** An amount that is a number. *)
Definition has_amount (item : amount_item) : Prop :=
  exists q, amount item = Some q.

(** A candidate of the fallback: numeric, positive, below 100000. *)
Definition plausible (item : amount_item) : bool :=
  negb (isNaN (amount item)) && is_positive (amount item) && below 100000 (amount item).

(** The fallback of [extractTotal] as a value. *)
Definition largest_plausible (clean : string) : option string :=
  match
    List.filter (fun a => below 100000 (amount a))
      (js_sort amount_not_after
         (List.filter (fun item => negb (isNaN (amount item)) && is_positive (amount item))
            (currency_amounts clean)))
  with
  | first :: _ => Some (value first)
  | [] => None
  end.

(** The reading of "every currency-symbol-prefixed number" that the
    wording of the specification suggests: a currency symbol and a number,
    with or without fraction digits. *)
Definition any_currency_number : regex :=
  seq_of [chr "$"; many space; Grp 1 amount_number].

Definition numbers_as_worded (clean : string) : list amount_item :=
  map (amount_of clean) (matchAll any_currency_number clean).

(** A text made of the given lines ([lines.join('\n')]). *)
Definition LF : string := String "010" EmptyString.

Definition unlines (lines : list string) : string := String.concat LF lines.

(** The candidates of the header scan: the first six of the lines kept by
    [extractMerchant], those that pass its filter. *)
Definition header_candidates (text : string) : list string :=
  List.filter potential_merchant (firstn 6 (merchant_lines text)).

(** The labelled phase in the order the specification words it: the lines
    in their order, each line tried against every label. *)
Fixpoint labeled_by_line_order (lines : list string) : option string :=
  match lines with
  | [] => None
  | line :: more =>
      match first_of (map (fun pattern => labeled_merchant pattern line) merchantPatterns) with
      | Some name => Some name
      | None => labeled_by_line_order more
      end
  end.


(** A raster as [getImageData] returns it: four bytes per pixel. *)
Definition valid_raster (img : ImageData) : Prop :=
  (1 <= width img)%nat /\ (1 <= height img)%nat /\
  length (data img) = (4 * (width img * height img))%nat.

(** Channel [c] (0 red, 1 green, 2 blue, 3 alpha) of the pixel at column
    [x] of row [y]. *)
Definition channel (img : ImageData) (x y c : nat) : Z :=
  get (data img) ((y * width img + x) * 4 + c)%nat.

(** The gray level the first pass stores for a pixel. *)
Definition intensity (img : ImageData) (x y : nat) : Z :=
  toUint8Clamp
    (luminance (channel img x y 0) (channel img x y 1) (channel img x y 2)).

(** The three colour channels of every pixel are 0 or 255. *)
Definition binarized (a : list Z) : Prop :=
  forall p, (p < length a)%nat -> (p mod 4 <> 3)%nat ->
            get a p = 0%Z \/ get a p = 255%Z.

(** The three colour channels of every pixel hold one gray level. *)
Definition gray_levels (a : list Z) : Prop :=
  forall p, (p < length a)%nat ->
            get a p = get a (4 * (p / 4))%nat \/ (p mod 4 = 3)%nat.

Definition zsum (l : list Z) : Z := foldr Z.add 0%Z l.

(** The number of pixels of a level below [n], and the sum of their
    levels. *)
Definition weight_below (histogram : list Z) (n : nat) : Z :=
  zsum (map (get histogram) (List.seq 0 n)).

Definition sum_below (histogram : list Z) (n : nat) : Z :=
  zsum (map (fun i => (Z.of_nat i * get histogram i)%Z) (List.seq 0 n)).

(** [wB] and [sumB] after the iteration for [t]: the number of pixels of
    level at most [t], and the sum of their levels. *)
Definition background_weight (histogram : list Z) (t : nat) : Z :=
  weight_below histogram (S t).

Definition background_sum (histogram : list Z) (t : nat) : Z :=
  sum_below histogram (S t).

(** The value of the variable [variance] in the iteration of the loop
    for [t], from the histogram that the loop reads; 0 when the iteration
    ends before it computes one ([continue], [break]), and when the value
    is not a non-negative number.  (The statements about the threshold
    use [rounded_variance] below, which is written on the raster.) *)
Definition loop_variance (histogram : list Z) (total : Z) (t : nat) : float :=
  let wB := background_weight histogram t in
  let wF := (total - wB)%Z in
  if (wB =? 0)%Z || (wF =? 0)%Z then 0%float
  else
    let variance :=
      variance_of wB wF (background_sum histogram t) (weighted_sum histogram) in
    if (0 <=? variance)%float then variance else 0%float.

(** The order of two doubles: [None] when one is [NaN]. *)
Definition compare_floats (x y : float) : option comparison :=
  SFcompare (Prim2SF x) (Prim2SF y).

Definition unwrap (o : option comparison) : comparison :=
  match o with
  | Some c => c
  | None => Eq
  end.

(** A double that is not [NaN]. *)
Definition proper (x : float) : Prop := compare_floats x x = Some Eq.

(** The values the first and the fourth pass write at a pixel. *)
Definition gray_of (a : list Z) (i : nat) : Z :=
  toUint8Clamp (luminance (get a i) (get a (i + 1)) (get a (i + 2))).

Definition cut (threshold : Z) (a : list Z) (i : nat) : Z :=
  if (threshold <? get a i)%Z then 255%Z else 0%Z.

(** What the Otsu loop maintains before the iteration for [n]: the maximum
    [M] is a number, no earlier threshold has a larger variance, and the
    threshold kept is the first to reach it (or still the initial one, no
    variance being above 0). *)
Definition otsu_invariant (V : nat -> float) (n : nat) (M : float) (th : Z) : Prop :=
  (0 <=? M)%float = true /\
  (0 <= th < 255)%Z /\
  (forall t, (t < n)%nat -> (V t <=? M)%float = true) /\
  ((exists t0, th = Z.of_nat t0 /\ (M <=? V t0)%float = true /\
               forall t, (t < t0)%nat -> (V t <? M)%float = true)
   \/ (th = 0%Z /\ (M <=? 0)%float = true)).

(** A matcher whose result depends on its continuation at later positions
    only. *)
Definition looks_ahead {R}
    (step : (cursor -> captures -> option R) -> cursor -> captures -> option R)
    : Prop :=
  forall k1 k2 c g,
    (forall c' g', later c c' -> k1 c' g' = k2 c' g') ->
    step k1 c g = step k2 c g.

(** ** Notions used to state further properties of the image stage *)

(** The number of pixels of gray level [v], the pixels numbered row by
    row. *)
Definition pixels_of_level (img : ImageData) (v : Z) : nat :=
  length
    (List.filter
       (fun k => (intensity img (k mod width img) (k / width img) =? v)%Z)
       (List.seq 0 (width img * height img))).

(** The raster after the grayscale pass alone. *)
Definition grayscale_of (img : ImageData) : ImageData :=
  {| width := width img; height := height img;
     data := grayscale_pass (data img) |}.

(** ** A declarative reading of the expressions

    What a match of an expression is, whatever the order in which the
    matcher tries the ways of matching. *)

(** [c'] is the position reached from [c] by reading the word [w]. *)
Definition reads (c : cursor) (w : string) (c' : cursor) : Prop :=
  rest c = w ++ rest c' /\ pos c' = (pos c + String.length w)%nat.

(** A position of the text: what is left of it after [pos c]
    characters. *)
Definition cursor_in (text : string) (c : cursor) : Prop :=
  exists pre, text = pre ++ rest c /\ String.length pre = pos c.

(** [n] iterations in a row. *)
Fixpoint repeats (n : nat)
    (R : cursor -> captures -> cursor -> captures -> Prop)
    (c : cursor) (g : captures) (c' : cursor) (g' : captures) : Prop :=
  match n with
  | O => c' = c /\ g' = g
  | S n' => exists c1 g1, R c g c1 g1 /\ repeats n' R c1 g1 c' g'
  end.

(** A number of iterations that the bounds [{lo,hi}] allow. *)
Definition within (lo : nat) (hi : option nat) (n : nat) : Prop :=
  match hi with
  | Some h => (n <= h)%nat /\ (Nat.min lo h <= n)%nat
  | None => (lo <= n)%nat
  end.

(** [spans r c g c' g']: the expression [r] matches from [c] to [c'] and
    turns the captures [g] into [g']. *)
Fixpoint spans (r : regex) (c : cursor) (g : captures) (c' : cursor)
    (g' : captures) : Prop :=
  match r with
  | Eps => c' = c /\ g' = g
  | Class p =>
      exists a s', rest c = String a s' /\ p a = true /\
                   c' = {| pos := S (pos c); before := Some a; rest := s' |} /\
                   g' = g
  | Seq r1 r2 => exists c1 g1, spans r1 c g c1 g1 /\ spans r2 c1 g1 c' g'
  | Alt r1 r2 => spans r1 c g c' g' \/ spans r2 c g c' g'
  | Rep _ lo hi r1 => exists n, within lo hi n /\ repeats n (spans r1) c g c' g'
  | Grp n r1 =>
      exists g1, spans r1 c g c' g1 /\ g' = set_capture n (pos c, pos c') g1
  | Bol => pos c = 0%nat /\ c' = c /\ g' = g
  | Eol => rest c = EmptyString /\ c' = c /\ g' = g
  | WordB => xorb (word_before c) (word_after c) = true /\ c' = c /\ g' = g
  end.

(** A matcher that succeeds only by handing its continuation a match that
    [R] allows. *)
Definition sound {R}
    (step : (cursor -> captures -> option R) -> cursor -> captures -> option R)
    (allowed : cursor -> captures -> cursor -> captures -> Prop) : Prop :=
  forall k c g res, step k c g = Some res ->
    exists c' g', allowed c g c' g' /\ k c' g' = Some res.

(** An expression without capturing groups. *)
Fixpoint group_free (r : regex) : bool :=
  match r with
  | Seq r1 r2 | Alt r1 r2 => group_free r1 && group_free r2
  | Rep _ _ _ r1 => group_free r1
  | Grp _ _ => false
  | _ => true
  end.

(** Every character of [s] satisfies [p]; some character does. *)
Fixpoint all_chars (p : ascii -> bool) (s : string) : bool :=
  match s with
  | EmptyString => true
  | String a s' => p a && all_chars p s'
  end.

Fixpoint some_char (p : ascii -> bool) (s : string) : bool :=
  match s with
  | EmptyString => false
  | String a s' => p a || some_char p s'
  end.

(** Digits, then nothing, or one of the separators [seps] and one or two
    digits. *)
Fixpoint amount_shape (seps : string) (s : string) : bool :=
  match s with
  | EmptyString => false
  | String a s' =>
      isDigit a &&
      match s' with
      | EmptyString => true
      | String b s'' =>
          if isDigit b then amount_shape seps s'
          else mem_char seps b
               && (1 <=? String.length s'')%nat && (String.length s'' <=? 2)%nat
               && all_chars isDigit s''
      end
  end.

(** A decimal number: digits, optionally a period and one or two
    digits. *)
Definition decimal_text (s : string) : bool := amount_shape "." s.

(** The 256 characters. *)
Definition all_ascii : list ascii := map ascii_of_nat (List.seq 0 256).

(** Every character of the class [q] is in the class [p]. *)
Definition class_within (q p : ascii -> bool) : bool :=
  forallb (fun a => implb (q a) (p a)) all_ascii.

(** A test on the syntax that is enough for every match of the expression
    to hold a character of the class [p]. *)
Fixpoint requires (p : ascii -> bool) (r : regex) : bool :=
  match r with
  | Class q => class_within q p
  | Seq r1 r2 => requires p r1 || requires p r2
  | Alt r1 r2 => requires p r1 && requires p r2
  | Rep _ lo hi r1 =>
      (0 <? lo)%nat
      && match hi with Some h => (lo <=? h)%nat | None => true end
      && requires p r1
  | Grp _ r1 => requires p r1
  | _ => false
  end.

(** ** The hook useOCR and the component OCRProcessor

    The handlers read no state: they call the setters of the hook and of
    the component, show toasts and await operations of the browser and of
    Tesseract.  A run of a handler is the list of the calls it makes, in
    order, with the way its promise ends; what the awaited operations
    do is given by a [world].  ([console.log] and [console.error] are left
    out.) *)

(** A thrown value: an [Error] with its message, or anything else. *)
Inductive thrown : Type :=
| ErrorObject (message : string)
| OtherValue.

(** How an awaited operation ends: it is fulfilled, it is rejected, or it
    is never settled, and what follows the [await] is never run. *)
Inductive settled (A : Type) : Type :=
| Fulfilled (a : A)
| Rejected (reason : thrown)
| Pending.

Arguments Fulfilled {A} a.
Arguments Rejected {A} reason.
Arguments Pending {A}.

Inductive toast_title : Type := ProcessingComplete | ProcessingFailed.

Inductive update : Type :=
| SetIsProcessing (b : bool)
| SetProgress (p : float)
| SetResult (r : option BillData)
| SetError (e : option string)
| SetImagePreview (url : option string)
| SetActiveTab (tab : string)
| Toast (title : toast_title).

Definition action (A : Type) : Type := (list update * settled A)%type.

Definition call (u : update) : action unit := ([u], Fulfilled tt).

(** [await p] for a promise on which no call of ours depends. *)
Definition await {A} (p : settled A) : action A := ([], p).

(** One statement after another: the rest is skipped when the first
    throws, and never reached when the first stays pending. *)
Definition and_then {A B} (first : action A) (rest : A -> action B) : action B :=
  match first with
  | (calls, Fulfilled a) => let (more, outcome) := rest a in ((calls ++ more)%list, outcome)
  | (calls, Rejected reason) => (calls, Rejected reason)
  | (calls, Pending) => (calls, Pending)
  end.

(** [try { body } catch (err) { handler }] *)
Definition try_catch {A} (body : action A) (handler : thrown -> action A) : action A :=
  match body with
  | (calls, Rejected reason) =>
      let (more, outcome) := handler reason in ((calls ++ more)%list, outcome)
  | (calls, Fulfilled a) => (calls, Fulfilled a)
  | (calls, Pending) => (calls, Pending)
  end.

(** [try { body } finally { finalizer }]: the finalizer runs when the body
    completes or throws, not while it is pending. *)
Definition finally {A} (body : action A) (finalizer : action unit) : action A :=
  match body with
  | (calls, Pending) => (calls, Pending)
  | (calls, outcome) =>
      match finalizer with
      | (more, Fulfilled _) => ((calls ++ more)%list, outcome)
      | (more, Rejected reason) => ((calls ++ more)%list, Rejected reason)
      | (more, Pending) => ((calls ++ more)%list, Pending)
      end
  end.

(** An exception of the extractors is an [Error] (a [TypeError]). *)
Definition evaluate {A} (c : completion A) : action A :=
  match c with
  | Normal a => ([], Fulfilled a)
  | Throw message => ([], Rejected (ErrorObject message))
  end.

(** [imageFile: File | string] *)
Inductive image_source : Type :=
| File (name : string)
| DataUrl (url : string).

(** What becomes of the promise of [preprocessImage]: [onload] runs to
    its end on the raster that [getImageData] returns; [onload] finds no
    canvas context; [onload] has a context and one of its calls to the
    canvas ([drawImage], [getImageData], [putImageData], [toDataURL])
    throws; [onerror] is called; neither event ever comes; or
    [URL.createObjectURL] throws while the source is set. *)
Inductive load_outcome : Type :=
| Loaded (img : ImageData)
| NoContext
| OnloadThrows
| LoadFailed
| NoEvent
| SourceThrows (reason : thrown).

(** A message passed to the [logger] of the worker. *)
Record log_message : Type := mkLog {
  status : string;
  log_progress : float
}.

(** An awaited operation of the worker: the messages logged while it is
    pending, and how it ends. *)
Record pending (A : Type) : Type := mkPending {
  logged : list log_message;
  settles : settled A
}.

Arguments logged {A} p.
Arguments settles {A} p.

Record world : Type := mkWorld {
  load : image_source -> load_outcome;
  toDataURL : ImageData -> string;
  createWorker : pending unit;
  loadLanguage : pending unit;
  initialize : pending unit;
  setParameters : pending unit;
  recognize : string -> pending string;
  terminate : pending unit;
  createObjectURL : string -> settled string;
  fetch : string -> settled unit;
  blob : settled unit
}.

(** The promise of the asynchronous [preprocessImage(imageFile)]: the
    raster of the loaded image goes through [preprocessImage] above and
    is encoded.  Nothing in [onload] catches an exception: when a call to
    the canvas throws there, neither [resolve] nor [reject] is reached and
    the promise is never settled.  What the executor itself throws
    rejects the promise. *)
Definition preprocessImage_promise (w : world) (imageFile : image_source)
    : settled string :=
  match load w imageFile with
  | Loaded img => Fulfilled (toDataURL w (preprocessImage img))
  | NoContext => Rejected (ErrorObject "Could not get canvas context")
  | OnloadThrows => Pending
  | LoadFailed => Rejected (ErrorObject "Failed to load image for preprocessing")
  | NoEvent => Pending
  | SourceThrows reason => Rejected reason
  end.

(** [logger: m => { if (m.status === 'recognizing text')
    setProgress(m.progress * 100) }] *)
Definition logger (message : log_message) : list update :=
  if String.eqb (status message) "recognizing text"
  then [SetProgress (log_progress message * 100)%float]
  else [].

Definition await_worker {A} (p : pending A) : action A :=
  (flat_map logger (logged p), settles p).

(** [err instanceof Error ? err.message : 'An unknown error occurred'] *)
Definition message_of (err : thrown) : string :=
  match err with
  | ErrorObject message => message
  | OtherValue => "An unknown error occurred"
  end.

Definition processImage (w : world) (imageFile : image_source) : action unit :=
  finally
    (try_catch
       (and_then (call (SetIsProcessing true)) (fun _ =>
        and_then (call (SetProgress 0%float)) (fun _ =>
        and_then (call (SetError None)) (fun _ =>
        (* Preprocess the image to improve OCR accuracy *)
        and_then (await (preprocessImage_promise w imageFile)) (fun processedImage =>
        and_then (await_worker (createWorker w)) (fun _ =>
        (* Load English language data *)
        and_then (await_worker (loadLanguage w)) (fun _ =>
        and_then (await_worker (initialize w)) (fun _ =>
        and_then (await_worker (setParameters w)) (fun _ =>
        and_then (await_worker (recognize w processedImage)) (fun text =>
        and_then (await_worker (terminate w)) (fun _ =>
        (* Parse the bill data with improved extractors *)
        and_then (evaluate (extractFields text)) (fun billData =>
        call (SetResult (Some billData))))))))))))))
       (fun err => call (SetError (Some (message_of err)))))
    (call (SetIsProcessing false)).

(** The handlers of OCRProcessor. *)
Definition handleFileSelected (w : world) (file : string) : action unit :=
  try_catch
    ((* Create preview URL for the file *)
     and_then (await (createObjectURL w file)) (fun previewUrl =>
     and_then (call (SetImagePreview (Some previewUrl))) (fun _ =>
     (* Process the file with OCR *)
     and_then (processImage w (File file)) (fun _ =>
     call (Toast ProcessingComplete)))))
    (fun err => call (Toast ProcessingFailed)).

Definition handleImageCaptured (w : world) (imageData : string) : action unit :=
  try_catch
    (and_then (call (SetImagePreview (Some imageData))) (fun _ =>
     (* Convert data URL to Blob for processing *)
     and_then (await (fetch w imageData)) (fun response =>
     and_then (await (blob w)) (fun _ =>
     (* Process the image with OCR *)
     and_then (processImage w (DataUrl imageData)) (fun _ =>
     call (Toast ProcessingComplete))))))
    (fun err => call (Toast ProcessingFailed)).

(** The [onClick] of "Process another bill". *)
Definition processAnother : action unit :=
  and_then (call (SetActiveTab "upload")) (fun _ => call (SetImagePreview None)).

(** The state of the hook and of the component, with the toasts shown. *)
Record app_state : Type := mkApp {
  isProcessing : bool;
  progress : float;
  result : option BillData;
  error : option string;
  imagePreview : option string;
  activeTab : string;
  toasts : list toast_title
}.

Definition initial_state : app_state :=
  {| isProcessing := false; progress := 0%float; result := None; error := None;
     imagePreview := None; activeTab := "upload"; toasts := [] |}.

Definition apply_update (st : app_state) (u : update) : app_state :=
  match u with
  | SetIsProcessing b =>
      {| isProcessing := b; progress := progress st; result := result st;
         error := error st; imagePreview := imagePreview st;
         activeTab := activeTab st; toasts := toasts st |}
  | SetProgress p =>
      {| isProcessing := isProcessing st; progress := p; result := result st;
         error := error st; imagePreview := imagePreview st;
         activeTab := activeTab st; toasts := toasts st |}
  | SetResult r =>
      {| isProcessing := isProcessing st; progress := progress st; result := r;
         error := error st; imagePreview := imagePreview st;
         activeTab := activeTab st; toasts := toasts st |}
  | SetError e =>
      {| isProcessing := isProcessing st; progress := progress st; result := result st;
         error := e; imagePreview := imagePreview st;
         activeTab := activeTab st; toasts := toasts st |}
  | SetImagePreview url =>
      {| isProcessing := isProcessing st; progress := progress st; result := result st;
         error := error st; imagePreview := url;
         activeTab := activeTab st; toasts := toasts st |}
  | SetActiveTab tab =>
      {| isProcessing := isProcessing st; progress := progress st; result := result st;
         error := error st; imagePreview := imagePreview st;
         activeTab := tab; toasts := toasts st |}
  | Toast title =>
      {| isProcessing := isProcessing st; progress := progress st; result := result st;
         error := error st; imagePreview := imagePreview st;
         activeTab := activeTab st; toasts := (toasts st ++ [title])%list |}
  end.

Definition apply_updates (st : app_state) (calls : list update) : app_state :=
  foldl apply_update st calls.

(** What OCRProcessor renders: the upload and camera tabs ([!result]), the
    progress bar ([isProcessing]), the alert ([error], a string that is
    not empty), the results ([result && !isProcessing]). *)
Definition shows_tabs (st : app_state) : bool :=
  match result st with Some _ => false | None => true end.

Definition shows_progress (st : app_state) : bool := isProcessing st.

Definition shows_error (st : app_state) : bool :=
  match error st with
  | Some message => negb (String.eqb message EmptyString)
  | None => false
  end.

Definition shows_results (st : app_state) : bool :=
  match result st with Some _ => negb (isProcessing st) | None => false end.

(** A run of one of the handlers of the component. *)
Inductive handler_run : Type :=
| FileSelected (w : world) (file : string)
| ImageCaptured (w : world) (imageData : string)
| ProcessAnother
| TabChanged (tab : string).

Definition calls_of (run : handler_run) : list update :=
  match run with
  | FileSelected w file => fst (handleFileSelected w file)
  | ImageCaptured w imageData => fst (handleImageCaptured w imageData)
  | ProcessAnother => fst processAnother
  | TabChanged tab => [SetActiveTab tab]
  end.

(** Calls of [setProgress] only. *)
Definition progress_only (calls : list update) : Prop :=
  Forall (fun u => exists p, u = SetProgress p) calls.

(** A piece of the body of [processImage]: besides setting the progress,
    it either sets a result and completes, or throws, or stays pending. *)
Definition sets_result_or_throws (a : action unit) : Prop :=
  exists calls, progress_only calls /\
    ((exists bill, a = ((calls ++ [SetResult (Some bill)])%list, Fulfilled tt)) \/
     (exists reason, a = (calls, Rejected reason)) \/
     a = (calls, Pending)).

(** A call that does not clear the result. *)
Definition keeps_result (u : update) : Prop := u <> SetResult None.

(** A world in which the image cannot be loaded, all the rest going
    well. *)
Definition unreadable_image : world :=
  {| load := fun _ => LoadFailed;
     toDataURL := fun _ => "data:image/png;base64,";
     createWorker := {| logged := []; settles := Fulfilled tt |};
     loadLanguage := {| logged := []; settles := Fulfilled tt |};
     initialize := {| logged := []; settles := Fulfilled tt |};
     setParameters := {| logged := []; settles := Fulfilled tt |};
     recognize := fun _ => {| logged := []; settles := Fulfilled EmptyString |};
     terminate := {| logged := []; settles := Fulfilled tt |};
     createObjectURL := fun file => Fulfilled ("blob:" ++ file);
     fetch := fun _ => Fulfilled tt;
     blob := Fulfilled tt |}.

(** A world in which a call to the canvas throws inside [onload] (a
    raster that may not be read, an image without pixels), all the rest
    going well. *)
Definition throwing_canvas : world :=
  {| load := fun _ => OnloadThrows;
     toDataURL := fun _ => "data:image/png;base64,";
     createWorker := {| logged := []; settles := Fulfilled tt |};
     loadLanguage := {| logged := []; settles := Fulfilled tt |};
     initialize := {| logged := []; settles := Fulfilled tt |};
     setParameters := {| logged := []; settles := Fulfilled tt |};
     recognize := fun _ => {| logged := []; settles := Fulfilled EmptyString |};
     terminate := {| logged := []; settles := Fulfilled tt |};
     createObjectURL := fun file => Fulfilled ("blob:" ++ file);
     fetch := fun _ => Fulfilled tt;
     blob := Fulfilled tt |}.

(** The number of characters of the class [p] that [s] starts with. *)
Fixpoint leading (p : ascii -> bool) (s : string) : nat :=
  match s with
  | String a s' => if p a then S (leading p s') else 0%nat
  | EmptyString => 0%nat
  end.

(** ** The component BillResults

    What the component shows, from top to bottom: the fields are behind
    [{merchant && ...}], [{date && ...}], [{total && ...}], which hide an
    absent field and an empty string. *)

Record BillResultsProps : Type := mkProps {
  props_fullText : string;
  props_date : option string;
  props_total : option string;
  props_merchant : option string;
  props_imagePreview : option string
}.

Inductive shown : Type :=
| AnalyzedImage (src : string)
| Merchant (name : string)
| Date (text : string)
| TotalAmount (text : string)
| ExtractedText (text : string).

(** [value && element] *)
Definition when (value : option string) (element : string -> shown) : list shown :=
  match value with
  | Some (String a s) => [element (String a s)]
  | _ => []
  end.

Definition BillResults (props : BillResultsProps) : list shown :=
  (when (props_imagePreview props) AnalyzedImage
   ++ when (props_merchant props) Merchant
   ++ when (props_date props) Date
   ++ when (props_total props) (fun total => TotalAmount ("$" ++ total))
   ++ [ExtractedText (props_fullText props)])%list.

(** The props that OCRProcessor passes for a result. *)
Definition results_props (bill : BillData) (imagePreview : option string)
    : BillResultsProps :=
  {| props_fullText := fullText bill;
     props_date := date bill;
     props_total := total bill;
     props_merchant := merchant bill;
     props_imagePreview := imagePreview |}.

(** ** The earlier versions of the hook

    The file holds two earlier versions of [useOCR]: a first one with one
    pattern for each field and no preprocessing, and a second one with a
    fixed threshold and three date patterns. *)

Module Simple.

(** [/\b(\d{1,2}[/.-]\d{1,2}[/.-]\d{2,4})\b/g] *)
Definition dateRegex : RegExp :=
  {| source := "\b(\d{1,2}[/.-]\d{1,2}[/.-]\d{2,4})\b";
     flags := "g";
     ast := seq_of [WordB; Grp 1 numeric_date; WordB] |}.

Definition extractDate (text : string) : option string :=
  match js_match text dateRegex with
  | Some matches => at_index matches 0
  | None => None
  end.

(** [/(?:total|amount|due|balance|sum)(?:\s*:)?\s*\$?\s*(\d+[.,]\d{2})/i] *)
Definition totalRegex : RegExp :=
  {| source := "(?:total|amount|due|balance|sum)(?:\s*:)?\s*\$?\s*(\d+[.,]\d{2})";
     flags := "i";
     ast := seq_of [alt_of [lit_i "total"; lit_i "amount"; lit_i "due";
                      lit_i "balance"; lit_i "sum"];
                 maybe (Seq (many space) (chr ":"));
                 many space; maybe (chr "$"); many space;
                 Grp 1 (seq_of [many1 digit; one_of ".,"; exactly 2 digit])] |}.

Definition extractTotal (text : string) : option string :=
  match js_match text totalRegex with
  | Some found => at_index found 1
  | None => None
  end.

Definition extractMerchant (text : string) : option string :=
  (* First few lines often contain the merchant name *)
  let lines := firstn 5 (split_lines text) in
  (* Filter out lines that look like dates, amounts, or are too short *)
  let potentialMerchants :=
    List.filter
      (fun line =>
         (3 <? String.length line)%nat
         && negb (test numeric_date line)
         && negb (test two_decimal_amount line))
      lines in
  match potentialMerchants with
  | first :: _ => Some (trim first)
  | [] => None
  end.

End Simple.

Module Intermediate.

Definition threshold : float := 150%float.

(** The body of the one loop: grayscale and threshold at once, the gray
    value compared before any rounding. *)
Definition binarize_step (a : list Z) (i : nat) : list Z :=
  let gray := luminance (get a i) (get a (i + 1)) (get a (i + 2)) in
  let value := if (threshold <? gray)%float then 255%Z else 0%Z in
  set_rgb i value a.

Definition preprocessImage (img : ImageData) : ImageData :=
  {| width := width img;
     height := height img;
     data := foldl binarize_step (data img) (pixel_offsets (length (data img))) |}.

(** The three patterns are those of the later version, which adds the
    keyword pattern. *)
Definition datePatterns : list RegExp := [date_numeric; date_month; date_iso].

Fixpoint date_loop (text : string) (patterns : list RegExp) : option string :=
  match patterns with
  | [] => None
  | pattern :: more =>
      match js_match text pattern with
      | Some matches =>
          if (0 <? length matches)%nat then at_index matches 0
          else date_loop text more
      | None => date_loop text more
      end
  end.

Definition extractDate (text : string) : option string :=
  date_loop text datePatterns.

End Intermediate.

(** The value the one loop of [Intermediate.preprocessImage] writes at a
    pixel. *)
Definition fixed_cut (a : list Z) (i : nat) : Z :=
  if (Intermediate.threshold
      <? luminance (get a i) (get a (i + 1)) (get a (i + 2)))%float
  then 255%Z else 0%Z.

(** A world in which a 2 by 1 image is loaded and read as a receipt of two
    lines, the worker logging its progress twice. *)
Definition readable_bill : world :=
  {| load := fun _ =>
       Loaded {| width := 2; height := 1;
                 data := [250; 250; 250; 255; 20; 30; 40; 255]%Z |};
     toDataURL := fun _ => "data:image/png;base64,";
     createWorker := {| logged := [mkLog "loading tesseract core" 1%float];
                        settles := Fulfilled tt |};
     loadLanguage := {| logged := []; settles := Fulfilled tt |};
     initialize := {| logged := []; settles := Fulfilled tt |};
     setParameters := {| logged := []; settles := Fulfilled tt |};
     recognize := fun _ =>
       {| logged := [mkLog "recognizing text" 0.5%float;
                     mkLog "recognizing text" 1%float];
          settles := Fulfilled (unlines ["ACME HARDWARE"; "Total: $5.00"]) |};
     terminate := {| logged := []; settles := Fulfilled tt |};
     createObjectURL := fun file => Fulfilled ("blob:" ++ file);
     fetch := fun _ => Fulfilled tt;
     blob := Fulfilled tt |}.

(** ** The between-class variance of a threshold

    Stated on the raster, without the histogram of the code: for a
    threshold [t], [wB] is the number of pixels of a gray level of at most
    [t] and [wF] the number of the others; [mB] and [mF] are the mean
    gray levels of the two groups. *)

Definition pixel_count (img : ImageData) : Z := Z.of_nat (width img * height img).

Definition pixels_up_to (img : ImageData) (t : nat) : Z :=
  zsum (map (fun v => Z.of_nat (pixels_of_level img (Z.of_nat v))) (List.seq 0 (S t))).

(** The sum of the gray levels of the pixels of a level of at most [t]. *)
Definition levels_up_to (img : ImageData) (t : nat) : Z :=
  zsum (map (fun v => (Z.of_nat v * Z.of_nat (pixels_of_level img (Z.of_nat v)))%Z)
          (List.seq 0 (S t))).

(** [wB(t) * wF(t) * (mB(t) - mF(t))^2] as a rational number (0 when one
    of the groups is empty). *)
Definition between_class_variance (img : ImageData) (t : nat) : Q :=
  let wB := pixels_up_to img t in
  let wF := (pixel_count img - wB)%Z in
  let mB := (inject_Z (levels_up_to img t) / inject_Z wB)%Q in
  let mF := (inject_Z (levels_up_to img 255 - levels_up_to img t) / inject_Z wF)%Q in
  (inject_Z wB * inject_Z wF * ((mB - mF) * (mB - mF)))%Q.

(** The same expression evaluated in double precision, every division,
    difference and product rounded, from left to right; 0 when one of the
    groups is empty, and when the value is not a non-negative number. *)
Definition rounded_variance (img : ImageData) (t : nat) : float :=
  let wB := pixels_up_to img t in
  let wF := (pixel_count img - wB)%Z in
  if (wB =? 0)%Z || (wF =? 0)%Z then 0%float
  else
    let mB := (of_int (levels_up_to img t) / of_int wB)%float in
    let mF := (of_int (levels_up_to img 255 - levels_up_to img t) / of_int wF)%float in
    let variance := (of_int wB * of_int wF * (mB - mF) * (mB - mF))%float in
    if (0 <=? variance)%float then variance else 0%float.

(** A 4 by 1 raster of the gray levels 0, 1, 1 and 2. *)
Definition tied_raster : ImageData :=
  {| width := 4; height := 1;
     data := [0; 0; 0; 255; 1; 1; 1; 255; 1; 1; 1; 255; 2; 2; 2; 255]%Z |}.

(** ** Notions used to state what the extractors keep and discard *)

(** One of the digits 1 to 9: a decimal number is above 0 when it has
    one. *)
Definition nonzero_digit (c : ascii) : bool := in_range "1" "9" c.




(** * Properties *)

(** ** The matcher succeeds only through its continuation *)

Lemma keeps_refl g : keeps g g.
Proof. intros n H; exact H. Qed.

Lemma keeps_trans g1 g2 g3 : keeps g1 g2 -> keeps g2 g3 -> keeps g1 g3.
Proof. intros H1 H2 n H; auto. Qed.

Lemma keeps_set n span g : keeps g (set_capture n span g).
Proof.
  intros k H. unfold set_capture. destruct (k =? n)%nat; [discriminate | exact H].
Qed.

Lemma set_capture_bound n span g : set_capture n span g n <> None.
Proof. unfold set_capture. rewrite Nat.eqb_refl. discriminate. Qed.

Lemma orelse_Some {R} (a b : option R) res :
  orelse a b = Some res -> a = Some res \/ b = Some res.
Proof. destruct a; simpl; auto. Qed.

Lemma later_refl c : later c c.
Proof. split; lia. Qed.

Lemma later_trans c1 c2 c3 : later c1 c2 -> later c2 c3 -> later c1 c3.
Proof. unfold later. lia. Qed.

Lemma iterate_passes_on {R}
    (step : (cursor -> captures -> option R) -> cursor -> captures -> option R) :
  passes_on step ->
  forall greedy fuel lo hi, passes_on (fun k => iterate step k greedy fuel lo hi).
Proof.
  intros Hstep greedy fuel.
  induction fuel as [|fuel IH]; intros lo hi k c g res H; cbn [iterate] in H;
    [discriminate|].
  assert (Hk : k c g = Some res ->
               exists c' g', k c' g' = Some res /\ keeps g g' /\ later c c').
  { intros Hk. exists c, g. split; [exact Hk | split; [apply keeps_refl | apply later_refl]]. }
  assert (Hagain :
    step (fun c' g' =>
            if (lo =? 0)%nat && (pos c' =? pos c)%nat then None
            else iterate step k greedy fuel (Nat.pred lo) (dec_bound hi) c' g') c g
      = Some res ->
    exists c' g', k c' g' = Some res /\ keeps g g' /\ later c c').
  { intros Ha. apply Hstep in Ha. destruct Ha as (c1 & g1 & Hc1 & Hk1 & Hl1).
    destruct ((lo =? 0)%nat && (pos c1 =? pos c)%nat); [discriminate|].
    apply IH in Hc1. destruct Hc1 as (c2 & g2 & Hc2 & Hk2 & Hl2).
    exists c2, g2. split; [exact Hc2|].
    split; [eapply keeps_trans; eauto | eapply later_trans; eauto]. }
  destruct hi as [[|hi]|].
  - auto.
  - destruct (0 <? lo)%nat; [auto|].
    destruct greedy; apply orelse_Some in H; destruct H; auto.
  - destruct (0 <? lo)%nat; [auto|].
    destruct greedy; apply orelse_Some in H; destruct H; auto.
Qed.

Lemma m_passes_on {R} (r : regex) :
  forall (k : cursor -> captures -> option R) c g res,
    m r k c g = Some res ->
    exists c' g', k c' g' = Some res /\ keeps g g' /\ later c c' /\
                  forall n, binds r n -> g' n <> None.
Proof.
  induction r as [|p|r1 IH1 r2 IH2|r1 IH1 r2 IH2|greedy lo hi r1 IH1|n r1 IH1| | |];
    intros k c g res H; cbn [m] in H.
  - exists c, g. split; [exact H|]. split; [apply keeps_refl|]. split; [apply later_refl | intros n []].
  - destruct (rest c) as [|a s'] eqn:E; [discriminate|].
    destruct (p a); [|discriminate].
    eexists _, g. split; [exact H|]. split; [apply keeps_refl|]. split; [|intros n []].
    unfold later. cbn [pos rest]. rewrite E. cbn [String.length]. lia.
  - apply IH1 in H. destruct H as (c1 & g1 & H & Hk1 & Hl1 & Hb1).
    apply IH2 in H. destruct H as (c2 & g2 & H & Hk2 & Hl2 & Hb2).
    exists c2, g2. split; [exact H|]. split; [eapply keeps_trans; eauto|].
    split; [eapply later_trans; eauto|].
    intros n [Hn|Hn]; auto.
  - apply orelse_Some in H. destruct H as [H|H].
    + apply IH1 in H. destruct H as (c1 & g1 & H & Hk1 & Hl1 & Hb1).
      exists c1, g1. split; [exact H|]. split; [exact Hk1|]. split; [exact Hl1|].
      intros n [Hn _]; auto.
    + apply IH2 in H. destruct H as (c1 & g1 & H & Hk1 & Hl1 & Hb1).
      exists c1, g1. split; [exact H|]. split; [exact Hk1|]. split; [exact Hl1|].
      intros n [_ Hn]; auto.
  - apply (iterate_passes_on (m r1)) in H.
    + destruct H as (c1 & g1 & H & Hk1 & Hl1). exists c1, g1.
      split; [exact H | split; [exact Hk1 | split; [exact Hl1 | intros n []]]].
    + intros k' c' g' res' H'. apply IH1 in H'.
      destruct H' as (c1 & g1 & H' & Hk1 & Hl1 & _). eauto.
  - apply IH1 in H. destruct H as (c1 & g1 & H & Hk1 & Hl1 & Hb1).
    eexists c1, _. split; [exact H|]. split; [|split; [exact Hl1|]].
    + eapply keeps_trans; [exact Hk1 | apply keeps_set].
    + intros k' [Hn|Hn].
      * subst. apply set_capture_bound.
      * apply keeps_set. auto.
  - destruct (pos c =? 0)%nat; [|discriminate].
    exists c, g. split; [exact H|]. split; [apply keeps_refl|]. split; [apply later_refl | intros n []].
  - destruct (rest c); [|discriminate].
    exists c, g. split; [exact H|]. split; [apply keeps_refl|]. split; [apply later_refl | intros n []].
  - destruct (xorb (word_before c) (word_after c)); [|discriminate].
    exists c, g. split; [exact H|]. split; [apply keeps_refl|]. split; [apply later_refl | intros n []].
Qed.

Lemma match_at_spec r c res :
  match_at r c = Some res ->
  m_start res = pos c /\ later c (m_after res) /\
  forall n, binds r n -> m_groups res n <> None.
Proof.
  intros H. unfold match_at in H. apply m_passes_on in H.
  destruct H as (c' & g' & H & _ & Hl & Hg). injection H as <-. cbn. auto.
Qed.

Lemma match_at_binds r n c res :
  binds r n -> match_at r c = Some res -> m_groups res n <> None.
Proof. intros Hb H. now apply (match_at_spec r c res H). Qed.

Lemma search_spec r : forall s p b res,
  search r p b s = Some res ->
  (p <= m_start res)%nat /\
  later {| pos := p; before := b; rest := s |} (m_after res) /\
  (m_start res <= m_end res)%nat /\
  forall n, binds r n -> m_groups res n <> None.
Proof.
  induction s as [|a s IH]; intros p b res H; cbn [search] in H.
  - destruct (match_at r _) eqn:E; [|discriminate]. injection H as <-.
    destruct (match_at_spec _ _ _ E) as (Hs & Hl & Hg). cbn [pos] in Hs.
    unfold m_end. destruct Hl as [Hl1 Hl2]. cbn [pos] in Hl1.
    repeat split; auto; try lia.
  - destruct (match_at r _) eqn:E.
    + injection H as <-.
      destruct (match_at_spec _ _ _ E) as (Hs & Hl & Hg). cbn [pos] in Hs.
      unfold m_end. destruct Hl as [Hl1 Hl2]. cbn [pos] in Hl1.
      repeat split; auto; try lia.
    + apply IH in H. destruct H as (Hs & [Hl1 Hl2] & He & Hg).
      cbn [pos rest] in *. repeat split; auto; cbn [pos rest String.length]; lia.
Qed.

Lemma search_binds r n : binds r n ->
  forall s p b res, search r p b s = Some res -> m_groups res n <> None.
Proof. intros Hb s p b res H. now apply (search_spec r s p b res H). Qed.

Lemma matches_from_binds r n : binds r n ->
  forall fuel c res, In res (matches_from fuel r c) -> m_groups res n <> None.
Proof.
  intros Hb fuel. induction fuel as [|fuel IH]; intros c res H; simpl in H; [contradiction|].
  destruct (search_from r c) as [res0|] eqn:E; [|contradiction].
  destruct H as [<-|H].
  - unfold search_from in E. eapply search_binds; eauto.
  - destruct (resume res0); [eapply IH; eauto | contradiction].
Qed.

(** ** The fuel of the loops of the matcher is enough *)

Lemma iterate_looks_ahead {R}
    (step : (cursor -> captures -> option R) -> cursor -> captures -> option R) :
  looks_ahead step ->
  forall greedy fuel lo hi, looks_ahead (fun k => iterate step k greedy fuel lo hi).
Proof.
  intros Hstep greedy fuel.
  induction fuel as [|fuel IH]; intros lo hi k1 k2 c g Hk; cbn [iterate]; [reflexivity|].
  assert (Hagain :
    step (fun c' g' =>
            if (lo =? 0)%nat && (pos c' =? pos c)%nat then None
            else iterate step k1 greedy fuel (Nat.pred lo) (dec_bound hi) c' g') c g
    = step (fun c' g' =>
              if (lo =? 0)%nat && (pos c' =? pos c)%nat then None
              else iterate step k2 greedy fuel (Nat.pred lo) (dec_bound hi) c' g') c g).
  { apply Hstep. intros c' g' Hl. destruct (_ && _); [reflexivity|].
    apply IH. intros c'' g'' Hl'. apply Hk. eapply later_trans; eauto. }
  rewrite Hagain, (Hk c g (later_refl c)). reflexivity.
Qed.

Lemma m_looks_ahead {R} (r : regex) : looks_ahead (R := R) (m r).
Proof.
  induction r as [|p|r1 IH1 r2 IH2|r1 IH1 r2 IH2|greedy lo hi r1 IH1|n r1 IH1| | |];
    intros k1 k2 c g Hk; cbn [m].
  - apply Hk, later_refl.
  - destruct (rest c) as [|a s'] eqn:E; [reflexivity|].
    destruct (p a); [|reflexivity]. apply Hk. unfold later. cbn [pos rest].
    rewrite E. cbn [String.length]. lia.
  - apply IH1. intros c' g' Hl. apply IH2. intros c'' g'' Hl'.
    apply Hk. eapply later_trans; eauto.
  - now rewrite (IH1 k1 k2 c g Hk), (IH2 k1 k2 c g Hk).
  - apply (iterate_looks_ahead (m r1) IH1). exact Hk.
  - apply IH1. intros c' g' Hl. apply Hk. exact Hl.
  - destruct (pos c =? 0)%nat; [apply Hk, later_refl | reflexivity].
  - destruct (rest c); [apply Hk, later_refl | reflexivity].
  - destruct (xorb _ _); [apply Hk, later_refl | reflexivity].
Qed.

(** More fuel than [m] gives a repetition changes nothing: the bound is
    never what makes a match fail. *)
Lemma iterate_fuel_enough {R}
    (step : (cursor -> captures -> option R) -> cursor -> captures -> option R)
    (k : cursor -> captures -> option R) greedy :
  looks_ahead step ->
  forall fuel1 fuel2 lo hi c g,
    (lo + String.length (rest c) < fuel1)%nat ->
    (lo + String.length (rest c) < fuel2)%nat ->
    iterate step k greedy fuel1 lo hi c g = iterate step k greedy fuel2 lo hi c g.
Proof.
  intros Hstep fuel1.
  induction fuel1 as [|fuel1 IH]; intros fuel2 lo hi c g H1 H2; [lia|].
  destruct fuel2 as [|fuel2]; [lia|]. cbn [iterate].
  assert (Hagain :
    step (fun c' g' =>
            if (lo =? 0)%nat && (pos c' =? pos c)%nat then None
            else iterate step k greedy fuel1 (Nat.pred lo) (dec_bound hi) c' g') c g
    = step (fun c' g' =>
              if (lo =? 0)%nat && (pos c' =? pos c)%nat then None
              else iterate step k greedy fuel2 (Nat.pred lo) (dec_bound hi) c' g') c g).
  { apply Hstep. intros c' g' [Hp Hl].
    destruct (Nat.eqb_spec lo 0) as [Hlo|Hlo]; cbn [andb].
    - destruct (Nat.eqb_spec (pos c') (pos c)) as [He|He]; [reflexivity|].
      apply IH; lia.
    - apply IH; lia. }
  now rewrite Hagain.
Qed.

Lemma repetition_fuel_enough {R} greedy lo hi r
    (k : cursor -> captures -> option R) c g extra :
  iterate (m r) k greedy (S (lo + String.length (rest c)) + extra) lo hi c g
  = m (Rep greedy lo hi r) k c g.
Proof. cbn [m]. apply iterate_fuel_enough; [apply m_looks_ahead | lia | lia]. Qed.

(** Each further match starts in a shorter text, so the fuel of [matchAll]
    is enough as well. *)
Lemma resume_shorter r c res c' :
  search_from r c = Some res -> resume res = Some c' ->
  (String.length (rest c') < String.length (rest c))%nat.
Proof.
  unfold search_from, resume, m_end. intros Hs Hr.
  apply search_spec in Hs. destruct Hs as (Hs & [Hl1 Hl2] & He & _).
  unfold m_end in He. cbn [pos rest] in *.
  destruct (Nat.eqb_spec (pos (m_after res)) (m_start res)) as [E|E].
  - destruct (rest (m_after res)) as [|a s'] eqn:Er; [discriminate|].
    injection Hr as <-. cbn [rest String.length] in *. lia.
  - injection Hr as <-. lia.
Qed.

Lemma matches_from_fuel_enough r : forall fuel1 fuel2 c,
  (String.length (rest c) < fuel1)%nat ->
  (String.length (rest c) < fuel2)%nat ->
  matches_from fuel1 r c = matches_from fuel2 r c.
Proof.
  induction fuel1 as [|fuel1 IH]; intros fuel2 c H1 H2; [lia|].
  destruct fuel2 as [|fuel2]; [lia|]. cbn [matches_from].
  destruct (search_from r c) as [res|] eqn:Es; [|reflexivity].
  destruct (resume res) as [c'|] eqn:Er; [|reflexivity].
  pose proof (resume_shorter _ _ _ _ Es Er). f_equal. apply IH; lia.
Qed.

Lemma matchAll_fuel_enough r text extra :
  matches_from (S (String.length text) + extra) r (start_of text) = matchAll r text.
Proof. apply matches_from_fuel_enough; cbn [start_of rest]; lia. Qed.
(* ---- strings ---- *)
Lemma append_empty_r (s : string) : s ++ "" = s.
Proof. induction s; simpl; congruence. Qed.

Lemma append_assoc (a b c : string) : (a ++ b) ++ c = a ++ b ++ c.
Proof. induction a; simpl; congruence. Qed.

Lemma occurs_in_refl s : occurs_in s s.
Proof. exists "", "". simpl. now rewrite append_empty_r. Qed.

Lemma occurs_in_trans a b c : occurs_in a b -> occurs_in b c -> occurs_in a c.
Proof.
  intros (p1 & q1 & ->) (p2 & q2 & ->).
  exists (p2 ++ p1), (q1 ++ q2). now rewrite !append_assoc.
Qed.

Lemma occurs_in_cons c d s : occurs_in d s -> occurs_in d (String c s).
Proof. intros (p & q & ->). exists (String c p), q. reflexivity. Qed.

Lemma substring_occurs : forall s n k, occurs_in (substring n k s) s.
Proof.
  induction s as [|c s IH]; intros n k.
  - destruct n, k; simpl; apply occurs_in_refl.
  - destruct n as [|n].
    + destruct k as [|k]; simpl.
      * exists "", (String c s). reflexivity.
      * destruct (IH 0 k) as (p & q & E).
        (* substring 0 k s is a prefix *)
        assert (Hp : forall t j, exists q, t = substring 0 j t ++ q).
        { induction t as [|a t IHt]; intros j.
          - exists "". destruct j; reflexivity.
          - destruct j; simpl.
            + exists (String a t). reflexivity.
            + destruct (IHt j) as (q' & Eq). exists q'. now rewrite <- Eq. }
        destruct (Hp s k) as (q' & Eq). exists "", q'. simpl. now rewrite <- Eq.
    + simpl. apply occurs_in_cons, IH.
Qed.

Lemma trimStart_occurs s : occurs_in (trimStart s) s.
Proof.
  induction s as [|c s IH]; simpl.
  - apply occurs_in_refl.
  - destruct (isWhiteSpace c); [apply occurs_in_cons, IH | apply occurs_in_refl].
Qed.

Lemma trimEnd_prefix s : exists q, s = trimEnd s ++ q.
Proof.
  induction s as [|c s (q & E)]; simpl.
  - exists "". reflexivity.
  - destruct (trimEnd s) as [|a t] eqn:Et.
    + destruct (isWhiteSpace c).
      * exists (String c s). reflexivity.
      * exists q. simpl. simpl in E. now rewrite <- E.
    + exists q. rewrite E at 1. reflexivity.
Qed.

Lemma trim_occurs s : occurs_in (trim s) s.
Proof.
  unfold trim. eapply occurs_in_trans; [|apply trimStart_occurs].
  destruct (trimEnd_prefix (trimStart s)) as (q & E).
  exists "", q. simpl. exact E.
Qed.

(* ---- cleanText ---- *)
Lemma collapse_from_spaced : forall s b, single_spaced_from b (collapse_from b s) = true.
Proof.
  induction s as [|c s IH]; intros b; cbn [collapse_from]; [reflexivity|].
  destruct (isWhiteSpace c) eqn:E.
  - destruct b; [apply IH|]. cbn [single_spaced_from]. apply IH.
  - cbn [single_spaced_from]. rewrite E. apply IH.
Qed.

Lemma trimStart_spaced : forall s b,
  single_spaced_from b s = true -> single_spaced_from false (trimStart s) = true.
Proof.
  induction s as [|c s IH]; intros b H; cbn [single_spaced_from trimStart] in *;
    [reflexivity|].
  destruct (isWhiteSpace c) eqn:E.
  - apply andb_prop in H. destruct H as [_ H]. eapply IH; eauto.
  - cbn [single_spaced_from]. rewrite E. exact H.
Qed.

Lemma trimEnd_spaced : forall s b,
  single_spaced_from b s = true -> single_spaced_from b (trimEnd s) = true.
Proof.
  induction s as [|c s IH]; intros b H; cbn [single_spaced_from trimEnd] in *;
    [reflexivity|].
  destruct (isWhiteSpace c) eqn:E.
  - apply andb_prop in H. destruct H as [H1 H2].
    specialize (IH _ H2).
    destruct (trimEnd s) as [|a t]; [reflexivity|].
    cbn [single_spaced_from]. rewrite E, H1. exact IH.
  - specialize (IH _ H).
    destruct (trimEnd s) as [|a t]; cbn [single_spaced_from]; rewrite E;
      [reflexivity | exact IH].
Qed.

(* ---- white space runs through the matcher ---- *)
Lemma trimStart_length s : (String.length (trimStart s) <= String.length s)%nat.
Proof.
  induction s as [|a s IH]; simpl; [lia|].
  destruct (isWhiteSpace a); simpl; lia.
Qed.

Lemma trimStart_split s : exists run, s = run ++ trimStart s.
Proof.
  induction s as [|a s (run & E)]; simpl.
  - exists "". reflexivity.
  - destruct (isWhiteSpace a).
    + exists (String a run). simpl. now rewrite <- E.
    + exists "". reflexivity.
Qed.

Lemma append_length (a b : string) :
  String.length (a ++ b) = (String.length a + String.length b)%nat.
Proof. induction a; simpl; congruence. Qed.

Lemma substring_middle : forall pre mid post,
  substring (String.length pre) (String.length mid) (pre ++ mid ++ post) = mid.
Proof.
  induction pre as [|a pre IH]; intros mid post; simpl.
  - induction mid as [|b mid IHm]; simpl.
    + destruct post; reflexivity.
    + now rewrite IHm.
  - apply IH.
Qed.

Lemma collapse_after_run : forall s,
  collapse_from true s = collapse_from false (trimStart s).
Proof.
  induction s as [|a s IH]; simpl; [reflexivity|].
  destruct (isWhiteSpace a) eqn:E; [exact IH|].
  simpl. now rewrite E.
Qed.

(** [\s+] at a position: the whole run of white space, when there is
    one. *)
Lemma iterate_space {R} (f : cursor -> captures -> R) : forall s p b g lo fuel,
  (lo + String.length s < fuel)%nat ->
  let run := (String.length s - String.length (trimStart s))%nat in
  ((lo <= run)%nat ->
     exists c', iterate (m space) (fun c g => Some (f c g)) true fuel lo None
                  {| pos := p; before := b; rest := s |} g = Some (f c' g) /\
                rest c' = trimStart s /\ pos c' = (p + run)%nat) /\
  ((run < lo)%nat ->
     iterate (m space) (fun c g => Some (f c g)) true fuel lo None
       {| pos := p; before := b; rest := s |} g = None).
Proof.
  assert (Hstep : forall (k : cursor -> captures -> option R) c g,
            m space k c g =
            match rest c with
            | String a s' =>
                if isWhiteSpace a
                then k {| pos := S (pos c); before := Some a; rest := s' |} g
                else None
            | EmptyString => None
            end) by reflexivity.
  generalize dependent (m (R:=R) space). intros step Hstep.
  induction s as [|a s IH]; intros p b g lo fuel Hf;
    (destruct fuel as [|fuel]; [lia|]); cbn zeta.
  - cbn [iterate dec_bound]. rewrite Hstep.
    cbn [rest trimStart String.length]. split.
    + intros Hlo. assert (lo = 0%nat) by lia. subst lo. cbn.
      eexists. split; [reflexivity|]. cbn. split; [reflexivity|lia].
    + intros Hlo. destruct lo; [cbn in Hlo; lia|]. reflexivity.
  - cbn [iterate dec_bound]. rewrite Hstep.
    cbn [rest trimStart String.length pos].
    pose proof (trimStart_length s) as Hl.
    destruct (isWhiteSpace a) eqn:Ea.
    + replace ((lo =? 0)%nat && (S p =? p)%nat) with false
        by (replace (S p =? p)%nat with false
              by (symmetry; apply Nat.eqb_neq; lia);
            now rewrite andb_false_r).
      cbn [String.length] in Hf.
      destruct (IH (S p) (Some a) g (Nat.pred lo) fuel ltac:(lia)) as [Hin Hout].
      cbn zeta in Hin, Hout.
      split.
      * intros Hlo.
        destruct Hin as (c' & E & Hr & Hp); [lia|].
        exists c'. rewrite E.
        split; [|split; [exact Hr|lia]].
        destruct lo; reflexivity.
      * intros Hlo. rewrite Hout by lia.
        destruct lo; [lia|]. reflexivity.
    + cbn [String.length]. split.
      * intros Hlo. assert (lo = 0%nat) by lia. subst lo. cbn.
        eexists. split; [reflexivity|]. cbn. split; [reflexivity|lia].
      * intros Hlo. destruct lo; [lia|]. reflexivity.
Qed.

Lemma match_at_space_run a s p b :
  isWhiteSpace a = true ->
  exists c', match_at (many1 space) {| pos := p; before := b; rest := String a s |}
             = Some {| m_start := p; m_after := c'; m_groups := no_captures |} /\
             rest c' = trimStart s /\
             (p < pos c')%nat /\
             (pos c' + String.length (trimStart s) = p + S (String.length s))%nat.
Proof.
  intros Ea. unfold match_at, many1. cbn [m rest pos].
  destruct (iterate_space (fun c' g => {| m_start := p; m_after := c'; m_groups := g |})
              (String a s) p b no_captures 1
              (S (1 + String.length (String a s))) ltac:(lia)) as [Hin _].
  cbn zeta in Hin. pose proof (trimStart_length s) as Hl.
  assert (Et : trimStart (String a s) = trimStart s) by (simpl; now rewrite Ea).
  rewrite Et in Hin. cbn [String.length] in Hin.
  destruct Hin as (c' & E & Hr & Hp); [lia|].
  exists c'. split; [exact E|]. split; [exact Hr|]. lia.
Qed.

Lemma match_at_space_none s p b :
  trimStart s = s ->
  match_at (many1 space) {| pos := p; before := b; rest := s |} = None.
Proof.
  intros Et. unfold match_at, many1. cbn [m rest pos].
  destruct (iterate_space (fun c' g => {| m_start := p; m_after := c'; m_groups := g |})
              s p b no_captures 1 (S (1 + String.length s)) ltac:(lia)) as [_ Hout].
  cbn zeta in Hout. rewrite Et in Hout. apply Hout. lia.
Qed.

(** Replacing the matches of [\s+] by a space, searching from a position
    that follows a piece [mid] not yet copied to the result. *)
Lemma replace_space_from : forall n s, (String.length s <= n)%nat ->
  forall pre mid b fuel, (String.length s < fuel)%nat ->
  replace_matches (pre ++ mid ++ s) " " (String.length pre)
    (matches_from fuel (many1 space)
       {| pos := String.length pre + String.length mid; before := b; rest := s |})
  = mid ++ collapse_from false s.
Proof.
  induction n as [|n IH]; intros s Hn pre mid b fuel Hf;
    (destruct fuel as [|fuel]; [lia|]).
  - destruct s; [|simpl in Hn; lia].
    cbn [matches_from search_from search pos before rest].
    rewrite match_at_space_none by reflexivity.
    cbn [replace_matches collapse_from].
    rewrite !append_length. cbn [String.length].
    replace (String.length pre + (String.length mid + 0) - String.length pre)%nat
      with (String.length mid) by lia.
    rewrite substring_middle. symmetry. apply append_empty_r.
  - destruct s as [|a s].
    + cbn [matches_from search_from search pos before rest].
      rewrite match_at_space_none by reflexivity.
      cbn [replace_matches collapse_from].
      rewrite !append_length. cbn [String.length].
      replace (String.length pre + (String.length mid + 0) - String.length pre)%nat
        with (String.length mid) by lia.
      rewrite substring_middle. symmetry. apply append_empty_r.
    + cbn [String.length] in Hn, Hf.
      destruct (isWhiteSpace a) eqn:Ea.
      * cbn [matches_from search_from search pos before rest].
        destruct (match_at_space_run a s (String.length pre + String.length mid) b Ea)
          as (c' & E & Hr & Hlt & Hp).
        rewrite E. unfold resume, m_end. cbn [m_after m_start].
        replace (pos c' =? String.length pre + String.length mid)%nat with false
          by (symmetry; apply Nat.eqb_neq; lia).
        cbn [replace_matches m_start m_end m_after].
        replace (String.length pre <=? String.length pre + String.length mid)%nat
          with true by (symmetry; apply Nat.leb_le; lia).
        replace (String.length pre + String.length mid - String.length pre)%nat
          with (String.length mid) by lia.
        rewrite substring_middle.
        cbn [collapse_from]. rewrite Ea, collapse_after_run.
        f_equal. change (" " ++ ?x) with (String " " x). f_equal.
        destruct (trimStart_split s) as (run & Es).
        pose proof (trimStart_length s) as Hl.
        assert (Hrun : String.length (String a run) =
                       (pos c' - (String.length pre + String.length mid))%nat).
        { apply (f_equal String.length) in Es. rewrite append_length in Es.
          cbn [String.length]. lia. }
        destruct c' as [p' b' r']. cbn [rest pos] in *. subst r'.
        specialize (IH (trimStart s) ltac:(lia) (pre ++ mid ++ String a run) "" b' fuel
                      ltac:(lia)).
        cbn [append String.length] in IH.
        rewrite !append_length in IH. cbn [String.length] in IH.
        replace (String.length pre + (String.length mid + S (String.length run)) + 0)%nat
          with p' in IH by (cbn [String.length] in Hrun; lia).
        replace (String.length pre + (String.length mid + S (String.length run)))%nat
          with p' in IH by (cbn [String.length] in Hrun; lia).
        rewrite <- IH. f_equal.
        rewrite !append_assoc. cbn [append]. rewrite <- Es. reflexivity.
      * cbn [matches_from search_from search pos before rest].
        rewrite match_at_space_none by (simpl; now rewrite Ea).
        specialize (IH s ltac:(lia) pre (mid ++ String a "") (Some a) (S fuel) ltac:(lia)).
        rewrite append_length in IH. cbn [String.length] in IH.
        replace (String.length pre + (String.length mid + 1))%nat
          with (S (String.length pre + String.length mid)) in IH by lia.
        cbn [matches_from] in IH. unfold search_from in IH.
        cbn [pos before rest] in IH.
        rewrite !append_assoc in IH. cbn [append] in IH.
        rewrite IH. cbn [collapse_from]. rewrite Ea. reflexivity.
Qed.

(** [text.replace(/\s+/g, ' ')] turns every maximal run of white space into
    one space. *)
Lemma replace_all_space text :
  replace_all (many1 space) " " text = collapse_ws text.
Proof.
  unfold replace_all, matchAll, start_of, collapse_ws.
  exact (replace_space_from (String.length text) text (Nat.le_refl _)
           "" "" None (S (String.length text)) (Nat.lt_succ_diag_r _)).
Qed.


Lemma cleanText_single_spaced text : single_spaced (cleanText text) = true.
Proof.
  unfold single_spaced, cleanText, trim. rewrite replace_all_space. unfold collapse_ws.
  apply trimEnd_spaced. eapply trimStart_spaced. apply collapse_from_spaced.
Qed.

(** ** What [text.match] returns *)

Lemma matchAll_head r text :
  matchAll r text =
  match exec r text with
  | None => []
  | Some res => res :: match resume res with
                       | Some c' => matches_from (String.length text) r c'
                       | None => []
                       end
  end.
Proof. reflexivity. Qed.

Lemma js_match_global text p :
  global p = true ->
  js_match text p =
  match exec (ast p) text with
  | None => None
  | Some res =>
      Some (Some (matched text res)
              :: map (fun res => Some (matched text res))
                   match resume res with
                   | Some c' => matches_from (String.length text) (ast p) c'
                   | None => []
                   end)
  end.
Proof.
  intros Hg. unfold js_match. rewrite Hg, matchAll_head.
  destruct (exec (ast p) text); reflexivity.
Qed.

Lemma js_match_first text p :
  global p = false ->
  js_match text p =
  match exec (ast p) text with
  | None => None
  | Some res =>
      Some (Some (matched text res)
              :: map (group text res) (List.seq 1 (group_count (ast p))))
  end.
Proof. intros Hg. unfold js_match. now rewrite Hg. Qed.

Lemma exec_binds r n text res :
  binds r n -> exec r text = Some res -> m_groups res n <> None.
Proof. intros Hb H. eapply search_binds; eauto. Qed.

Lemma group_binds r n text res :
  binds r n -> exec r text = Some res ->
  exists captured, group text res n = Some captured.
Proof.
  intros Hb H. pose proof (exec_binds _ _ _ _ Hb H) as Hg. unfold group.
  destruct (m_groups res n) as [[i j]|]; [eauto | contradiction].
Qed.

(** ** extractDate *)

Lemma date_loop_literal clean p more :
  global p = true ->
  includes (toString p) "Date|DATE" = false ->
  date_loop clean (p :: more) =
  match literal_match p clean with
  | Some d => Normal (Some d)
  | None => date_loop clean more
  end.
Proof.
  intros Hg Hi. cbn [date_loop]. rewrite (js_match_global _ _ Hg). unfold literal_match.
  destruct (exec (ast p) clean) as [res|]; [|reflexivity].
  cbn [length option_map]. rewrite Hi. reflexivity.
Qed.

Lemma date_keyword_binds : binds (ast date_keyword) 1.
Proof. right; right; left; left; reflexivity. Qed.

Lemma date_loop_keyword clean :
  date_loop clean [date_keyword] = Normal (keyword_date clean).
Proof.
  cbn [date_loop]. rewrite js_match_first by reflexivity. unfold keyword_date.
  destruct (exec (ast date_keyword) clean) as [res|] eqn:E; [|reflexivity].
  destruct (group_binds _ _ _ _ date_keyword_binds E) as (captured & Hc).
  change (group_count (ast date_keyword)) with 1%nat.
  cbn [List.seq map length at_index nth_error Nat.ltb Nat.leb].
  replace (includes (toString date_keyword) "Date|DATE") with true by reflexivity.
  rewrite Hc.
  destruct (test (many1 digit) (trim captured) && test (one_of "/-.") (trim captured));
    reflexivity.
Qed.

Lemma extractDate_first_of text :
  extractDate text =
  Normal (first_of [literal_match date_numeric (cleanText text);
                    literal_match date_month (cleanText text);
                    literal_match date_iso (cleanText text);
                    keyword_date (cleanText text)]).
Proof.
  unfold extractDate, datePatterns.
  rewrite date_loop_literal by reflexivity.
  destruct (literal_match date_numeric _); [reflexivity|].
  rewrite date_loop_literal by reflexivity.
  destruct (literal_match date_month _); [reflexivity|].
  rewrite date_loop_literal by reflexivity.
  destruct (literal_match date_iso _); [reflexivity|].
  rewrite date_loop_keyword. cbn [first_of].
  destruct (keyword_date _); reflexivity.
Qed.

Lemma literal_match_occurs p clean d :
  literal_match p clean = Some d -> occurs_in d clean.
Proof.
  unfold literal_match. destruct (exec (ast p) clean) as [res|]; [|discriminate].
  intros [= <-]. apply substring_occurs.
Qed.

Lemma keyword_date_occurs clean d :
  keyword_date clean = Some d -> occurs_in d clean.
Proof.
  unfold keyword_date, group.
  destruct (exec (ast date_keyword) clean) as [res|]; [|discriminate].
  destruct (m_groups res 1) as [[i j]|]; [|discriminate].
  destruct (_ && _); [|discriminate].
  intros [= <-]. eapply occurs_in_trans; [apply trim_occurs | apply substring_occurs].
Qed.

Lemma extractDate_occurs text d :
  extractDate text = Normal (Some d) -> occurs_in d (cleanText text).
Proof.
  rewrite extractDate_first_of. cbn [first_of]. intros [= H].
  destruct (literal_match date_numeric _) eqn:E1;
    [injection H as <-; eapply literal_match_occurs; eauto|].
  destruct (literal_match date_month _) eqn:E2;
    [injection H as <-; eapply literal_match_occurs; eauto|].
  destruct (literal_match date_iso _) eqn:E3;
    [injection H as <-; eapply literal_match_occurs; eauto|].
  destruct (keyword_date _) eqn:E4; [|discriminate].
  injection H as <-. eapply keyword_date_occurs; eauto.
Qed.

(** ** Sorting *)

Section Sorting.
Context {A : Type} (ord : A -> A -> bool) (P : A -> Prop).
Hypothesis ord_total : forall x y, P x -> P y -> ord x y = false -> ord y x = true.
Hypothesis ord_trans :
  forall x y z, P x -> P y -> P z -> ord x y = true -> ord y z = true -> ord x z = true.

Lemma insert_sorted_In x y l : In y (insert_sorted ord x l) <-> y = x \/ In y l.
Proof.
  induction l as [|z l IH]; simpl.
  - intuition.
  - destruct (ord x z); simpl; [intuition | rewrite IH; intuition].
Qed.

Lemma js_sort_In y l : In y (js_sort ord l) <-> In y l.
Proof.
  induction l as [|x l IH]; simpl; [reflexivity|].
  rewrite insert_sorted_In, IH. intuition.
Qed.

Lemma js_sort_Forall l : Forall P l -> Forall P (js_sort ord l).
Proof.
  rewrite !List.Forall_forall. intros H y Hy. apply H. now apply js_sort_In.
Qed.

Lemma insert_sorted_ordered x l :
  P x -> Forall P l -> ordered ord l -> ordered ord (insert_sorted ord x l).
Proof.
  unfold ordered. intros Px Pl Hl. induction Hl as [|z l Hl IH Hz]; simpl.
  - constructor; [constructor | constructor].
  - apply List.Forall_cons_iff in Pl. destruct Pl as [Pz Pl].
    destruct (ord x z) eqn:E.
    + constructor; [constructor; assumption|].
      constructor; [exact E|].
      rewrite List.Forall_forall in *. intros y Hy.
      eapply (ord_trans x z y); auto.
    + constructor; [apply IH; assumption|].
      rewrite List.Forall_forall in *. intros y Hy.
      apply insert_sorted_In in Hy. destruct Hy as [->|Hy]; auto.
Qed.

Lemma js_sort_ordered l : Forall P l -> ordered ord (js_sort ord l).
Proof.
  induction l as [|x l IH]; intros Pl; simpl; [constructor|].
  fold (ordered ord (js_sort ord l)) in *.
  apply List.Forall_cons_iff in Pl. destruct Pl as [Px Pl].
  apply insert_sorted_ordered; auto. now apply js_sort_Forall.
Qed.

Lemma filter_ordered (keep : A -> bool) l : ordered ord l -> ordered ord (List.filter keep l).
Proof.
  unfold ordered. intros Hl. induction Hl as [|z l Hl IH Hz]; simpl; [constructor|].
  destruct (keep z); [|exact IH].
  constructor; [exact IH|].
  rewrite List.Forall_forall in *. intros y Hy. apply List.filter_In in Hy. apply Hz, Hy.
Qed.

(** The first element after a stable sort: the first of the original
    list that no other element beats. *)
Lemma js_sort_head l best others :
  Forall P l -> js_sort ord l = best :: others ->
  exists front back,
    l = (front ++ best :: back)%list /\
    (forall x, In x front -> ord x best = false) /\
    (forall x, In x back -> ord best x = true).
Proof.
  revert best others. induction l as [|x l IH]; intros best others Pl H; simpl in H;
    [discriminate|].
  apply List.Forall_cons_iff in Pl. destruct Pl as [Px Pl].
  destruct (js_sort ord l) as [|y ys] eqn:E.
  - simpl in H. injection H as <- <-.
    assert (l = []) as ->.
    { destruct l as [|z l]; [reflexivity|].
      assert (In z (js_sort ord (z :: l))) as Hz by (apply js_sort_In; left; reflexivity).
      rewrite E in Hz. destruct Hz. }
    exists [], []. repeat split; intros z [].
  - destruct (IH y ys Pl eq_refl) as (front & back & -> & Hf & Hb).
    assert (Py : P y).
    { rewrite List.Forall_forall in Pl. apply Pl. apply in_or_app. right. left. reflexivity. }
    simpl in H. destruct (ord x y) eqn:Exy; injection H as <- <-.
    + exists [], (front ++ y :: back)%list. repeat split; [intros z [] |].
      intros z Hz. rewrite List.Forall_forall in Pl. pose proof (Pl z Hz) as Pz.
      apply in_app_or in Hz. destruct Hz as [Hz|[<-|Hz]].
      * apply (ord_trans x y z); auto.
      * exact Exy.
      * apply (ord_trans x y z); auto.
    + exists (x :: front), back. repeat split; [| exact Hb].
      intros z [<-|Hz]; auto.
Qed.
End Sorting.

(** ** extractTotal *)

Lemma map_completion_normal {A B} (f : A -> completion B) (h : A -> B) l :
  (forall x, In x l -> f x = Normal (h x)) ->
  map_completion f l = Normal (map h l).
Proof.
  induction l as [|x l IH]; intros H; simpl; [reflexivity|].
  rewrite (H x) by (left; reflexivity). simpl.
  rewrite IH by (intros y Hy; apply H; right; exact Hy). reflexivity.
Qed.

Lemma currency_amount_binds : binds (ast currency_amount) 1.
Proof. right; right; left; reflexivity. Qed.

Lemma to_amount_normal clean res :
  In res (matchAll (ast currency_amount) clean) ->
  to_amount clean res = Normal (amount_of clean res).
Proof.
  intros H. apply (matches_from_binds _ _ currency_amount_binds) in H.
  unfold to_amount, amount_of, group.
  destruct (m_groups res 1) as [[i j]|]; [reflexivity | contradiction].
Qed.

Lemma extractTotal_first_of text :
  extractTotal text =
  Normal (first_of [labeled_total (cleanText text) total_phrase;
                    labeled_total (cleanText text) total_keyword;
                    labeled_total (cleanText text) total_trailing;
                    largest_plausible (cleanText text)]).
Proof.
  unfold extractTotal.
  change (length totalPatterns - 1)%nat with 3%nat.
  cbn [labeled_loop first_of].
  change (pattern_at totalPatterns 0) with total_phrase.
  change (pattern_at totalPatterns 1) with total_keyword.
  change (pattern_at totalPatterns 2) with total_trailing.
  change (pattern_at totalPatterns 3) with currency_amount.
  destruct (labeled_total _ total_phrase); [reflexivity|].
  destruct (labeled_total _ total_keyword); [reflexivity|].
  destruct (labeled_total _ total_trailing); [reflexivity|].
  rewrite (map_completion_normal _ (amount_of (cleanText text)))
    by (apply to_amount_normal).
  cbn [bind]. unfold largest_plausible. fold (currency_amounts (cleanText text)).
  destruct (List.filter _ (currency_amounts (cleanText text))) as [|a l]; [reflexivity|].
  cbn [length Nat.ltb Nat.leb].
  destruct (List.filter _ (js_sort _ _)); reflexivity.
Qed.

Lemma labeled_total_spec clean p v :
  global p = false ->
  labeled_total clean p = Some v ->
  exists res captured,
    exec (ast p) clean = Some res /\
    at_index (map (group clean res) (List.seq 1 (group_count (ast p)))) 0 = Some captured /\
    v = replace_first "," "." captured /\
    exists q, parseFloat v = Some q /\ (0 < q)%Q.
Proof.
  intros Hg. unfold labeled_total. rewrite (js_match_first _ _ Hg).
  destruct (exec (ast p) clean) as [res|]; [|discriminate].
  change (at_index (?x :: ?l) 1) with (at_index l 0).
  destruct (at_index _ 0) as [captured|] eqn:Ea; [|discriminate].
  destruct (0 <? String.length captured)%nat; [|discriminate].
  destruct (is_positive _) eqn:Ep; [|discriminate].
  intros [= <-]. exists res, captured.
  split; [reflexivity|]. split; [exact Ea|]. split; [reflexivity|].
  unfold is_positive in Ep. destruct (parseFloat _) as [q|]; [|discriminate].
  exists q. split; [reflexivity|].
  apply negb_true_iff in Ep. apply Qnot_le_lt. intros Hle.
  apply Qle_bool_iff in Hle. congruence.
Qed.

Lemma amount_not_after_total x y :
  has_amount x -> has_amount y ->
  amount_not_after x y = false -> amount_not_after y x = true.
Proof.
  intros (p & Hp) (q & Hq). unfold amount_not_after. rewrite Hp, Hq.
  intros H. apply Qle_bool_iff. apply Qlt_le_weak, Qnot_le_lt.
  intros Hle. apply Qle_bool_iff in Hle. congruence.
Qed.

Lemma amount_not_after_trans x y z :
  has_amount x -> has_amount y -> has_amount z ->
  amount_not_after x y = true -> amount_not_after y z = true ->
  amount_not_after x z = true.
Proof.
  intros (p & Hp) (q & Hq) (r & Hr). unfold amount_not_after. rewrite Hp, Hq, Hr.
  rewrite !Qle_bool_iff. intros H1 H2. eapply Qle_trans; eauto.
Qed.

Lemma amount_not_after_le x y :
  has_amount x -> has_amount y ->
  amount_not_after x y = true -> (amount_value y <= amount_value x)%Q.
Proof.
  intros (p & Hp) (q & Hq). unfold amount_not_after, amount_value.
  rewrite Hp, Hq. simpl. apply Qle_bool_iff.
Qed.

Lemma numeric_has_amount item :
  negb (isNaN (amount item)) && is_positive (amount item) = true -> has_amount item.
Proof.
  unfold has_amount. destruct (amount item) as [q|]; [eauto | discriminate].
Qed.

Lemma largest_plausible_spec clean :
  match List.filter plausible (currency_amounts clean) with
  | [] => largest_plausible clean = None
  | _ :: _ =>
      exists best,
        In best (List.filter plausible (currency_amounts clean)) /\
        largest_plausible clean = Some (value best) /\
        forall other, In other (List.filter plausible (currency_amounts clean)) ->
                      (amount_value other <= amount_value best)%Q
  end.
Proof.
  unfold largest_plausible.
  set (numeric := fun item => negb (isNaN (amount item)) && is_positive (amount item)).
  set (small := fun a => below 100000 (amount a)).
  set (sorted := js_sort amount_not_after (List.filter numeric (currency_amounts clean))).
  assert (Hnum : Forall has_amount (List.filter numeric (currency_amounts clean))).
  { apply List.Forall_forall. intros x Hx. apply List.filter_In in Hx.
    apply numeric_has_amount, Hx. }
  assert (Hin : forall x, In x (List.filter small sorted) <->
                          In x (List.filter plausible (currency_amounts clean))).
  { intros x. unfold sorted. rewrite !List.filter_In, js_sort_In, List.filter_In.
    unfold plausible, numeric, small. rewrite !andb_true_iff. tauto. }
  assert (Hord : ordered amount_not_after (List.filter small sorted)).
  { apply filter_ordered.
    apply (js_sort_ordered amount_not_after has_amount amount_not_after_total
             amount_not_after_trans _ Hnum). }
  assert (Hhas : forall x, In x (List.filter small sorted) -> has_amount x).
  { intros x Hx. apply List.filter_In in Hx. destruct Hx as [Hx _].
    apply js_sort_In in Hx. rewrite List.Forall_forall in Hnum. auto. }
  destruct (List.filter small sorted) as [|best rest] eqn:Es.
  - destruct (List.filter plausible (currency_amounts clean)) as [|x l]; [reflexivity|].
    destruct (proj2 (Hin x)); left; reflexivity.
  - destruct (List.filter plausible (currency_amounts clean)) as [|x l] eqn:Ec.
    + destruct (proj1 (Hin best)); left; reflexivity.
    + exists best. split; [apply Hin; left; reflexivity|]. split; [reflexivity|].
      intros other Ho. apply Hin in Ho.
      assert (Hb : has_amount best) by (apply Hhas; left; reflexivity).
      destruct Ho as [<-|Ho]; [apply Qle_refl|].
      apply amount_not_after_le; [exact Hb | apply Hhas; right; exact Ho |].
      unfold ordered in Hord. apply StronglySorted_inv in Hord.
      destruct Hord as [_ Hall]. rewrite List.Forall_forall in Hall. auto.
Qed.

Lemma currency_amounts_spec clean item :
  In item (currency_amounts clean) ->
  exists res captured,
    In res (matchAll (ast currency_amount) clean) /\
    group clean res 1 = Some captured /\
    value item = replace_first "," "." captured /\
    amount item = parseFloat (value item).
Proof.
  unfold currency_amounts. intros H. apply in_map_iff in H.
  destruct H as (res & <- & Hres). pose proof Hres as Hb.
  apply (matches_from_binds _ _ currency_amount_binds) in Hb.
  unfold amount_of, group.
  destruct (m_groups res 1) as [[i j]|] eqn:Eg; [|contradiction].
  exists res, (substring i (j - i) clean). rewrite Eg.
  split; [exact Hres|]. split; [reflexivity|]. split; reflexivity.
Qed.

(** C7, as amended.  When no labelled pattern gives a total, the amounts
    collected are the matches of a currency symbol followed by digits, a
    comma or period and one or two more digits; those that are not
    numbers, not positive, or 100000 and more are discarded; the largest of
    the rest is returned, and nothing when none is left.  "$250000.00"
    beside "$42.00" gives "42.00". *)
Theorem extractTotal_fallback_largest (text : string) :
  labeled_total (cleanText text) total_phrase = None ->
  labeled_total (cleanText text) total_keyword = None ->
  labeled_total (cleanText text) total_trailing = None ->
  match List.filter plausible (currency_amounts (cleanText text)) with
  | [] => extractTotal text = Normal None
  | _ :: _ =>
      exists best res captured,
        In best (List.filter plausible (currency_amounts (cleanText text))) /\
        extractTotal text = Normal (Some (value best)) /\
        (forall other,
           In other (List.filter plausible (currency_amounts (cleanText text))) ->
           (amount_value other <= amount_value best)%Q) /\
        In res (matchAll (ast currency_amount) (cleanText text)) /\
        group (cleanText text) res 1 = Some captured /\
        value best = replace_first "," "." captured
  end.
Proof.
  intros H1 H2 H3. rewrite extractTotal_first_of, H1, H2, H3. cbn [first_of].
  pose proof (largest_plausible_spec (cleanText text)) as H.
  destruct (List.filter plausible (currency_amounts (cleanText text))) as [|x l] eqn:E.
  - now rewrite H.
  - destruct H as (best & Hin & Hl & Hmax).
    assert (Hc : In best (currency_amounts (cleanText text))).
    { rewrite <- E in Hin. apply List.filter_In in Hin. apply Hin. }
    destruct (currency_amounts_spec _ _ Hc) as (res & captured & Hres & Hg & Hv & _).
    exists best, res, captured. rewrite Hl. repeat split; auto.
Qed.

(** The text "$250000.00 $42.00" has no labelled total and its fallback
    total is "42.00". *)
Lemma extractTotal_fallback_largest_witness :
  extractTotal "$250000.00 $42.00" = Normal (Some "42.00").
Proof.
  pose proof (extractTotal_fallback_largest "$250000.00 $42.00"
                eq_refl eq_refl eq_refl) as H.
  vm_compute in H. destruct H as (best & res & captured & [Hb|[]] & He & _).
  rewrite <- Hb in He. exact He.
Defined.

(** C7, as worded, fails: in "$42 $5.00" no label matches, "$42" is a
    currency-symbol-prefixed number that is positive and below 100000, and
    the total returned is the smaller "5.00". *)
Lemma fallback_ignores_amounts_without_fraction :
  labeled_total (cleanText "$42 $5.00") total_phrase = None /\
  labeled_total (cleanText "$42 $5.00") total_keyword = None /\
  labeled_total (cleanText "$42 $5.00") total_trailing = None /\
  extractTotal "$42 $5.00" = Normal (Some "5.00") /\
  exists item,
    In item (numbers_as_worded (cleanText "$42 $5.00")) /\
    value item = "42" /\
    plausible item = true /\
    ~ (amount_value item <= 5)%Q.
Proof.
  repeat (split; [vm_compute; reflexivity|]).
  exists (mkAmount "42" (Some (42 # 1)) 0).
  split; [vm_compute; left; reflexivity|].
  split; [reflexivity|]. split; [reflexivity|].
  vm_compute. intros H. apply H. reflexivity.
Qed.

(** C10.  The keyword patterns have no word boundary: in "Subtotal: $10.00"
    the phrase pattern does not match, the keyword pattern matches from the
    "total" inside "Subtotal" (index 3) and gives the total "10.00"; with a
    word boundary before the keyword the text would not match. *)
Theorem total_keyword_matches_inside_word :
  extractTotal "Subtotal: $10.00" = Normal (Some "10.00") /\
  labeled_total "Subtotal: $10.00" total_phrase = None /\
  labeled_total "Subtotal: $10.00" total_keyword = Some "10.00" /\
  option_map m_start (exec (ast total_keyword) "Subtotal: $10.00") = Some 3%nat /\
  literal_match total_keyword "Subtotal: $10.00" = Some "total: $10.00" /\
  exec (Seq WordB (ast total_keyword)) "Subtotal: $10.00" = None.
Proof. repeat split; vm_compute; reflexivity. Qed.

(** ** extractMerchant *)

Lemma merchant_line_loop_Some p lines name :
  merchant_line_loop p lines = Some name <->
  exists front line back,
    lines = (front ++ line :: back)%list /\
    (forall l, In l front -> labeled_merchant p l = None) /\
    labeled_merchant p line = Some name.
Proof.
  induction lines as [|l lines IH]; simpl.
  - split; [discriminate|]. intros (front & line & back & H & _).
    destruct front; discriminate.
  - destruct (labeled_merchant p l) as [n|] eqn:E.
    + split.
      * intros [= <-]. exists [], l, lines. repeat split; [intros x [] | exact E].
      * intros (front & line & back & H & Hf & Hl).
        destruct front as [|x front]; simpl in H; injection H as H1 H2; subst.
        -- congruence.
        -- rewrite (Hf x) in E by (left; reflexivity). discriminate.
    + rewrite IH. split.
      * intros (front & line & back & -> & Hf & Hl).
        exists (l :: front), line, back. repeat split; [|exact Hl].
        intros x [<-|Hx]; auto.
      * intros (front & line & back & H & Hf & Hl).
        destruct front as [|x front]; simpl in H; injection H as H1 H2; subst.
        -- congruence.
        -- exists front, line, back. repeat split; [|exact Hl].
           intros y Hy. apply Hf. right. exact Hy.
Qed.

Lemma merchant_line_loop_None p lines :
  merchant_line_loop p lines = None <->
  forall l, In l lines -> labeled_merchant p l = None.
Proof.
  induction lines as [|l lines IH]; simpl.
  - split; [intros _ x [] | reflexivity].
  - destruct (labeled_merchant p l) eqn:E.
    + split; [discriminate|]. intros H. rewrite (H l) in E by (left; reflexivity).
      discriminate.
    + rewrite IH. split.
      * intros H x [<-|Hx]; auto.
      * intros H x Hx. apply H. right. exact Hx.
Qed.

Lemma labeled_merchant_spec p line name :
  In p merchantPatterns ->
  labeled_merchant p line = Some name ->
  exists res captured,
    exec (ast p) line = Some res /\
    group line res 1 = Some captured /\
    (2 < String.length captured)%nat /\
    name = trim captured.
Proof.
  intros Hp. assert (Hg : global p = false /\ group_count (ast p) = 1%nat).
  { destruct Hp as [<-|[<-|[]]]; split; reflexivity. }
  destruct Hg as [Hg Hn]. unfold labeled_merchant. rewrite (js_match_first _ _ Hg), Hn.
  destruct (exec (ast p) line) as [res|]; [|discriminate].
  cbn [List.seq map at_index nth_error].
  destruct (group line res 1) as [captured|] eqn:Eg; [|discriminate].
  destruct (0 <? String.length captured)%nat; [|discriminate]. cbn [andb].
  destruct (2 <? String.length captured)%nat eqn:E; [|discriminate].
  intros [= <-]. exists res, captured. apply Nat.ltb_lt in E.
  split; [reflexivity|]. split; [exact Eg|]. split; [exact E | reflexivity].
Qed.

Lemma extractMerchant_labeled text :
  extractMerchant text =
  match merchant_line_loop merchant_label (merchant_lines text) with
  | Some name => Some name
  | None =>
      match merchant_line_loop merchant_phrase (merchant_lines text) with
      | Some name => Some name
      | None =>
          match js_sort score_not_after
                  (map (fun line => {| line := line; score := score_of line |})
                     (header_candidates text)) with
          | best :: _ => Some (line best)
          | [] => None
          end
      end
  end.
Proof.
  unfold extractMerchant, merchantPatterns, header_candidates.
  cbn [merchant_pattern_loop].
  destruct (merchant_line_loop merchant_label _); [reflexivity|].
  destruct (merchant_line_loop merchant_phrase _); [reflexivity|].
  rewrite <- firstn_firstn, firstn_all. reflexivity.
Qed.

(** C8, as amended.  The labelled phase tries the single-word labels on
    every kept line, in line order, before it tries the phrase labels on
    any line; within one of the two patterns the first line that carries a
    label followed by a fragment of more than two characters gives the
    trimmed fragment.  So "Sold by: Riverside Cafe" gives "Riverside Cafe"
    when no line has a single-word label and no earlier line a phrase. *)
Theorem extractMerchant_labels_pattern_major (text : string) :
  (forall name,
     merchant_line_loop merchant_label (merchant_lines text) = Some name ->
     extractMerchant text = Some name) /\
  (forall name,
     merchant_line_loop merchant_label (merchant_lines text) = None ->
     merchant_line_loop merchant_phrase (merchant_lines text) = Some name ->
     extractMerchant text = Some name) /\
  (forall p name,
     merchant_line_loop p (merchant_lines text) = Some name <->
     exists front line back,
       merchant_lines text = (front ++ line :: back)%list /\
       (forall l, In l front -> labeled_merchant p l = None) /\
       labeled_merchant p line = Some name) /\
  (forall p line name,
     In p merchantPatterns -> labeled_merchant p line = Some name ->
     exists res captured,
       exec (ast p) line = Some res /\ group line res 1 = Some captured /\
       (2 < String.length captured)%nat /\ name = trim captured) /\
  (forall front back,
     merchant_lines text = (front ++ "Sold by: Riverside Cafe" :: back)%list ->
     (forall l, In l (merchant_lines text) -> labeled_merchant merchant_label l = None) ->
     (forall l, In l front -> labeled_merchant merchant_phrase l = None) ->
     extractMerchant text = Some "Riverside Cafe").
Proof.
  split; [|split; [|split; [|split]]].
  - intros name H. now rewrite extractMerchant_labeled, H.
  - intros name H1 H2. now rewrite extractMerchant_labeled, H1, H2.
  - intros p name. apply merchant_line_loop_Some.
  - intros p line name. apply labeled_merchant_spec.
  - intros front back Hl Hlabel Hfront.
    rewrite extractMerchant_labeled.
    rewrite (proj2 (merchant_line_loop_None _ _) Hlabel).
    assert (H : merchant_line_loop merchant_phrase (merchant_lines text)
                = Some "Riverside Cafe").
    { apply merchant_line_loop_Some.
      exists front, "Sold by: Riverside Cafe", back. repeat split; auto. }
    now rewrite H.
Qed.

(** A text whose second line is "Sold by: Riverside Cafe". *)
Lemma extractMerchant_labels_pattern_major_witness :
  extractMerchant (unlines ["Thank you"; "Sold by: Riverside Cafe"; "Visit again"])
  = Some "Riverside Cafe".
Proof.
  apply (proj2 (proj2 (proj2 (proj2
           (extractMerchant_labels_pattern_major
              (unlines ["Thank you"; "Sold by: Riverside Cafe"; "Visit again"])))))
           ["Thank you"] ["Visit again"]).
  - vm_compute. reflexivity.
  - intros l Hl. vm_compute in Hl.
    destruct Hl as [<-|[<-|[<-|[]]]]; vm_compute; reflexivity.
  - intros l [<-|[]]. vm_compute. reflexivity.
Defined.

(** C8, as worded, fails: with "Sold by: Riverside Cafe" on the first line
    and "Store: Walmart" on the second, the first matching line across all
    labels is the first, yet the merchant is "Walmart". *)
Lemma labeled_merchant_not_in_line_order :
  In "Sold by: Riverside Cafe"
     (merchant_lines (unlines ["Sold by: Riverside Cafe"; "Store: Walmart"])) /\
  labeled_by_line_order
    (merchant_lines (unlines ["Sold by: Riverside Cafe"; "Store: Walmart"]))
  = Some "Riverside Cafe" /\
  extractMerchant (unlines ["Sold by: Riverside Cafe"; "Store: Walmart"])
  = Some "Walmart".
Proof.
  split; [vm_compute; left; reflexivity|].
  split; vm_compute; reflexivity.
Qed.

Lemma score_not_after_total (x y : scored_line) :
  True -> True -> score_not_after x y = false -> score_not_after y x = true.
Proof. unfold score_not_after. intros _ _ H. apply Z.leb_gt in H. apply Z.leb_le. lia. Qed.

Lemma score_not_after_trans (x y z : scored_line) :
  True -> True -> True ->
  score_not_after x y = true -> score_not_after y z = true ->
  score_not_after x z = true.
Proof. unfold score_not_after. rewrite !Z.leb_le. lia. Qed.








Lemma header_scan_best (candidates : list string) :
  match js_sort score_not_after
          (map (fun line => {| line := line; score := score_of line |}) candidates) with
  | [] => candidates = []
  | best :: _ =>
      exists front back,
        candidates = (front ++ line best :: back)%list /\
        (forall l, In l front -> (score_of l < score_of (line best))%Z) /\
        (forall l, In l back -> (score_of l <= score_of (line best))%Z)
  end.
Proof.
  set (mk := fun line => {| line := line; score := score_of line |}).
  destruct (js_sort score_not_after (map mk candidates)) as [|best others] eqn:E.
  - destruct candidates as [|c cs]; [reflexivity|].
    assert (In (mk c) (js_sort score_not_after (map mk (c :: cs)))) as H
      by (apply js_sort_In; left; reflexivity).
    rewrite E in H. destruct H.
  - destruct (js_sort_head score_not_after (fun _ => True) score_not_after_total
                score_not_after_trans (map mk candidates) best others) as
      (front & back & Hl & Hf & Hb); [apply List.Forall_forall; auto | exact E |].
    apply map_eq_app in Hl. destruct Hl as (front' & rest' & -> & <- & Hr).
    apply map_eq_cons in Hr. destruct Hr as (b & back' & -> & <- & <-).
    exists front', back'. split; [reflexivity|]. split.
    + intros l Hl. specialize (Hf (mk l) (in_map mk _ _ Hl)).
      unfold score_not_after in Hf. apply Z.leb_gt in Hf. simpl in Hf. simpl. lia.
    + intros l Hl. specialize (Hb (mk l) (in_map mk _ _ Hl)).
      unfold score_not_after in Hb. apply Z.leb_le in Hb. simpl in Hb. simpl. lia.
Qed.

(** ** The record built in processImage *)

Lemma extractDate_normal text : exists d, extractDate text = Normal d.
Proof. rewrite extractDate_first_of. eauto. Qed.

Lemma extractTotal_normal text : exists t, extractTotal text = Normal t.
Proof. rewrite extractTotal_first_of. eauto. Qed.

(** C1.  For every text, the empty one included, the extraction returns a
    record and throws nothing; its [fullText] is the text as given; each of
    [date], [total] and [merchant] is what its own extractor finds, so any
    one of them can be absent beside the two others, and all three can be
    absent. *)
Theorem extractFields_never_fails :
  (forall text,
     exists bill,
       extractFields text = Normal bill /\
       fullText bill = text /\
       extractDate text = Normal (date bill) /\
       extractTotal text = Normal (total bill) /\
       extractMerchant text = merchant bill) /\
  extractFields EmptyString
  = Normal {| fullText := EmptyString; date := None; total := None; merchant := None |} /\
  extractFields (unlines ["ACME HARDWARE"; "Total: $5.00"])
  = Normal {| fullText := unlines ["ACME HARDWARE"; "Total: $5.00"];
              date := None; total := Some "5.00"; merchant := Some "ACME HARDWARE" |} /\
  extractFields (unlines ["ACME HARDWARE"; "03/14/2024"])
  = Normal {| fullText := unlines ["ACME HARDWARE"; "03/14/2024"];
              date := Some "03/14/2024"; total := None;
              merchant := Some "ACME HARDWARE" |} /\
  extractFields "03/14/2024 $5.00"
  = Normal {| fullText := "03/14/2024 $5.00";
              date := Some "03/14/2024"; total := Some "5.00"; merchant := None |}.
Proof.
  split.
  - intros text.
    destruct (extractDate_normal text) as (d & Hd).
    destruct (extractTotal_normal text) as (t & Ht).
    exists {| fullText := text; date := d; total := t; merchant := extractMerchant text |}.
    unfold extractFields. rewrite Hd, Ht. repeat split.
  - repeat split; vm_compute; reflexivity.
Qed.

(** ** Doubles are ordered *)

Lemma ltb_compare x y :
  (x <? y)%float = match compare_floats x y with Some Lt => true | _ => false end.
Proof. rewrite ltb_spec. reflexivity. Qed.

Lemma leb_compare x y :
  (x <=? y)%float =
  match compare_floats x y with Some (Lt | Eq) => true | _ => false end.
Proof. rewrite leb_spec. reflexivity. Qed.

Lemma pos_compare_cont_opp m1 m2 :
  Pos.compare_cont Eq m2 m1 = CompOpp (Pos.compare_cont Eq m1 m2).
Proof. apply Pos.compare_antisym. Qed.

Lemma SFcompare_opp x y c :
  SFcompare x y = Some c -> SFcompare y x = Some (CompOpp c).
Proof.
  destruct x as [[]|[]| |[] m1 e1], y as [[]|[]| |[] m2 e2]; simpl;
    intros [= <-]; try reflexivity;
    rewrite (Z.compare_antisym e1 e2), (pos_compare_cont_opp m1 m2);
    destruct (e1 ?= e2)%Z; simpl; rewrite ?CompOpp_involutive; reflexivity.
Qed.

Lemma SFcompare_refl x : SFcompare x x = Some Eq \/ x = S754_nan.
Proof.
  destruct x as [[]|[]| |[] m e]; simpl; auto; left;
    rewrite Z.compare_refl; fold (Pos.compare m m); now rewrite Pos.compare_refl.
Qed.

Ltac order_cases :=
  repeat match goal with
    | |- context [(?a ?= ?b)%Z] => destruct (Z.compare_spec a b)
    | H : context [(?a ?= ?b)%Z] |- _ => destruct (Z.compare_spec a b)
    | |- context [Pos.compare_cont Eq ?a ?b] =>
        change (Pos.compare_cont Eq a b) with (Pos.compare a b);
        destruct (Pos.compare_spec a b)
    | H : context [Pos.compare_cont Eq ?a ?b] |- _ =>
        change (Pos.compare_cont Eq a b) with (Pos.compare a b) in H;
        destruct (Pos.compare_spec a b)
    end;
  simpl in *; subst; try discriminate; try reflexivity; try lia.

Lemma SFcompare_lt_trans x y z :
  SFcompare x y = Some Lt -> SFcompare y z = Some Lt -> SFcompare x z = Some Lt.
Proof.
  destruct x as [[]|[]| |[] m1 e1], y as [[]|[]| |[] m2 e2], z as [[]|[]| |[] m3 e3];
    simpl; try discriminate; try reflexivity; intros H1 H2;
    apply (f_equal unwrap) in H1, H2; simpl in H1, H2; f_equal; order_cases.
Qed.

Lemma SFcompare_eq_trans x y z c :
  SFcompare x y = Some Eq -> SFcompare y z = Some c -> SFcompare x z = Some c.
Proof.
  destruct x as [[]|[]| |[] m1 e1], y as [[]|[]| |[] m2 e2], z as [[]|[]| |[] m3 e3];
    simpl; try discriminate; try (intros _ H; exact H); intros H1 H2;
    apply (f_equal unwrap) in H1, H2; simpl in H1, H2; f_equal; subst c; order_cases.
Qed.

Lemma SFcompare_total x y :
  SFcompare x x = Some Eq -> SFcompare y y = Some Eq ->
  exists c, SFcompare x y = Some c.
Proof.
  destruct x as [[]|[]| |[] m1 e1], y as [[]|[]| |[] m2 e2]; simpl;
    try discriminate; eauto.
Qed.

Lemma SFcompare_proper x y c :
  SFcompare x y = Some c -> SFcompare x x = Some Eq /\ SFcompare y y = Some Eq.
Proof.
  intros H. destruct (SFcompare_refl x) as [Hx| ->], (SFcompare_refl y) as [Hy| ->];
    auto; try discriminate H.
  destruct x as [[]|[]| |[] m1 e1]; discriminate H.
Qed.

Section FloatOrder.
Local Open Scope float_scope.
Implicit Types x y z : float.

Lemma compare_floats_opp x y c :
  compare_floats x y = Some c -> compare_floats y x = Some (CompOpp c).
Proof. apply SFcompare_opp. Qed.

Lemma ltb_irrefl x : (x <? x) = false.
Proof.
  rewrite ltb_compare. unfold compare_floats.
  destruct (SFcompare_refl (Prim2SF x)) as [-> | ->]; reflexivity.
Qed.

Lemma ltb_trans x y z : (x <? y) = true -> (y <? z) = true -> (x <? z) = true.
Proof.
  rewrite !ltb_compare. unfold compare_floats.
  destruct (SFcompare (Prim2SF x) (Prim2SF y)) as [[]|] eqn:E1; try discriminate.
  destruct (SFcompare (Prim2SF y) (Prim2SF z)) as [[]|] eqn:E2; try discriminate.
  now rewrite (SFcompare_lt_trans _ _ _ E1 E2).
Qed.

Lemma leb_proper x y : (x <=? y) = true -> proper x /\ proper y.
Proof.
  rewrite leb_compare. unfold compare_floats, proper.
  destruct (SFcompare (Prim2SF x) (Prim2SF y)) as [c|] eqn:E; [|discriminate].
  intros _. eapply SFcompare_proper; eauto.
Qed.

Lemma leb_refl x : proper x -> (x <=? x) = true.
Proof. unfold proper. intros H. now rewrite leb_compare, H. Qed.

Lemma ltb_leb x y : (x <? y) = true -> (x <=? y) = true.
Proof.
  rewrite ltb_compare, leb_compare.
  destruct (compare_floats x y) as [[]|]; auto.
Qed.

Lemma not_ltb_leb x y :
  proper x -> proper y -> (x <? y) = false -> (y <=? x) = true.
Proof.
  unfold proper. intros Hx Hy. rewrite ltb_compare, leb_compare.
  destruct (SFcompare_total _ _ Hx Hy) as (c & Hc).
  unfold compare_floats in *. rewrite Hc, (SFcompare_opp _ _ _ Hc).
  destruct c; simpl; auto.
Qed.

Lemma leb_not_ltb x y : (x <=? y) = true -> (y <? x) = false.
Proof.
  rewrite ltb_compare, leb_compare.
  destruct (compare_floats x y) as [c|] eqn:E; [|discriminate].
  rewrite (compare_floats_opp _ _ _ E). destruct c; simpl; auto; discriminate.
Qed.

Lemma leb_ltb_trans x y z : (x <=? y) = true -> (y <? z) = true -> (x <? z) = true.
Proof.
  rewrite leb_compare, !ltb_compare. unfold compare_floats.
  destruct (SFcompare (Prim2SF x) (Prim2SF y)) as [[]|] eqn:E1; try discriminate;
  destruct (SFcompare (Prim2SF y) (Prim2SF z)) as [[]|] eqn:E2; try discriminate;
  intros _ _.
  - now rewrite (SFcompare_eq_trans _ _ _ _ E1 E2).
  - now rewrite (SFcompare_lt_trans _ _ _ E1 E2).
Qed.

Lemma ltb_leb_trans x y z : (x <? y) = true -> (y <=? z) = true -> (x <? z) = true.
Proof.
  intros H1 H2. destruct (x <? z) eqn:E; [reflexivity|].
  destruct (leb_proper _ _ H2) as [Py Pz].
  destruct (leb_proper _ _ (ltb_leb _ _ H1)) as [Px _].
  pose proof (not_ltb_leb _ _ Px Pz E) as Hzx.
  pose proof (leb_ltb_trans _ _ _ Hzx H1) as Hzy.
  rewrite (leb_not_ltb _ _ H2) in Hzy. discriminate.
Qed.

Lemma leb_trans x y z : (x <=? y) = true -> (y <=? z) = true -> (x <=? z) = true.
Proof.
  intros H1 H2. destruct (leb_proper _ _ H1) as [Px Py].
  destruct (leb_proper _ _ H2) as [_ Pz].
  apply not_ltb_leb; auto. destruct (z <? x) eqn:E; [|reflexivity].
  pose proof (ltb_leb_trans _ _ _ E H1) as Hzy.
  rewrite (leb_not_ltb _ _ H2) in Hzy. discriminate.
Qed.
End FloatOrder.

(** ** The passes over the pixel array *)

Lemma get_ge (a : list Z) p : (length a <= p)%nat -> get a p = 0%Z.
Proof. intros H. unfold get. now rewrite lookup_ge_None_2. Qed.

Lemma get_insert (a : list Z) i v p :
  get (<[i:=v]> a) p = if decide (i = p /\ (i < length a)%nat) then v else get a p.
Proof. unfold get. rewrite list_lookup_insert. case_decide; reflexivity. Qed.

Lemma length_set_rgb i v a : length (set_rgb i v a) = length a.
Proof. unfold set_rgb. now rewrite !length_insert. Qed.

Lemma get_set_rgb i v a p :
  get (set_rgb i v a) p =
  if decide ((i <= p < i + 3)%nat /\ (p < length a)%nat) then v else get a p.
Proof.
  unfold set_rgb. rewrite !get_insert, !length_insert.
  repeat case_decide; try reflexivity; lia.
Qed.

Lemma list_eq_get (a b : list Z) :
  length a = length b -> (forall p, (p < length a)%nat -> get a p = get b p) -> a = b.
Proof.
  intros Hl H. apply list_eq. intros p.
  destruct (Nat.lt_ge_cases p (length a)) as [Hp|Hp].
  - specialize (H p Hp). unfold get in H.
    destruct (lookup_lt_is_Some_2 a p Hp) as [x Hx].
    destruct (lookup_lt_is_Some_2 b p ltac:(lia)) as [y Hy].
    rewrite Hx, Hy in *. simpl in H. congruence.
  - rewrite !lookup_ge_None_2 by lia. reflexivity.
Qed.

Lemma block_of p n :
  (4 * n <= p < 4 * n + 4)%nat -> (p / 4 = n /\ p mod 4 = p - 4 * n)%nat.
Proof.
  intros H. split; symmetry.
  - apply Nat.div_unique with (p - 4 * n)%nat; lia.
  - apply Nat.mod_unique with n; lia.
Qed.

Lemma block_bounds p : (4 * (p / 4) <= p < 4 * (p / 4) + 4)%nat /\ (p mod 4 = p - 4 * (p / 4))%nat.
Proof.
  pose proof (Nat.div_mod_eq p 4) as Hd.
  pose proof (Nat.mod_upper_bound p 4 ltac:(lia)) as Hu. lia.
Qed.

Section Pass.
Variable f : list Z -> nat -> Z.
Variable step : list Z -> nat -> list Z.
Hypothesis step_eq : forall a i, step a i = set_rgb i (f a i) a.
Hypothesis f_local :
  forall a a' i, (forall j, (i <= j < i + 3)%nat -> get a j = get a' j) ->
                 f a i = f a' i.

Lemma pass_prefix n a :
  length (foldl step a (map (fun k => 4 * k)%nat (List.seq 0 n))) = length a /\
  forall p,
    get (foldl step a (map (fun k => 4 * k)%nat (List.seq 0 n))) p =
    if decide ((p < 4 * n)%nat /\ (p mod 4 <> 3)%nat /\ (p < length a)%nat)
    then f a (4 * (p / 4))%nat else get a p.
Proof.
  induction n as [|n [IHl IHg]].
  - split; [reflexivity|]. intros p. cbn [List.seq map foldl]. case_decide; [lia | reflexivity].
  - rewrite seq_S, map_app, foldl_app. change (0 + n)%nat with n. cbn [map foldl].
    set (r := foldl step a (map (fun k => 4 * k)%nat (List.seq 0 n))) in *.
    rewrite step_eq.
    assert (Hf : f r (4 * n)%nat = f a (4 * n)%nat).
    { apply f_local. intros j Hj. rewrite IHg. case_decide; [lia | reflexivity]. }
    split; [now rewrite length_set_rgb|].
    intros p. rewrite get_set_rgb, Hf, IHl, IHg.
    destruct (decide ((4 * n <= p < 4 * n + 3)%nat /\ (p < length a)%nat)) as [H|H].
    + destruct (block_of p n ltac:(lia)) as [Hq Hm]. rewrite Hq.
      case_decide as H'; [reflexivity|].
      exfalso. apply H'. repeat split; lia.
    + case_decide as H1; case_decide as H2; try reflexivity; exfalso.
      * apply H2. lia.
      * apply H1. destruct H2 as (H2 & H3 & H4). repeat split; try lia.
        destruct (Nat.lt_ge_cases p (4 * n)) as [?|Hge]; [assumption|]. exfalso.
        destruct (block_of p n ltac:(lia)) as [Hq Hm]. lia.
Qed.

Lemma pass_length a :
  length (foldl step a (pixel_offsets (length a))) = length a.
Proof. apply pass_prefix. Qed.

Lemma pass_get a p :
  get (foldl step a (pixel_offsets (length a))) p =
  if decide ((p mod 4 <> 3)%nat /\ (p < length a)%nat)
  then f a (4 * (p / 4))%nat else get a p.
Proof.
  unfold pixel_offsets. rewrite (proj2 (pass_prefix _ a)).
  case_decide as H1; case_decide as H2; try reflexivity; exfalso.
  - apply H2. tauto.
  - apply H1. destruct H2 as [H2 H3]. repeat split; try assumption.
    pose proof (block_bounds (length a + 3)). lia.
Qed.
End Pass.

(** [toUint8Clamp] gives a byte. *)
Lemma floor_from_range k x : (0 <= floor_from k x <= Z.of_nat k)%Z.
Proof.
  induction k as [|k IH]; cbn [floor_from]; [lia|].
  destruct (of_int (Z.of_nat (S k)) <=? x)%float; lia.
Qed.

Lemma toUint8Clamp_range x : (0 <= toUint8Clamp x <= 255)%Z.
Proof.
  unfold toUint8Clamp. pose proof (floor_from_range 254 x) as H.
  destruct (0 <? x)%float; [|lia].
  destruct (255 <=? x)%float; [lia|].
  destruct (of_int (floor_from 254 x) + 0.5 <? x)%float; [lia|].
  destruct (x <? of_int (floor_from 254 x) + 0.5)%float; [lia|].
  destruct (Z.even (floor_from 254 x)); lia.
Qed.

Lemma gray_of_local a a' i :
  (forall j, (i <= j < i + 3)%nat -> get a j = get a' j) -> gray_of a i = gray_of a' i.
Proof. intros H. unfold gray_of. now rewrite !H by lia. Qed.

Lemma grayscale_pass_length a : length (grayscale_pass a) = length a.
Proof. apply (pass_length gray_of); [reflexivity | apply gray_of_local]. Qed.

Lemma grayscale_pass_get a p :
  get (grayscale_pass a) p =
  if decide ((p mod 4 <> 3)%nat /\ (p < length a)%nat)
  then gray_of a (4 * (p / 4))%nat else get a p.
Proof. apply (pass_get gray_of); [reflexivity | apply gray_of_local]. Qed.

Lemma cut_local th a a' i :
  (forall j, (i <= j < i + 3)%nat -> get a j = get a' j) -> cut th a i = cut th a' i.
Proof. intros H. unfold cut. now rewrite H by lia. Qed.

Lemma threshold_pass_length th a : length (threshold_pass th a) = length a.
Proof. apply (pass_length (cut th)); [reflexivity | apply cut_local]. Qed.

Lemma threshold_pass_get th a p :
  get (threshold_pass th a) p =
  if decide ((p mod 4 <> 3)%nat /\ (p < length a)%nat)
  then cut th a (4 * (p / 4))%nat else get a p.
Proof.
  apply (pass_get (cut th)); [reflexivity | apply cut_local].
Qed.

Lemma threshold_pass_binarized th a : binarized (threshold_pass th a).
Proof.
  intros p Hp Hm. rewrite threshold_pass_length in Hp. rewrite threshold_pass_get.
  case_decide as H; [|tauto].
  unfold cut. destruct (th <? _)%Z; auto.
Qed.

(** The median filter leaves a binarized array as it is. *)
Lemma median_step_binarized w temp y a x :
  binarized a -> median_step w temp y a x = a.
Proof.
  intros Hb. unfold median_step.
  set (idx := ((y * w + x) * 4)%nat).
  destruct (Nat.lt_ge_cases idx (length a)) as [Hi|Hi].
  - assert (Hm : (idx mod 4 <> 3)%nat).
    { unfold idx. rewrite Nat.Div0.mod_mul. lia. }
    destruct (Hb idx Hi Hm) as [-> | ->]; reflexivity.
  - now rewrite get_ge.
Qed.

Lemma median_pass_binarized w h a : binarized a -> median_pass w h a = a.
Proof.
  intros Hb. unfold median_pass. destruct (_ && _); [|reflexivity].
  assert (Hrow : forall y b, binarized b -> median_row w a b y = b).
  { intros y b Hbb. unfold median_row.
    induction (List.seq 1 (w - 2)) as [|x xs IH]; [reflexivity|].
    simpl. now rewrite median_step_binarized. }
  induction (List.seq 1 (h - 2)) as [|y ys IH]; [reflexivity|].
  simpl. now rewrite Hrow.
Qed.

(** ** The histogram *)

Lemma zsum_app l k : zsum (l ++ k)%list = (zsum l + zsum k)%Z.
Proof. unfold zsum. induction l as [|x l IH]; simpl; lia. Qed.

Lemma zsum_insert (l : list Z) k v :
  (k < length l)%nat -> zsum (<[k:=v]> l) = (zsum l - get l k + v)%Z.
Proof.
  revert k. induction l as [|x l IH]; intros k Hk; simpl in Hk; [lia|].
  destruct k as [|k]; unfold zsum, get in *; simpl.
  - lia.
  - specialize (IH k ltac:(lia)). simpl in IH. lia.
Qed.

Lemma map_get_seq (l : list Z) : map (get l) (List.seq 0 (length l)) = l.
Proof.
  induction l as [|x l IH]; [reflexivity|].
  cbn [length List.seq map]. rewrite <- seq_shift, map_map.
  f_equal. exact IH.
Qed.

Lemma histogram_fold a : forall offsets h0,
  length h0 = 256%nat ->
  (forall i, (0 <= get h0 i)%Z) ->
  (forall i, In i offsets -> (0 <= get a i < 256)%Z) ->
  length (foldl (histogram_step a) h0 offsets) = 256%nat /\
  (forall i, (0 <= get (foldl (histogram_step a) h0 offsets) i)%Z) /\
  zsum (foldl (histogram_step a) h0 offsets) = (zsum h0 + Z.of_nat (length offsets))%Z.
Proof.
  induction offsets as [|i offsets IH]; intros h0 Hl Hp Hr.
  - cbn [foldl length]. repeat split; auto. lia.
  - cbn [foldl]. specialize (Hr i (or_introl eq_refl)) as Hi.
    assert (Hlevel : (Z.to_nat (get a i) < length h0)%nat) by lia.
    destruct (IH (histogram_step a h0 i)) as (H1 & H2 & H3).
    + unfold histogram_step. now rewrite length_insert.
    + intros j. unfold histogram_step. rewrite get_insert.
      case_decide; [specialize (Hp (Z.to_nat (get a i))); lia | apply Hp].
    + intros j Hj. apply Hr. right. exact Hj.
    + repeat split; auto. rewrite H3. unfold histogram_step.
      rewrite zsum_insert by exact Hlevel. cbn [length]. lia.
Qed.

Lemma pixel_offsets_length n : length (pixel_offsets n) = ((n + 3) / 4)%nat.
Proof. unfold pixel_offsets. now rewrite length_map, length_seq. Qed.

Lemma grayscale_pass_level a i : (0 <= get (grayscale_pass a) (4 * i) < 256)%Z.
Proof.
  rewrite grayscale_pass_get. case_decide as H.
  - unfold gray_of. pose proof (toUint8Clamp_range
      (luminance (get a (4 * (4 * i / 4))) (get a (4 * (4 * i / 4) + 1))
         (get a (4 * (4 * i / 4) + 2)))). lia.
  - rewrite get_ge; [lia|].
    destruct (Nat.lt_ge_cases (4 * i) (length a)) as [Hlt|]; [|assumption].
    exfalso. apply H. split; [|exact Hlt].
    rewrite Nat.mul_comm, Nat.Div0.mod_mul. lia.
Qed.

Lemma zsum_replicate_0 n : zsum (replicate n 0%Z) = 0%Z.
Proof. unfold zsum. induction n; simpl; lia. Qed.

Lemma get_replicate_0 n i : get (replicate n 0%Z) i = 0%Z.
Proof.
  unfold get. destruct (replicate n 0%Z !! i) as [x|] eqn:E; [|reflexivity].
  apply lookup_replicate in E. destruct E as [-> _]. reflexivity.
Qed.

Lemma histogram_of_gray a :
  length (histogram_of (grayscale_pass a)) = 256%nat /\
  (forall i, (0 <= get (histogram_of (grayscale_pass a)) i)%Z) /\
  zsum (histogram_of (grayscale_pass a)) = Z.of_nat ((length a + 3) / 4).
Proof.
  unfold histogram_of.
  destruct (histogram_fold (grayscale_pass a)
              (pixel_offsets (length (grayscale_pass a))) (replicate 256 0%Z))
    as (H1 & H2 & H3).
  - apply length_replicate.
  - intros i. rewrite get_replicate_0. lia.
  - intros i Hi. unfold pixel_offsets in Hi. apply in_map_iff in Hi.
    destruct Hi as (k & <- & _). apply grayscale_pass_level.
  - repeat split; auto.
    rewrite H3, zsum_replicate_0, pixel_offsets_length, grayscale_pass_length. lia.
Qed.

(** ** The Otsu loop *)

Section Otsu.
Local Open Scope float_scope.
Variable histogram : list Z.
Variable total : Z.
Hypothesis histogram_length : length histogram = 256%nat.
Hypothesis histogram_counts : forall i, (0 <= get histogram i)%Z.
Hypothesis histogram_total : zsum histogram = total.

Local Abbreviation W := (weight_below histogram).
Local Abbreviation S' := (sum_below histogram).
Local Abbreviation V := (loop_variance histogram total).
Local Abbreviation sum := (weighted_sum histogram).

Lemma W_succ n : W (S n) = (W n + get histogram n)%Z.
Proof.
  unfold weight_below. rewrite seq_S, map_app, zsum_app. cbn [map Nat.add]. unfold zsum. simpl. lia.
Qed.

Lemma S_succ n : S' (S n) = (S' n + Z.of_nat n * get histogram n)%Z.
Proof.
  unfold sum_below. rewrite seq_S, map_app, zsum_app. cbn [map Nat.add]. unfold zsum. simpl. lia.
Qed.

Lemma W_nonneg n : (0 <= W n)%Z.
Proof.
  induction n as [|n IH]; [unfold weight_below, zsum; simpl; lia|].
  rewrite W_succ. specialize (histogram_counts n). lia.
Qed.

Lemma W_mono n k : (W n <= W (n + k))%Z.
Proof.
  induction k as [|k IH]; [rewrite Nat.add_0_r; lia|].
  rewrite Nat.add_succ_r, W_succ. specialize (histogram_counts (n + k)). lia.
Qed.

Lemma W_256 : W 256%nat = total.
Proof. unfold weight_below. rewrite <- histogram_length, map_get_seq. exact histogram_total. Qed.

Lemma V_proper t : (0 <=? V t) = true.
Proof.
  unfold loop_variance. destruct (_ || _); [reflexivity|].
  destruct (0 <=? variance_of _ _ _ _) eqn:E; [exact E | reflexivity].
Qed.

Lemma V_empty t :
  W (S t) = 0%Z \/ (total - W (S t) = 0)%Z -> V t = 0.
Proof.
  intros H. unfold loop_variance, background_weight.
  destruct H as [-> | ->]; [reflexivity|].
  now rewrite orb_true_r.
Qed.

Lemma V_valid t :
  W (S t) <> 0%Z -> (total - W (S t))%Z <> 0%Z ->
  V t = let variance := variance_of (W (S t)) (total - W (S t)) (S' (S t)) sum in
        if 0 <=? variance then variance else 0.
Proof.
  intros H1 H2. unfold loop_variance, background_weight, background_sum.
  apply Z.eqb_neq in H1, H2. now rewrite H1, H2.
Qed.

Lemma otsu_invariant_weaken n n' M th :
  (forall t, (n <= t < n')%nat -> (V t <=? M) = true) ->
  otsu_invariant V n M th -> otsu_invariant V n' M th.
Proof.
  intros Hnew (H0 & Hth & Hmax & Hfirst). repeat split; auto; try lia.
  intros t Ht. destruct (Nat.lt_ge_cases t n); [auto | apply Hnew; lia].
Qed.

Lemma otsu_loop_invariant k : forall n st,
  (n + k = 256)%nat ->
  wB st = W n -> sumB st = S' n ->
  otsu_invariant V n (maxVariance st) (threshold st) ->
  otsu_invariant V 256%nat
    (maxVariance (otsu_loop histogram total sum (List.seq n k) st))
    (threshold (otsu_loop histogram total sum (List.seq n k) st)).
Proof.
  induction k as [|k IH]; intros n st Hn HW HS Hinv.
  - cbn [List.seq otsu_loop]. replace n with 256%nat in Hinv by lia. exact Hinv.
  - cbn [List.seq otsu_loop]. rewrite HW, HS, <- W_succ, <- S_succ.
    pose proof Hinv as (H0 & Hth & Hmax & Hfirst).
    destruct (Z.eqb_spec (W (S n)) 0%Z) as [Hw|Hw].
    { (* continue *)
      apply IH; cbn [wB sumB maxVariance threshold]; try lia; try reflexivity.
      - rewrite S_succ. pose proof (W_nonneg n). pose proof (histogram_counts n).
        rewrite W_succ in Hw. replace (get histogram n) with 0%Z by lia. lia.
      - apply (otsu_invariant_weaken n); [|exact Hinv].
        intros t Ht. replace t with n by lia. rewrite V_empty by auto. exact H0. }
    destruct (Z.eqb_spec (total - W (S n)) 0%Z) as [Hf|Hf].
    { (* break *)
      cbn [maxVariance threshold].
      apply (otsu_invariant_weaken n); [|exact Hinv].
      intros t Ht. rewrite V_empty; [exact H0|]. right.
      pose proof (W_mono (S n) (t - n)%nat) as H1.
      replace (S n + (t - n))%nat with (S t) in H1 by lia.
      pose proof (W_mono (S t) (255 - t)%nat) as H2.
      replace (S t + (255 - t))%nat with 256%nat in H2 by lia.
      rewrite W_256 in H2. lia. }
    assert (Hn255 : (n < 255)%nat).
    { destruct (Nat.eq_dec n 255%nat) as [->|]; [|lia]. rewrite W_256 in Hf. lia. }
    pose proof (V_valid n Hw Hf) as HV. cbv zeta in HV.
    set (variance := variance_of (W (S n)) (total - W (S n)) (S' (S n)) sum) in *.
    destruct (maxVariance st <? variance) eqn:Elt.
    + (* a strictly larger variance *)
      assert (Hv : (0 <=? variance) = true).
      { apply ltb_leb. eapply leb_ltb_trans; eauto. }
      rewrite Hv in HV.
      apply IH; cbn [wB sumB maxVariance threshold]; try lia; try reflexivity.
      rewrite <- HV. repeat split.
      * apply V_proper.
      * lia.
      * lia.
      * intros t Ht. destruct (Nat.eq_dec t n) as [->|Hne].
        -- apply leb_refl. apply (leb_proper _ _ (V_proper n)).
        -- apply ltb_leb. eapply leb_ltb_trans; [apply Hmax; lia|].
           rewrite HV. exact Elt.
      * left. exists n. repeat split.
        -- apply leb_refl. apply (leb_proper _ _ (V_proper n)).
        -- intros t Ht. eapply leb_ltb_trans; [apply Hmax; lia|].
           rewrite HV. exact Elt.
    + (* no improvement *)
      apply IH; cbn [wB sumB maxVariance threshold]; try lia; try reflexivity.
      apply (otsu_invariant_weaken n); [|exact Hinv].
      intros t Ht. replace t with n by lia. rewrite HV.
      destruct (0 <=? variance) eqn:Ev; [|exact H0].
      apply not_ltb_leb; [apply (leb_proper _ _ H0) | apply (leb_proper _ _ Ev) | exact Elt].
Qed.

Lemma otsu_init_invariant : otsu_invariant V 0%nat (maxVariance otsu_init) (threshold otsu_init).
Proof.
  cbn [otsu_init maxVariance threshold]. repeat split; try reflexivity; try lia.
  right. split; reflexivity.
Qed.

Lemma otsu_threshold_first_maximum :
  let th := otsu_threshold histogram total in
  (0 <= th < 255)%Z /\
  (forall t, (t < 256)%nat -> (V (Z.to_nat th) <? V t) = false) /\
  (forall t, (t < Z.to_nat th)%nat -> (V t <? V (Z.to_nat th)) = true).
Proof.
  intros th. unfold th, otsu_threshold.
  destruct (otsu_loop_invariant 256%nat 0%nat otsu_init eq_refl eq_refl eq_refl
              otsu_init_invariant) as (H0 & Hth & Hmax & Hfirst).
  set (st := otsu_loop histogram total sum (List.seq 0%nat 256%nat) otsu_init) in *.
  split; [exact Hth|].
  destruct Hfirst as [(t0 & Ht0 & Hle & Hlt) | (Hz & Hle)].
  - rewrite Ht0, Nat2Z.id. split.
    + intros t Ht. apply leb_not_ltb. eapply leb_trans; [apply Hmax; exact Ht | exact Hle].
    + intros t Ht. eapply ltb_leb_trans; [apply Hlt; exact Ht | exact Hle].
  - rewrite Hz. cbn [Z.to_nat]. split; [|intros t Ht; lia].
    intros t Ht. apply leb_not_ltb.
    eapply leb_trans; [apply Hmax; exact Ht|].
    eapply leb_trans; [exact Hle | apply V_proper].
Qed.
End Otsu.

(** ** preprocessImage *)

Lemma valid_raster_pixels img :
  valid_raster img ->
  ((length (data img) + 3) / 4 = width img * height img)%nat.
Proof.
  intros (_ & _ & ->). symmetry.
  apply Nat.div_unique with 3%nat; lia.
Qed.

Lemma pixel_index img x y c :
  valid_raster img -> (x < width img)%nat -> (y < height img)%nat -> (c < 4)%nat ->
  let p := ((y * width img + x) * 4 + c)%nat in
  (p < length (data img))%nat /\ (p / 4 = y * width img + x)%nat /\ (p mod 4 = c)%nat.
Proof.
  intros (_ & _ & Hl) Hx Hy Hc p.
  destruct (block_of p (y * width img + x)) as [Hq Hm]; [unfold p; lia|].
  repeat split; [|exact Hq | unfold p in *; lia].
  rewrite Hl. unfold p. nia.
Qed.

Lemma selected_histogram img :
  valid_raster img ->
  length (histogram_of (grayscale_pass (data img))) = 256%nat /\
  (forall i, (0 <= get (histogram_of (grayscale_pass (data img))) i)%Z) /\
  zsum (histogram_of (grayscale_pass (data img)))
  = Z.of_nat (width img * height img).
Proof.
  intros Hv. destruct (histogram_of_gray (data img)) as (H1 & H2 & H3).
  rewrite (valid_raster_pixels img Hv) in H3. auto.
Qed.

Lemma selected_threshold_range img :
  valid_raster img -> (0 <= selected_threshold img < 255)%Z.
Proof.
  intros Hv. destruct (selected_histogram img Hv) as (H1 & H2 & H3).
  apply (otsu_threshold_first_maximum _ _ H1 H2 H3).
Qed.

Lemma preprocessImage_data img :
  data (preprocessImage img)
  = threshold_pass (selected_threshold img) (grayscale_pass (data img)).
Proof.
  unfold preprocessImage. cbn [data].
  apply median_pass_binarized, threshold_pass_binarized.
Qed.

Lemma preprocessImage_length img :
  length (data (preprocessImage img)) = length (data img).
Proof.
  now rewrite preprocessImage_data, threshold_pass_length, grayscale_pass_length.
Qed.

Lemma preprocessImage_valid img : valid_raster img -> valid_raster (preprocessImage img).
Proof.
  intros (Hw & Hh & Hl). unfold valid_raster.
  rewrite preprocessImage_length. cbn [preprocessImage width height]. auto.
Qed.

Lemma preprocessImage_channel img x y c :
  valid_raster img -> (x < width img)%nat -> (y < height img)%nat -> (c < 3)%nat ->
  channel (preprocessImage img) x y c
  = if (selected_threshold img <? intensity img x y)%Z then 255%Z else 0%Z.
Proof.
  intros Hv Hx Hy Hc.
  destruct (pixel_index img x y c Hv Hx Hy ltac:(lia)) as (Hp & Hq & Hm).
  unfold channel. rewrite preprocessImage_data. cbn [preprocessImage width].
  rewrite threshold_pass_get, grayscale_pass_length.
  case_decide as H; [|exfalso; apply H; split; [lia | exact Hp]].
  rewrite Hq. unfold cut. rewrite grayscale_pass_get.
  destruct (pixel_index img x y 0 Hv Hx Hy ltac:(lia)) as (Hp0 & Hq0 & Hm0).
  replace (4 * (y * width img + x))%nat with ((y * width img + x) * 4 + 0)%nat by lia.
  case_decide as H0; [|exfalso; apply H0; split; [lia | exact Hp0]].
  rewrite Hq0. unfold gray_of, intensity, channel.
  replace (4 * (y * width img + x))%nat with ((y * width img + x) * 4 + 0)%nat by lia.
  replace ((y * width img + x) * 4 + 0 + 1)%nat with ((y * width img + x) * 4 + 1)%nat by lia.
  replace ((y * width img + x) * 4 + 0 + 2)%nat with ((y * width img + x) * 4 + 2)%nat by lia.
  reflexivity.
Qed.

Lemma preprocessImage_alpha img x y :
  valid_raster img -> (x < width img)%nat -> (y < height img)%nat ->
  channel (preprocessImage img) x y 3 = channel img x y 3.
Proof.
  intros Hv Hx Hy.
  destruct (pixel_index img x y 3 Hv Hx Hy ltac:(lia)) as (Hp & Hq & Hm).
  unfold channel. rewrite preprocessImage_data. cbn [preprocessImage width].
  rewrite threshold_pass_get, grayscale_pass_length.
  case_decide as H; [lia|]. rewrite grayscale_pass_get.
  case_decide as H'; [lia | reflexivity].
Qed.

(** C2.  The normaliser gives a raster of the same width and height, with
    as many bytes, in which the red, green and blue channel of every pixel
    is 0 or 255; the median filter changes nothing, whether it runs or is
    skipped for a width or height of at most 10. *)
Theorem preprocessImage_binarizes (img : ImageData) :
  valid_raster img ->
  width (preprocessImage img) = width img /\
  height (preprocessImage img) = height img /\
  length (data (preprocessImage img)) = length (data img) /\
  (forall x y c,
     (x < width img)%nat -> (y < height img)%nat -> (c < 3)%nat ->
     channel (preprocessImage img) x y c = 0%Z \/
     channel (preprocessImage img) x y c = 255%Z) /\
  data (preprocessImage img)
  = threshold_pass (selected_threshold img) (grayscale_pass (data img)).
Proof.
  intros Hv. split; [reflexivity|]. split; [reflexivity|].
  split; [apply preprocessImage_length|]. split; [|apply preprocessImage_data].
  intros x y c Hx Hy Hc. rewrite preprocessImage_channel by assumption.
  destruct (_ <? _)%Z; auto.
Qed.

(** A 2 by 1 raster: one orange and one dark pixel. *)
Lemma preprocessImage_binarizes_witness :
  data (preprocessImage {| width := 2; height := 1;
                           data := [250; 120; 10; 255; 20; 30; 40; 255]%Z |})
  = [255; 255; 255; 255; 0; 0; 0; 255]%Z.
Proof.
  pose proof (preprocessImage_binarizes
                {| width := 2; height := 1;
                   data := [250; 120; 10; 255; 20; 30; 40; 255]%Z |}) as H.
  assert (Hv : valid_raster {| width := 2; height := 1;
                               data := [250; 120; 10; 255; 20; 30; 40; 255]%Z |}).
  { unfold valid_raster. cbn. lia. }
  destruct (H Hv) as (_ & _ & _ & _ & ->). vm_compute. reflexivity.
Defined.

Lemma gray_of_extreme v :
  v = 0%Z \/ v = 255%Z -> toUint8Clamp (luminance v v v) = v.
Proof. intros [-> | ->]; vm_compute; reflexivity. Qed.

Lemma threshold_pass_gray_levels th a : gray_levels (threshold_pass th a).
Proof.
  intros p Hp. rewrite threshold_pass_length in Hp.
  destruct (Nat.eq_dec (p mod 4) 3) as [Hm|Hm]; [right; exact Hm | left].
  pose proof (block_bounds p) as Hb.
  destruct (block_of (4 * (p / 4)) (p / 4) ltac:(lia)) as [Hq Hm0].
  rewrite !threshold_pass_get.
  case_decide as H1; [|exfalso; apply H1; split; assumption].
  case_decide as H2; [|exfalso; apply H2; split; lia].
  now rewrite Hq.
Qed.

(** A raster that is binarized, the three colour channels of each pixel
    equal, is returned as it is. *)
Lemma preprocessImage_fixed img :
  valid_raster img -> binarized (data img) -> gray_levels (data img) ->
  preprocessImage img = img.
Proof.
  intros Hv Hbin Hgray.
  assert (Hg : grayscale_pass (data img) = data img).
  { apply list_eq_get; [apply grayscale_pass_length|].
    intros p Hp. rewrite grayscale_pass_length in Hp. rewrite grayscale_pass_get.
    case_decide as H; [|reflexivity]. destruct H as [Hm _].
    pose proof (block_bounds p) as Hb.
    destruct Hv as (_ & _ & Hl).
    set (q := (4 * (p / 4))%nat) in *.
    assert (Hq : (q + 3 < length (data img))%nat) by (unfold q; lia).
    unfold gray_of.
    destruct (Hgray (q + 1)%nat ltac:(lia)) as [E1|E1];
      [|exfalso; destruct (block_of (q + 1) (p / 4) ltac:(unfold q; lia)); lia].
    destruct (Hgray (q + 2)%nat ltac:(lia)) as [E2|E2];
      [|exfalso; destruct (block_of (q + 2) (p / 4) ltac:(unfold q; lia)); lia].
    destruct (block_of (q + 1) (p / 4) ltac:(unfold q; lia)) as [Q1 _].
    destruct (block_of (q + 2) (p / 4) ltac:(unfold q; lia)) as [Q2 _].
    rewrite Q1 in E1. rewrite Q2 in E2. fold q in E1, E2. rewrite E1, E2.
    destruct (Hgray p Hp) as [E|E]; [|contradiction]. fold q in E. rewrite E.
    apply gray_of_extreme. apply Hbin; [lia|].
    destruct (block_of q (p / 4) ltac:(unfold q; lia)). lia. }
  assert (Hd : data (preprocessImage img) = data img).
  { rewrite preprocessImage_data, Hg.
    apply list_eq_get; [apply threshold_pass_length|].
    intros p Hp. rewrite threshold_pass_length in Hp. rewrite threshold_pass_get.
    case_decide as H; [|reflexivity]. destruct H as [Hm _].
    pose proof (block_bounds p) as Hb.
    pose proof (selected_threshold_range img Hv) as Hth.
    destruct (Hgray p Hp) as [E|E]; [|contradiction]. rewrite E. unfold cut.
    destruct (Hbin (4 * (p / 4))%nat ltac:(lia)) as [-> | ->].
    - destruct (block_of (4 * (p / 4)) (p / 4) ltac:(lia)). lia.
    - destruct (Z.ltb_spec (selected_threshold img) 0); [lia | reflexivity].
    - destruct (Z.ltb_spec (selected_threshold img) 255); [reflexivity | lia]. }
  destruct img as [w h a]. unfold preprocessImage in *. cbn [width height data] in *.
  now rewrite Hd.
Qed.

(** C4.  Normalising a second time changes nothing: a second Otsu pass
    over the histogram of 0 and 255 selects a threshold below 255 and at
    least 0, which reproduces the same split.  This holds for the result of
    normalising any raster, so for every raster whose channels are already
    0 or 255. *)
Theorem preprocessImage_idempotent (img : ImageData) :
  valid_raster img -> binarized (data img) ->
  preprocessImage (preprocessImage img) = preprocessImage img.
Proof.
  intros Hv _. apply preprocessImage_fixed.
  - apply preprocessImage_valid, Hv.
  - rewrite preprocessImage_data. apply threshold_pass_binarized.
  - rewrite preprocessImage_data. apply threshold_pass_gray_levels.
Qed.

(** A 2 by 1 raster with channels 0 and 255: a red and a black pixel. *)
Lemma preprocessImage_idempotent_witness :
  preprocessImage
    (preprocessImage {| width := 2; height := 1;
                        data := [255; 0; 0; 255; 0; 0; 0; 255]%Z |})
  = preprocessImage {| width := 2; height := 1;
                       data := [255; 0; 0; 255; 0; 0; 0; 255]%Z |}.
Proof.
  apply preprocessImage_idempotent.
  - unfold valid_raster. cbn. lia.
  - intros p Hp Hm. cbn in Hp.
    do 8 (destruct p as [|p]; [cbn; auto|]). lia.
Defined.
(** ** Further properties of preprocessImage *)

Lemma pixel_of_number img k :
  valid_raster img -> (k < width img * height img)%nat ->
  (k mod width img < width img)%nat /\ (k / width img < height img)%nat /\
  (k / width img * width img + k mod width img = k)%nat.
Proof.
  intros (Hw & Hh & _) Hk.
  pose proof (Nat.div_mod_eq k (width img)) as Hd.
  pose proof (Nat.mod_upper_bound k (width img) ltac:(lia)) as Hm.
  repeat split; [exact Hm | | lia].
  apply Nat.Div0.div_lt_upper_bound. lia.
Qed.

Lemma grayscale_pass_intensity img x y :
  valid_raster img -> (x < width img)%nat -> (y < height img)%nat ->
  get (grayscale_pass (data img)) (4 * (y * width img + x)) = intensity img x y.
Proof.
  intros Hv Hx Hy.
  destruct (pixel_index img x y 0 Hv Hx Hy ltac:(lia)) as (Hp & Hq & Hm).
  replace (4 * (y * width img + x))%nat with ((y * width img + x) * 4 + 0)%nat by lia.
  rewrite grayscale_pass_get.
  case_decide as H; [|exfalso; apply H; split; [lia | exact Hp]].
  rewrite Hq. unfold gray_of, intensity, channel.
  replace (4 * (y * width img + x))%nat with ((y * width img + x) * 4 + 0)%nat by lia.
  replace ((y * width img + x) * 4 + 0 + 1)%nat with ((y * width img + x) * 4 + 1)%nat by lia.
  replace ((y * width img + x) * 4 + 0 + 2)%nat with ((y * width img + x) * 4 + 2)%nat by lia.
  reflexivity.
Qed.

(** A bin of the histogram after a run of the counting loop. *)
Lemma histogram_fold_get a : forall offsets h0 k,
  length h0 = 256%nat ->
  (forall i, In i offsets -> (0 <= get a i < 256)%Z) ->
  (k < 256)%nat ->
  get (foldl (histogram_step a) h0 offsets) k
  = (get h0 k
     + Z.of_nat (length (List.filter (fun i => (get a i =? Z.of_nat k)%Z) offsets)))%Z.
Proof.
  induction offsets as [|i offsets IH]; intros h0 k Hl Hr Hk.
  - cbn [foldl List.filter length]. lia.
  - cbn [foldl List.filter]. specialize (Hr i (or_introl eq_refl)) as Hi.
    rewrite IH; [| unfold histogram_step; now rewrite length_insert
                 | intros j Hj; apply Hr; right; exact Hj | exact Hk].
    unfold histogram_step. rewrite get_insert.
    destruct (Z.eqb_spec (get a i) (Z.of_nat k)) as [E|E].
    + case_decide as H; [|exfalso; apply H; split; lia].
      rewrite E, Nat2Z.id. cbn [length]. lia.
    + case_decide as H; [exfalso; apply E; lia | reflexivity].
Qed.

Lemma filter_length_map {A B} (f : A -> B) (p : B -> bool) (l : list A) :
  length (List.filter p (map f l)) = length (List.filter (fun x => p (f x)) l).
Proof.
  induction l as [|x l IH]; [reflexivity|].
  cbn [map List.filter]. destruct (p (f x)); cbn [length]; now rewrite IH.
Qed.

Lemma filter_length_ext {A} (p q : A -> bool) (l : list A) :
  (forall x, In x l -> p x = q x) ->
  length (List.filter p l) = length (List.filter q l).
Proof.
  induction l as [|x l IH]; intros H; [reflexivity|].
  cbn [List.filter]. rewrite (H x (or_introl eq_refl)).
  destruct (q x); cbn [length]; rewrite IH; auto; intros z Hz; apply H; now right.
Qed.

Lemma histogram_bin img v :
  valid_raster img -> (0 <= v < 256)%Z ->
  get (histogram_of (grayscale_pass (data img))) (Z.to_nat v)
  = Z.of_nat (pixels_of_level img v).
Proof.
  intros Hv Hr. unfold histogram_of.
  rewrite histogram_fold_get; [| apply length_replicate | | lia].
  - rewrite get_replicate_0, Z2Nat.id by lia. rewrite Z.add_0_l. f_equal.
    unfold pixel_offsets, pixels_of_level.
    rewrite grayscale_pass_length, (valid_raster_pixels img Hv), filter_length_map.
    apply filter_length_ext. intros k Hk. apply in_seq in Hk.
    destruct (pixel_of_number img k Hv ltac:(lia)) as (Hx & Hy & E).
    rewrite <- (grayscale_pass_intensity img _ _ Hv Hx Hy), E. reflexivity.
  - intros i Hi. unfold pixel_offsets in Hi. apply in_map_iff in Hi.
    destruct Hi as (k & <- & _). apply grayscale_pass_level.
Qed.

Lemma level_present img v :
  valid_raster img -> (0 <= v < 256)%Z ->
  (0 < get (histogram_of (grayscale_pass (data img))) (Z.to_nat v))%Z ->
  exists x y, (x < width img)%nat /\ (y < height img)%nat /\ intensity img x y = v.
Proof.
  intros Hv Hr Hpos. rewrite (histogram_bin img v Hv Hr) in Hpos.
  unfold pixels_of_level in Hpos.
  destruct (List.filter _ _) as [|k l] eqn:E; [cbn in Hpos; lia|].
  assert (Hin : In k (k :: l)) by (left; reflexivity).
  rewrite <- E in Hin. apply List.filter_In in Hin. destruct Hin as [Hk Hi].
  apply in_seq in Hk. destruct (pixel_of_number img k Hv ltac:(lia)) as (Hx & Hy & _).
  exists (k mod width img)%nat, (k / width img)%nat.
  repeat split; [exact Hx | exact Hy | now apply Z.eqb_eq].
Qed.

Lemma weight_below_bin histogram n : forall k,
  (weight_below histogram n < weight_below histogram (n + k))%Z ->
  (forall i, (0 <= get histogram i)%Z) ->
  exists l, (n <= l < n + k)%nat /\ (0 < get histogram l)%Z.
Proof.
  induction k as [|k IH]; intros Hlt Hc.
  - rewrite Nat.add_0_r in Hlt. lia.
  - rewrite Nat.add_succ_r in Hlt.
    assert (E : weight_below histogram (S (n + k))
                = (weight_below histogram (n + k) + get histogram (n + k)%nat)%Z).
    { unfold weight_below. rewrite seq_S, map_app, zsum_app.
      cbn [map Nat.add]. unfold zsum. simpl. lia. }
    rewrite E in Hlt.
    destruct (Z.lt_ge_cases 0 (get histogram (n + k)%nat)) as [Hp|Hz].
    + exists (n + k)%nat. split; [lia | exact Hp].
    + destruct IH as (l & Hl & Hp); [specialize (Hc (n + k)%nat); lia | exact Hc|].
      exists l. split; [lia | exact Hp].
Qed.

(** A threshold other than 0 is one the loop selected: both classes have
    pixels. *)
Lemma otsu_threshold_classes histogram total :
  length histogram = 256%nat ->
  (forall i, (0 <= get histogram i)%Z) ->
  zsum histogram = total ->
  (0 < otsu_threshold histogram total)%Z ->
  (0 < weight_below histogram (S (Z.to_nat (otsu_threshold histogram total)))
     < weight_below histogram 256)%Z.
Proof.
  intros H1 H2 H3 Hpos.
  destruct (otsu_threshold_first_maximum _ _ H1 H2 H3) as (Hr & _ & Hfirst).
  cbv zeta in Hr, Hfirst.
  set (th := Z.to_nat (otsu_threshold histogram total)) in *.
  specialize (Hfirst 0%nat ltac:(lia)).
  assert (Hne : loop_variance histogram total th <> 0%float).
  { intros E. rewrite E in Hfirst.
    pose proof (V_proper histogram total 0) as H0.
    pose proof (leb_ltb_trans _ _ _ H0 Hfirst) as Hc.
    discriminate Hc. }
  assert (Hw : weight_below histogram (S th) <> 0%Z /\
               (total - weight_below histogram (S th))%Z <> 0%Z).
  { split; intros E; apply Hne; apply V_empty; auto. }
  destruct Hw as [Hb Hf].
  pose proof (W_nonneg histogram H1 H2 (S th)) as Hb0.
  pose proof (W_mono histogram H1 H2 (S th) (255 - th)) as Hf0.
  replace (S th + (255 - th))%nat with 256%nat in Hf0 by lia.
  rewrite (W_256 histogram total H1 H3) in *. lia.
Qed.

Lemma selected_threshold_eq img :
  selected_threshold img
  = otsu_threshold (histogram_of (grayscale_pass (data img)))
      (Z.of_nat (width img * height img)).
Proof. reflexivity. Qed.

Lemma selected_threshold_separates img :
  valid_raster img -> (0 < selected_threshold img)%Z ->
  (exists x y, (x < width img)%nat /\ (y < height img)%nat /\
               (intensity img x y <= selected_threshold img)%Z) /\
  (exists x y, (x < width img)%nat /\ (y < height img)%nat /\
               (selected_threshold img < intensity img x y)%Z).
Proof.
  intros Hv Hpos. destruct (selected_histogram img Hv) as (H1 & H2 & H3).
  pose proof (selected_threshold_range img Hv) as Hr.
  assert (Hc : (0 < weight_below (histogram_of (grayscale_pass (data img)))
                      (S (Z.to_nat (selected_threshold img)))
                  < weight_below (histogram_of (grayscale_pass (data img))) 256)%Z).
  { rewrite selected_threshold_eq in *.
    exact (otsu_threshold_classes _ _ H1 H2 H3 Hpos). }
  generalize dependent (selected_threshold img). intros sel Hpos Hr Hc.
  set (histogram := histogram_of (grayscale_pass (data img))) in *.
  set (th := Z.to_nat sel) in *.
  split.
  - destruct (weight_below_bin histogram 0 (S th)) as (l & Hl & Hp);
      [cbn [Nat.add]; change (weight_below histogram 0) with 0%Z; lia | exact H2 |].
    destruct (level_present img (Z.of_nat l) Hv ltac:(lia)) as (x & y & Hx & Hy & E).
    { rewrite Nat2Z.id. exact Hp. }
    exists x, y. repeat split; auto. rewrite E. lia.
  - destruct (weight_below_bin histogram (S th) (255 - th)) as (l & Hl & Hp);
      [replace (S th + (255 - th))%nat with 256%nat by lia; lia | exact H2 |].
    destruct (level_present img (Z.of_nat l) Hv ltac:(lia)) as (x & y & Hx & Hy & E).
    { rewrite Nat2Z.id. exact Hp. }
    exists x, y. repeat split; auto. rewrite E. lia.
Qed.

Lemma gray_level_kept v :
  (0 <= v <= 255)%Z -> toUint8Clamp (luminance v v v) = v.
Proof.
  intros Hv.
  assert (H : forallb (fun k => (toUint8Clamp
                                   (luminance (Z.of_nat k) (Z.of_nat k) (Z.of_nat k))
                                 =? Z.of_nat k)%Z)
                (List.seq 0 256) = true) by (vm_compute; reflexivity).
  rewrite forallb_forall in H. specialize (H (Z.to_nat v)).
  rewrite Z2Nat.id in H by lia. apply Z.eqb_eq, H, in_seq. lia.
Qed.

Lemma grayscale_pass_twice img :
  valid_raster img ->
  grayscale_pass (grayscale_pass (data img)) = grayscale_pass (data img).
Proof.
  intros (_ & _ & Hl).
  apply list_eq_get; [apply grayscale_pass_length|].
  intros p Hp. rewrite !grayscale_pass_length in Hp.
  rewrite (grayscale_pass_get (grayscale_pass (data img))), grayscale_pass_length.
  case_decide as H; [|reflexivity]. destruct H as [Hm _].
  pose proof (block_bounds p) as Hb.
  set (q := (4 * (p / 4))%nat) in *.
  assert (Hq : (q + 3 < length (data img))%nat) by (unfold q; lia).
  assert (Hch : forall j, (j < 3)%nat ->
                  get (grayscale_pass (data img)) (q + j) = gray_of (data img) q).
  { intros j Hj. rewrite grayscale_pass_get.
    destruct (block_of (q + j) (p / 4) ltac:(unfold q; lia)) as [Q M].
    case_decide as H; [|exfalso; apply H; split; lia].
    rewrite Q. reflexivity. }
  unfold gray_of at 1.
  rewrite <- (Nat.add_0_r q) at 1. rewrite !Hch by lia.
  rewrite gray_level_kept.
  - rewrite grayscale_pass_get.
    case_decide as H; [reflexivity | exfalso; apply H; split; lia].
  - unfold gray_of. pose proof (toUint8Clamp_range
      (luminance (get (data img) q) (get (data img) (q + 1)) (get (data img) (q + 2)))).
    lia.
Qed.

(** X1.  The alpha byte of every pixel is left as it was: the four passes
    write the red, green and blue bytes only. *)
Theorem preprocessImage_keeps_alpha (img : ImageData) (x y : nat) :
  valid_raster img -> (x < width img)%nat -> (y < height img)%nat ->
  channel (preprocessImage img) x y 3 = channel img x y 3.
Proof.
  intros Hv Hx Hy.
  destruct (pixel_index img x y 3 Hv Hx Hy ltac:(lia)) as (Hp & Hq & Hm).
  unfold channel. rewrite preprocessImage_data. cbn [preprocessImage width].
  rewrite threshold_pass_get, grayscale_pass_length.
  case_decide as H; [lia|]. rewrite grayscale_pass_get.
  case_decide as H'; [lia | reflexivity].
Qed.

(** A 2 by 1 raster with alpha bytes 255 and 17. *)
Lemma preprocessImage_keeps_alpha_witness :
  channel (preprocessImage {| width := 2; height := 1;
                              data := [250; 120; 10; 255; 20; 30; 40; 17]%Z |}) 1 0 3
  = 17%Z.
Proof.
  apply (preprocessImage_keeps_alpha
           {| width := 2; height := 1;
              data := [250; 120; 10; 255; 20; 30; 40; 17]%Z |} 1 0).
  - unfold valid_raster. cbn. lia.
  - cbn. lia.
  - cbn. lia.
Defined.

(** X2.  The rasters that the normaliser returns unchanged are exactly
    the black and white ones, whose pixels have three equal colour bytes,
    0 or 255; every result is such a raster, so normalising twice is
    normalising once, for every raster. *)
Theorem preprocessImage_fixed_points (img : ImageData) :
  valid_raster img ->
  (preprocessImage img = img <->
   binarized (data img) /\ gray_levels (data img)) /\
  preprocessImage (preprocessImage img) = preprocessImage img.
Proof.
  intros Hv. split; [split|].
  - intros H. pose proof (f_equal data H) as Hd.
    rewrite preprocessImage_data in Hd. rewrite <- Hd.
    split; [apply threshold_pass_binarized | apply threshold_pass_gray_levels].
  - intros [Hb Hg]. now apply preprocessImage_fixed.
  - apply preprocessImage_fixed.
    + apply preprocessImage_valid, Hv.
    + rewrite preprocessImage_data. apply threshold_pass_binarized.
    + rewrite preprocessImage_data. apply threshold_pass_gray_levels.
Qed.

(** A 2 by 1 raster of a gray and a dark pixel, normalised twice. *)
Lemma preprocessImage_fixed_points_witness :
  preprocessImage
    (preprocessImage {| width := 2; height := 1;
                        data := [90; 90; 90; 255; 20; 30; 40; 255]%Z |})
  = preprocessImage {| width := 2; height := 1;
                       data := [90; 90; 90; 255; 20; 30; 40; 255]%Z |}.
Proof.
  apply (preprocessImage_fixed_points
           {| width := 2; height := 1;
              data := [90; 90; 90; 255; 20; 30; 40; 255]%Z |}).
  unfold valid_raster. cbn. lia.
Defined.

(** X3.  The grayscale pass keeps a pixel that is gray already: weighted
    and rounded, three equal bytes give the same byte.  So the pass is
    idempotent, and a raster and its grayscale version are normalised to
    the same result. *)
Theorem grayscale_pass_idempotent (img : ImageData) :
  valid_raster img ->
  (forall v, (0 <= v <= 255)%Z -> toUint8Clamp (luminance v v v) = v) /\
  grayscale_pass (grayscale_pass (data img)) = grayscale_pass (data img) /\
  preprocessImage (grayscale_of img) = preprocessImage img.
Proof.
  intros Hv. split; [exact gray_level_kept|].
  pose proof (grayscale_pass_twice img Hv) as Hg.
  split; [exact Hg|].
  unfold preprocessImage. rewrite !selected_threshold_eq.
  unfold grayscale_of. cbn [width height data]. rewrite Hg. reflexivity.
Qed.

(** A 2 by 1 raster of an orange and a dark pixel. *)
Lemma grayscale_pass_idempotent_witness :
  grayscale_pass (grayscale_pass [250; 120; 10; 255; 20; 30; 40; 255]%Z)
  = grayscale_pass [250; 120; 10; 255; 20; 30; 40; 255]%Z.
Proof.
  apply (grayscale_pass_idempotent
           {| width := 2; height := 1;
              data := [250; 120; 10; 255; 20; 30; 40; 255]%Z |}).
  unfold valid_raster. cbn. lia.
Defined.

(** X4.  The histogram has 256 bins; the bin of a level holds the number
    of pixels of that gray level, and the bins add up to the number of
    pixels. *)
Theorem histogram_counts_levels (img : ImageData) :
  valid_raster img ->
  length (histogram_of (grayscale_pass (data img))) = 256%nat /\
  (forall v, (0 <= v < 256)%Z ->
     get (histogram_of (grayscale_pass (data img))) (Z.to_nat v)
     = Z.of_nat (pixels_of_level img v)) /\
  zsum (histogram_of (grayscale_pass (data img)))
  = Z.of_nat (width img * height img).
Proof.
  intros Hv. destruct (selected_histogram img Hv) as (H1 & H2 & H3).
  split; [exact H1|]. split; [|exact H3].
  intros v Hr. now apply histogram_bin.
Qed.

(** A 3 by 1 raster with two pixels of level 10 and one of level 200. *)
Lemma histogram_counts_levels_witness :
  get (histogram_of
         (grayscale_pass
            [10; 10; 10; 255; 200; 200; 200; 255; 10; 10; 10; 255]%Z)) 10
  = 2%Z.
Proof.
  apply (proj1 (proj2 (histogram_counts_levels
           {| width := 3; height := 1;
              data := [10; 10; 10; 255; 200; 200; 200; 255; 10; 10; 10; 255]%Z |}
           ltac:(unfold valid_raster; cbn; lia))) 10%Z).
  lia.
Defined.

(** X5.  A pixel of the largest gray level of the raster becomes white,
    unless that level is 0: the result is black all over only for a raster
    whose gray levels are all 0. *)
Theorem brightest_pixel_becomes_white (img : ImageData) (x y : nat) :
  valid_raster img -> (x < width img)%nat -> (y < height img)%nat ->
  (forall x' y', (x' < width img)%nat -> (y' < height img)%nat ->
                 (intensity img x' y' <= intensity img x y)%Z) ->
  (0 < intensity img x y)%Z ->
  forall c, (c < 3)%nat -> channel (preprocessImage img) x y c = 255%Z.
Proof.
  intros Hv Hx Hy Hmax Hpos c Hc.
  rewrite preprocessImage_channel by assumption.
  pose proof (selected_threshold_range img Hv) as Hr.
  destruct (Z.ltb_spec (selected_threshold img) (intensity img x y)) as [|Hge];
    [reflexivity | exfalso].
  destruct (selected_threshold_separates img Hv ltac:(lia))
    as (_ & x' & y' & Hx' & Hy' & Hlt).
  specialize (Hmax x' y' Hx' Hy'). lia.
Qed.

(** A 3 by 1 raster of gray levels 10, 200 and 90: the pixel of level 200
    becomes white. *)
Lemma brightest_pixel_becomes_white_witness :
  channel (preprocessImage
             {| width := 3; height := 1;
                data := [10; 10; 10; 255; 200; 200; 200; 255; 90; 90; 90; 255]%Z |})
    1 0 0 = 255%Z.
Proof.
  apply (brightest_pixel_becomes_white
           {| width := 3; height := 1;
              data := [10; 10; 10; 255; 200; 200; 200; 255; 90; 90; 90; 255]%Z |} 1 0).
  - unfold valid_raster. cbn. lia.
  - cbn. lia.
  - cbn. lia.
  - cbn [width height]. intros x' y' Hx' Hy'.
    assert (Ey : y' = 0%nat) by lia. subst y'.
    destruct x' as [|[|[|x']]]; [| | |lia]; vm_compute; discriminate.
  - vm_compute. reflexivity.
  - lia.
Defined.

(** X6.  A raster of one gray level gets the threshold 0: it becomes white
    all over, or black all over when that level is 0. *)
Theorem uniform_raster_threshold (img : ImageData) :
  valid_raster img ->
  (forall x y x' y',
     (x < width img)%nat -> (y < height img)%nat ->
     (x' < width img)%nat -> (y' < height img)%nat ->
     intensity img x y = intensity img x' y') ->
  selected_threshold img = 0%Z /\
  (forall x y c,
     (x < width img)%nat -> (y < height img)%nat -> (c < 3)%nat ->
     channel (preprocessImage img) x y c
     = if (0 <? intensity img x y)%Z then 255%Z else 0%Z).
Proof.
  intros Hv Hu.
  pose proof (selected_threshold_range img Hv) as Hr.
  assert (Hz : selected_threshold img = 0%Z).
  { destruct (Z.eq_dec (selected_threshold img) 0%Z) as [|Hne]; [assumption | exfalso].
    destruct (selected_threshold_separates img Hv ltac:(lia))
      as ((x & y & Hx & Hy & Hle) & x' & y' & Hx' & Hy' & Hlt).
    rewrite (Hu x y x' y') in Hle by assumption. lia. }
  split; [exact Hz|].
  intros x y c Hx Hy Hc. rewrite preprocessImage_channel by assumption.
  now rewrite Hz.
Qed.

(** A 2 by 1 raster of the gray level 40 becomes white. *)
Lemma uniform_raster_threshold_witness :
  selected_threshold {| width := 2; height := 1;
                        data := [40; 40; 40; 255; 40; 40; 40; 255]%Z |} = 0%Z.
Proof.
  refine (proj1 (uniform_raster_threshold
                   {| width := 2; height := 1;
                      data := [40; 40; 40; 255; 40; 40; 40; 255]%Z |} _ _)).
  - unfold valid_raster. cbn. lia.
  - cbn [width height]. intros x y x' y' Hx Hy Hx' Hy'.
    assert (Ey : y = 0%nat) by lia. assert (Ey' : y' = 0%nat) by lia. subst y y'.
    destruct x as [|[|x]]; [| |lia]; destruct x' as [|[|x']]; [| |lia| | |lia];
      vm_compute; reflexivity.
Defined.
(** ** The matcher finds only what the expression allows *)

Lemma within_zero hi : within 0 hi 0.
Proof. unfold within. destruct hi; lia. Qed.

Lemma within_succ lo hi n :
  hi <> Some 0%nat -> within (Nat.pred lo) (dec_bound hi) n -> within lo hi (S n).
Proof.
  unfold within, dec_bound. destruct hi as [[|h]|]; intros Hne H;
    [congruence | cbn [Nat.pred] in H; lia | lia].
Qed.

Lemma iterate_sound {R}
    (step : (cursor -> captures -> option R) -> cursor -> captures -> option R)
    allowed :
  sound step allowed ->
  forall greedy fuel lo hi k c g res,
    iterate step k greedy fuel lo hi c g = Some res ->
    exists n c' g', within lo hi n /\ repeats n allowed c g c' g' /\
                    k c' g' = Some res.
Proof.
  intros Hstep greedy fuel.
  induction fuel as [|fuel IH]; intros lo hi k c g res H; cbn [iterate] in H;
    [discriminate|].
  assert (Hk : forall lo', lo' = 0%nat \/ hi = Some 0%nat -> k c g = Some res ->
               exists n c' g', within lo' hi n /\ repeats n allowed c g c' g' /\
                               k c' g' = Some res).
  { intros lo' Hlo Hk. exists 0%nat, c, g. split; [|split; [split; reflexivity | exact Hk]].
    destruct Hlo as [-> | ->]; [apply within_zero | unfold within; lia]. }
  assert (Hagain :
    hi <> Some 0%nat ->
    step (fun c' g' =>
            if (lo =? 0)%nat && (pos c' =? pos c)%nat then None
            else iterate step k greedy fuel (Nat.pred lo) (dec_bound hi) c' g') c g
      = Some res ->
    exists n c' g', within lo hi n /\ repeats n allowed c g c' g' /\
                    k c' g' = Some res).
  { intros Hne Ha. apply Hstep in Ha. destruct Ha as (c1 & g1 & Hr1 & Hc1).
    destruct ((lo =? 0)%nat && (pos c1 =? pos c)%nat); [discriminate|].
    apply IH in Hc1. destruct Hc1 as (n & c2 & g2 & Hw & Hr2 & Hk2).
    exists (S n), c2, g2. split; [now apply within_succ|].
    split; [exists c1, g1; auto | exact Hk2]. }
  destruct hi as [[|hi]|].
  - apply (Hk lo); auto.
  - destruct (Nat.ltb_spec 0 lo) as [Hlo|Hlo]; [apply Hagain; [discriminate | exact H]|].
    assert (lo = 0%nat) by lia. subst lo.
    destruct greedy; apply orelse_Some in H;
      destruct H as [H|H]; try (apply Hagain; [discriminate | exact H]);
      apply (Hk 0%nat); auto.
  - destruct (Nat.ltb_spec 0 lo) as [Hlo|Hlo]; [apply Hagain; [discriminate | exact H]|].
    assert (lo = 0%nat) by lia. subst lo.
    destruct greedy; apply orelse_Some in H;
      destruct H as [H|H]; try (apply Hagain; [discriminate | exact H]);
      apply (Hk 0%nat); auto.
Qed.

Lemma m_sound {R} (r : regex) : sound (R := R) (m r) (spans r).
Proof.
  induction r as [|p|r1 IH1 r2 IH2|r1 IH1 r2 IH2|greedy lo hi r1 IH1|n r1 IH1| | |];
    intros k c g res H; cbn [m] in H; cbn [spans].
  - exists c, g. auto.
  - destruct (rest c) as [|a s'] eqn:E; [discriminate|].
    destruct (p a) eqn:Ep; [|discriminate].
    eexists _, g. split; [|exact H]. exists a, s'. auto.
  - apply IH1 in H. destruct H as (c1 & g1 & H1 & H).
    apply IH2 in H. destruct H as (c2 & g2 & H2 & H).
    exists c2, g2. split; [exists c1, g1; auto | exact H].
  - apply orelse_Some in H. destruct H as [H|H].
    + apply IH1 in H. destruct H as (c1 & g1 & H1 & H). exists c1, g1. auto.
    + apply IH2 in H. destruct H as (c1 & g1 & H1 & H). exists c1, g1. auto.
  - apply (iterate_sound (m r1) (spans r1) IH1) in H.
    destruct H as (n & c1 & g1 & Hw & Hr & H). exists c1, g1.
    split; [exists n; auto | exact H].
  - apply IH1 in H. destruct H as (c1 & g1 & H1 & H).
    eexists c1, _. split; [exists g1; split; [exact H1 | reflexivity] | exact H].
  - destruct (pos c =? 0)%nat eqn:E; [|discriminate].
    exists c, g. apply Nat.eqb_eq in E. auto.
  - destruct (rest c) eqn:E; [|discriminate]. exists c, g. auto.
  - destruct (xorb (word_before c) (word_after c)) eqn:E; [|discriminate].
    exists c, g. auto.
Qed.

(** *** What a match reads *)

Lemma reads_refl c : reads c "" c.
Proof. split; [reflexivity | cbn; lia]. Qed.

Lemma reads_trans c1 w1 c2 w2 c3 :
  reads c1 w1 c2 -> reads c2 w2 c3 -> reads c1 (w1 ++ w2) c3.
Proof.
  intros [H1 P1] [H2 P2]. split.
  - rewrite H1, H2. now rewrite append_assoc.
  - rewrite append_length. lia.
Qed.

Lemma repeats_reads allowed :
  (forall c g c' g', allowed c g c' g' -> exists w, reads c w c') ->
  forall n c g c' g', repeats n allowed c g c' g' -> exists w, reads c w c'.
Proof.
  intros Hstep. induction n as [|n IH]; intros c g c' g' H; cbn [repeats] in H.
  - destruct H as [-> _]. exists "". apply reads_refl.
  - destruct H as (c1 & g1 & H1 & H2).
    apply Hstep in H1. destruct H1 as (w1 & H1).
    apply IH in H2. destruct H2 as (w2 & H2).
    exists (w1 ++ w2). eapply reads_trans; eauto.
Qed.

Lemma spans_reads r : forall c g c' g', spans r c g c' g' -> exists w, reads c w c'.
Proof.
  induction r as [|p|r1 IH1 r2 IH2|r1 IH1 r2 IH2|greedy lo hi r1 IH1|n r1 IH1| | |];
    intros c g c' g' H; cbn [spans] in H.
  - destruct H as [-> _]. exists "". apply reads_refl.
  - destruct H as (a & s' & E & _ & -> & _). exists (String a "").
    split; cbn [rest pos append String.length]; [exact E | lia].
  - destruct H as (c1 & g1 & H1 & H2).
    apply IH1 in H1. destruct H1 as (w1 & H1).
    apply IH2 in H2. destruct H2 as (w2 & H2).
    exists (w1 ++ w2). eapply reads_trans; eauto.
  - destruct H as [H|H]; eauto.
  - destruct H as (n & _ & H). eapply repeats_reads; eauto.
  - destruct H as (g1 & H & _). eauto.
  - destruct H as (_ & -> & _). exists "". apply reads_refl.
  - destruct H as (_ & -> & _). exists "". apply reads_refl.
  - destruct H as (_ & -> & _). exists "". apply reads_refl.
Qed.

Lemma repeats_group_free allowed :
  (forall c g c' g', allowed c g c' g' -> g' = g) ->
  forall n c g c' g', repeats n allowed c g c' g' -> g' = g.
Proof.
  intros Hstep. induction n as [|n IH]; intros c g c' g' H; cbn [repeats] in H.
  - now destruct H.
  - destruct H as (c1 & g1 & H1 & H2).
    apply Hstep in H1. apply IH in H2. congruence.
Qed.

Lemma spans_group_free r : group_free r = true ->
  forall c g c' g', spans r c g c' g' -> g' = g.
Proof.
  induction r as [|p|r1 IH1 r2 IH2|r1 IH1 r2 IH2|greedy lo hi r1 IH1|n r1 IH1| | |];
    intros Hf c g c' g' H; cbn [spans] in H; cbn [group_free] in Hf.
  - now destruct H.
  - now destruct H as (a & s' & _ & _ & _ & ->).
  - apply andb_true_iff in Hf as [F1 F2]. destruct H as (c1 & g1 & H1 & H2).
    apply (IH1 F1) in H1. apply (IH2 F2) in H2. congruence.
  - apply andb_true_iff in Hf as [F1 F2]. destruct H as [H|H]; eauto.
  - destruct H as (n & _ & H). eapply repeats_group_free; eauto.
  - discriminate.
  - now destruct H as (_ & _ & ->).
  - now destruct H as (_ & _ & ->).
  - now destruct H as (_ & _ & ->).
Qed.

(** *** Positions of a text *)

Lemma cursor_in_start text : cursor_in text (start_of text).
Proof. exists "". split; reflexivity. Qed.

Lemma cursor_in_reads text c w c' :
  cursor_in text c -> reads c w c' ->
  cursor_in text c' /\ substring (pos c) (String.length w) text = w.
Proof.
  intros (pre & Ht & Hp) [Hr Hq]. split.
  - exists (pre ++ w). split.
    + rewrite Ht, Hr. now rewrite append_assoc.
    + rewrite append_length. lia.
  - rewrite Ht, Hr, <- Hp. apply substring_middle.
Qed.

(** The leftmost match starts at a position of the text and is a match
    of the expression. *)
Lemma search_sound r : forall s p b res text,
  cursor_in text {| pos := p; before := b; rest := s |} ->
  search r p b s = Some res ->
  exists c0, cursor_in text c0 /\ m_start res = pos c0 /\
             spans r c0 no_captures (m_after res) (m_groups res).
Proof.
  induction s as [|a s IH]; intros p b res text Hc H; cbn [search] in H.
  - destruct (match_at r _) as [res0|] eqn:E; [|discriminate]. injection H as <-.
    unfold match_at in E. apply m_sound in E.
    destruct E as (c' & g' & Hs & E). injection E as <-.
    eexists. split; [exact Hc|]. split; [reflexivity | exact Hs].
  - destruct (match_at r _) as [res0|] eqn:E.
    + injection H as <-.
      unfold match_at in E. apply m_sound in E.
      destruct E as (c' & g' & Hs & E). injection E as <-.
      eexists. split; [exact Hc|]. split; [reflexivity | exact Hs].
    + eapply IH; [|exact H].
      destruct (cursor_in_reads text _ (String a "")
                  {| pos := S p; before := Some a; rest := s |} Hc) as [Hc' _];
        [|exact Hc'].
      split; cbn [rest pos append String.length]; [reflexivity | lia].
Qed.

Lemma exec_sound r text res :
  exec r text = Some res ->
  exists c0, cursor_in text c0 /\ m_start res = pos c0 /\
             spans r c0 no_captures (m_after res) (m_groups res).
Proof.
  unfold exec, search_from. apply search_sound, cursor_in_start.
Qed.

Lemma matches_from_sound r text : forall fuel c res,
  cursor_in text c ->
  In res (matches_from fuel r c) ->
  exists c0, cursor_in text c0 /\ m_start res = pos c0 /\
             spans r c0 no_captures (m_after res) (m_groups res).
Proof.
  induction fuel as [|fuel IH]; intros c res Hc H; cbn [matches_from] in H;
    [contradiction|].
  destruct (search_from r c) as [res0|] eqn:E; [|contradiction].
  unfold search_from in E.
  assert (Hc0 : cursor_in text {| pos := pos c; before := before c; rest := rest c |})
    by (destruct c; exact Hc).
  pose proof (search_sound r _ _ _ _ text Hc0 E) as (c0 & Hc1 & Hs & Hsp).
  destruct H as [<-|H]; [exists c0; auto|].
  destruct (resume res0) as [c'|] eqn:Er; [|contradiction].
  eapply IH; [|exact H].
  destruct (spans_reads _ _ _ _ _ Hsp) as (w & Hw).
  destruct (cursor_in_reads _ _ _ _ Hc1 Hw) as [Hafter _].
  unfold resume in Er. destruct (m_end res0 =? m_start res0)%nat.
  - destruct (rest (m_after res0)) as [|a s'] eqn:Ea; [discriminate|].
    injection Er as <-.
    destruct (cursor_in_reads text _ (String a "")
                {| pos := S (m_end res0); before := Some a; rest := s' |} Hafter)
      as [Hnext _]; [|exact Hnext].
    split; cbn [rest pos append String.length]; [exact Ea | unfold m_end; lia].
  - injection Er as <-. exact Hafter.
Qed.

Lemma matchAll_sound r text res :
  In res (matchAll r text) ->
  exists c0, cursor_in text c0 /\ m_start res = pos c0 /\
             spans r c0 no_captures (m_after res) (m_groups res).
Proof. apply matches_from_sound, cursor_in_start. Qed.
(** ** The shape of what the extractors return *)

Lemma cursor_in_spans text r c g c' g' :
  cursor_in text c -> spans r c g c' g' ->
  cursor_in text c' /\
  exists w, reads c w c' /\ substring (pos c) (pos c' - pos c) text = w.
Proof.
  intros Hc Hs. destruct (spans_reads _ _ _ _ _ Hs) as (w & Hw).
  destruct (cursor_in_reads _ _ _ _ Hc Hw) as [Hc' Hsub].
  split; [exact Hc'|]. exists w. split; [exact Hw|].
  destruct Hw as [_ Hp]. replace (pos c' - pos c)%nat with (String.length w) by lia.
  exact Hsub.
Qed.

(** A run of characters of one class. *)
Lemma repeats_class p : forall n c g c' g',
  repeats n (spans (Class p)) c g c' g' ->
  exists w, reads c w c' /\ String.length w = n /\ all_chars p w = true /\ g' = g.
Proof.
  induction n as [|n IH]; intros c g c' g' H; cbn [repeats] in H.
  - destruct H as [-> ->]. exists "". split; [apply reads_refl | auto].
  - destruct H as (c1 & g1 & (a & s' & E & Hp & -> & ->) & H).
    apply IH in H. destruct H as (w & Hw & Hl & Ha & ->).
    exists (String a w). split; [|cbn [String.length all_chars]; rewrite Hp, Ha, Hl; auto].
    destruct Hw as [Hr Hq]. cbn [rest pos] in *. split.
    + rewrite E, Hr. reflexivity.
    + cbn [String.length]. lia.
Qed.

Lemma separator_not_digit b : mem_char ",." b = true -> isDigit b = false.
Proof.
  cbn [mem_char]. rewrite orb_false_r. intros H.
  apply orb_true_iff in H. unfold is_char in H.
  destruct H as [H|H]; apply Ascii.eqb_eq in H; subst b; reflexivity.
Qed.

Lemma amount_shape_digits seps : forall ds,
  all_chars isDigit ds = true -> ds <> "" -> amount_shape seps ds = true.
Proof.
  induction ds as [|a ds IH]; intros Ha Hne; [congruence|].
  cbn [all_chars] in Ha. apply andb_true_iff in Ha as [Hd Ha].
  cbn [amount_shape]. rewrite Hd. cbn [andb].
  destruct ds as [|b ds]; [reflexivity|].
  pose proof Ha as Hb. cbn [all_chars] in Hb. apply andb_true_iff in Hb as [Hb _].
  rewrite Hb. apply IH; [exact Ha | discriminate].
Qed.

Lemma amount_shape_fraction seps b fs : forall ds,
  all_chars isDigit ds = true -> ds <> "" ->
  mem_char seps b = true -> isDigit b = false ->
  (1 <= String.length fs <= 2)%nat -> all_chars isDigit fs = true ->
  amount_shape seps (ds ++ String b fs) = true.
Proof.
  induction ds as [|a ds IH]; intros Ha Hne Hs Hb Hl Hf; [congruence|].
  cbn [all_chars] in Ha. apply andb_true_iff in Ha as [Hd Ha].
  cbn [append amount_shape]. rewrite Hd. cbn [andb].
  destruct ds as [|a' ds].
  - cbn [append]. rewrite Hb, Hs, Hf.
    destruct (Nat.leb_spec 1 (String.length fs)); [|lia].
    destruct (Nat.leb_spec (String.length fs) 2); [reflexivity | lia].
  - pose proof Ha as Ha'. cbn [all_chars] in Ha'. apply andb_true_iff in Ha' as [Ha' _].
    cbn [append]. rewrite Ha'. apply IH; auto; discriminate.
Qed.

(** What [\d+(?:[,.]\d{1,2})?] and [\d+(?:[,.]\d{1,2})] match. *)
Lemma spans_amount_number c g c' g' :
  spans amount_number c g c' g' ->
  exists w, reads c w c' /\ amount_shape ",." w = true.
Proof.
  unfold amount_number, many1, maybe, between, one_of, digit. cbn [spans].
  intros (c1 & g1 & (n & Hn & Hds) & k & Hk & Hrest).
  apply repeats_class in Hds. destruct Hds as (ds & Hr & Hl & Ha & ->).
  unfold within in Hn, Hk.
  assert (Hne : ds <> "") by (intros ->; cbn in Hl; lia).
  destruct k as [|[|k]]; [| |lia]; cbn [repeats spans] in Hrest.
  - destruct Hrest as [-> _]. exists ds. split; [exact Hr|].
    now apply amount_shape_digits.
  - destruct Hrest as (c2 & g2 & (c3 & g3 & (b & s' & E & Hb & -> & ->)
                                  & j & Hj & Hfs) & -> & ->).
    apply repeats_class in Hfs. destruct Hfs as (fs & Hr' & Hl' & Ha' & _).
    unfold within in Hj.
    exists (ds ++ String b fs). split.
    + eapply reads_trans; [exact Hr|].
      destruct Hr' as [Hr1 Hr2]. cbn [rest pos] in *. split.
      * rewrite E, Hr1. reflexivity.
      * cbn [String.length]. lia.
    + apply amount_shape_fraction; auto; [now apply separator_not_digit | lia].
Qed.

Lemma spans_decimal_amount c g c' g' :
  spans decimal_amount c g c' g' ->
  exists w, reads c w c' /\ amount_shape ",." w = true.
Proof.
  intros H. apply (spans_amount_number c g c' g').
  unfold decimal_amount, amount_number, maybe in *. cbn [spans] in *.
  destruct H as (c1 & g1 & Hd & Hf). exists c1, g1. split; [exact Hd|].
  exists 1%nat. split; [unfold within; lia|].
  cbn [repeats]. exists c', g'. auto.
Qed.

Lemma replace_first_digits : forall s,
  all_chars isDigit s = true -> replace_first "," "." s = s.
Proof.
  induction s as [|a s IH]; intros H; [reflexivity|].
  cbn [all_chars] in H. apply andb_true_iff in H as [Hd Ha].
  cbn [replace_first]. destruct (is_char "," a) eqn:E.
  - unfold is_char in E. apply Ascii.eqb_eq in E. subst a. discriminate Hd.
  - now rewrite IH.
Qed.

Lemma amount_shape_step seps a b s :
  amount_shape seps (String a (String b s))
  = isDigit a &&
    (if isDigit b then amount_shape seps (String b s)
     else mem_char seps b && (1 <=? String.length s)%nat
          && (String.length s <=? 2)%nat && all_chars isDigit s).
Proof. reflexivity. Qed.

(** [captured.replace(',', '.')] on a captured amount is a decimal
    number. *)
Lemma replace_first_decimal : forall w,
  amount_shape ",." w = true -> decimal_text (replace_first "," "." w) = true.
Proof.
  unfold decimal_text.
  induction w as [|a w IH]; intros H; [discriminate|].
  assert (Hd : isDigit a = true).
  { cbn [amount_shape] in H. now apply andb_true_iff in H as [Hd _]. }
  cbn [replace_first]. destruct (is_char "," a) eqn:E.
  { unfold is_char in E. apply Ascii.eqb_eq in E. subst a. discriminate Hd. }
  destruct w as [|b w]; [cbn; now rewrite Hd|].
  rewrite amount_shape_step, Hd in H. cbn [andb] in H.
  destruct (isDigit b) eqn:Eb.
  - specialize (IH H). cbn [replace_first] in IH |- *.
    destruct (is_char "," b) eqn:E'.
    { unfold is_char in E'. apply Ascii.eqb_eq in E'. subst b. discriminate Eb. }
    rewrite amount_shape_step, Hd, Eb. exact IH.
  - apply andb_true_iff in H as [H Hf]. apply andb_true_iff in H as [H Hl2].
    apply andb_true_iff in H as [Hs Hl1].
    cbn [replace_first]. destruct (is_char "," b) eqn:E'.
    + rewrite amount_shape_step, Hd. change (isDigit ".") with false.
      rewrite Hl1, Hl2, Hf. reflexivity.
    + assert (Hb : b = "."%char).
      { cbn [mem_char] in Hs. rewrite E', orb_false_r in Hs. cbn [orb] in Hs.
        unfold is_char in Hs. apply Ascii.eqb_eq in Hs. now subst. }
      subst b. rewrite (replace_first_digits w Hf).
      rewrite amount_shape_step, Hd. change (isDigit ".") with false.
      rewrite Hl1, Hl2, Hf. reflexivity.
Qed.

(** The group of a match is the text between two positions. *)
Lemma group_between text res n c1 c2 w :
  cursor_in text c1 -> reads c1 w c2 ->
  m_groups res n = Some (pos c1, pos c2) ->
  group text res n = Some w.
Proof.
  intros Hc Hw Hg. unfold group. rewrite Hg. f_equal.
  destruct (cursor_in_reads _ _ _ _ Hc Hw) as [_ Hsub].
  destruct Hw as [_ Hp]. replace (pos c2 - pos c1)%nat with (String.length w) by lia.
  exact Hsub.
Qed.

(** Group 1 of a match of each pattern of [extractTotal] is an amount. *)
Lemma total_pattern_group text p res :
  In p totalPatterns ->
  (exists c0, cursor_in text c0 /\
              spans (ast p) c0 no_captures (m_after res) (m_groups res)) ->
  exists w, group text res 1 = Some w /\ amount_shape ",." w = true.
Proof.
  intros Hp (c0 & Hc0 & Hs).
  destruct Hp as [<-|[<-|[<-|[<-|[]]]]]; cbn [ast seq_of spans] in Hs.
  - destruct Hs as (c1 & g1 & H1 & c2 & g2 & H2 & c3 & g3 & H3 & c4 & g4 & H4
                    & g5 & H5 & Hg).
    destruct (cursor_in_spans _ _ _ _ _ _ Hc0 H1) as [Hc1 _].
    destruct (cursor_in_spans _ _ _ _ _ _ Hc1 H2) as [Hc2 _].
    destruct (cursor_in_spans _ _ _ _ _ _ Hc2 H3) as [Hc3 _].
    destruct (cursor_in_spans _ _ _ _ _ _ Hc3 H4) as [Hc4 _].
    destruct (spans_decimal_amount _ _ _ _ H5) as (w & Hw & Hshape).
    exists w. split; [|exact Hshape].
    apply (group_between text res 1 c4 (m_after res) w Hc4 Hw).
    rewrite Hg. reflexivity.
  - destruct Hs as (c1 & g1 & H1 & c2 & g2 & H2 & c3 & g3 & H3 & c4 & g4 & H4
                    & c5 & g5 & H5 & g6 & H6 & Hg).
    destruct (cursor_in_spans _ _ _ _ _ _ Hc0 H1) as [Hc1 _].
    destruct (cursor_in_spans _ _ _ _ _ _ Hc1 H2) as [Hc2 _].
    destruct (cursor_in_spans _ _ _ _ _ _ Hc2 H3) as [Hc3 _].
    destruct (cursor_in_spans _ _ _ _ _ _ Hc3 H4) as [Hc4 _].
    destruct (cursor_in_spans _ _ _ _ _ _ Hc4 H5) as [Hc5 _].
    destruct (spans_amount_number _ _ _ _ H6) as (w & Hw & Hshape).
    exists w. split; [|exact Hshape].
    apply (group_between text res 1 c5 (m_after res) w Hc5 Hw).
    rewrite Hg. reflexivity.
  - destruct Hs as (c1 & g1 & H1 & c2 & g2 & H2 & c3 & g3 & (g' & H3 & Hg)
                    & c4 & g4 & H4 & H5).
    destruct (cursor_in_spans _ _ _ _ _ _ Hc0 H1) as [Hc1 _].
    destruct (cursor_in_spans _ _ _ _ _ _ Hc1 H2) as [Hc2 _].
    destruct (spans_amount_number _ _ _ _ H3) as (w & Hw & Hshape).
    exists w. split; [|exact Hshape].
    apply (group_between text res 1 c2 c3 w Hc2 Hw).
    apply (spans_group_free (many space) eq_refl) in H4.
    assert (H6 : m_groups res = g4).
    { apply (spans_group_free
               (alt_of [lit_i "total"; lit_i "amount"; lit_i "due"]) eq_refl
               _ _ _ _ H5). }
    rewrite H6, H4, Hg. reflexivity.
  - destruct Hs as (c1 & g1 & H1 & c2 & g2 & H2 & g3 & H3 & Hg).
    destruct (cursor_in_spans _ _ _ _ _ _ Hc0 H1) as [Hc1 _].
    destruct (cursor_in_spans _ _ _ _ _ _ Hc1 H2) as [Hc2 _].
    destruct (spans_decimal_amount _ _ _ _ H3) as (w & Hw & Hshape).
    exists w. split; [|exact Hshape].
    apply (group_between text res 1 c2 (m_after res) w Hc2 Hw).
    rewrite Hg. reflexivity.
Qed.

Lemma labeled_total_decimal clean p v :
  In p [total_phrase; total_keyword; total_trailing] ->
  labeled_total clean p = Some v ->
  decimal_text v = true /\ is_positive (parseFloat v) = true.
Proof.
  intros Hp H.
  assert (Hg : global p = false)
    by (destruct Hp as [<-|[<-|[<-|[]]]]; reflexivity).
  assert (Hin : In p totalPatterns)
    by (destruct Hp as [<-|[<-|[<-|[]]]]; cbn; auto).
  unfold labeled_total in H. rewrite (js_match_first _ _ Hg) in H.
  destruct (exec (ast p) clean) as [res|] eqn:Ee; [|discriminate].
  change (at_index (?x :: ?l) 1) with (at_index l 0) in H.
  destruct (exec_sound _ _ _ Ee) as (c0 & Hc0 & _ & Hs).
  destruct (total_pattern_group clean p res Hin) as (w & Hw & Hshape); [eauto|].
  assert (Ha : at_index (map (group clean res) (List.seq 1 (group_count (ast p)))) 0
               = Some w).
  { destruct Hp as [<-|[<-|[<-|[]]]]; cbn [map List.seq at_index nth_error];
      try exact Hw;
      change (group_count _) with 1%nat; cbn [map List.seq at_index nth_error];
      exact Hw. }
  rewrite Ha in H.
  destruct (0 <? String.length w)%nat; [|discriminate].
  destruct (is_positive _) eqn:Epos; [|discriminate].
  injection H as <-. split; [now apply replace_first_decimal | exact Epos].
Qed.

Lemma extractTotal_decimal_shape text total :
  extractTotal text = Normal (Some total) ->
  decimal_text total = true /\ is_positive (parseFloat total) = true.
Proof.
  rewrite extractTotal_first_of. cbn [first_of]. intros H.
  destruct (labeled_total _ total_phrase) as [v|] eqn:E1.
  { injection H as <-. eapply labeled_total_decimal; [|exact E1]. cbn; auto. }
  destruct (labeled_total _ total_keyword) as [v|] eqn:E2.
  { injection H as <-. eapply labeled_total_decimal; [|exact E2]. cbn; auto. }
  destruct (labeled_total _ total_trailing) as [v|] eqn:E3.
  { injection H as <-. eapply labeled_total_decimal; [|exact E3]. cbn; auto. }
  destruct (largest_plausible (cleanText text)) as [v|] eqn:E4; [|discriminate].
  injection H as <-.
  pose proof (largest_plausible_spec (cleanText text)) as Hl.
  destruct (List.filter plausible (currency_amounts (cleanText text))) as [|a l] eqn:Ef;
    [congruence|].
  destruct Hl as (best & Hin & Hv & _). rewrite E4 in Hv. injection Hv as ->.
  rewrite <- Ef in Hin. apply List.filter_In in Hin. destruct Hin as [Hin Hpl].
  destruct (currency_amounts_spec _ _ Hin) as (res & captured & Hres & Hg & Hval & Ham).
  destruct (matchAll_sound _ _ _ Hres) as (c0 & Hc0 & _ & Hs).
  destruct (total_pattern_group (cleanText text) currency_amount res) as (w & Hw & Hshape);
    [cbn; auto | eauto |].
  rewrite Hg in Hw. injection Hw as ->. split.
  - rewrite Hval. now apply replace_first_decimal.
  - unfold plausible in Hpl. rewrite <- Ham.
    apply andb_true_iff in Hpl as [Hpl _]. now apply andb_true_iff in Hpl as [_ Hpl].
Qed.

(** X7.  A total that [extractTotal] returns is a decimal number: digits,
    optionally followed by a period and one or two digits, never a comma;
    and it stands for a number above 0. *)
Theorem extractTotal_decimal (text total : string) :
  extractTotal text = Normal (Some total) ->
  decimal_text total = true /\ is_positive (parseFloat total) = true.
Proof. apply extractTotal_decimal_shape. Qed.

(** The total of "Amount due 12,5 EUR" is "12.5". *)
Lemma extractTotal_decimal_witness :
  decimal_text "12.5" = true /\ is_positive (parseFloat "12.5") = true.
Proof.
  apply (extractTotal_decimal "Amount due 12,5 EUR" "12.5").
  vm_compute. reflexivity.
Defined.
(** ** Texts without the characters an expression needs *)

Lemma in_all_ascii a : In a all_ascii.
Proof.
  unfold all_ascii. apply in_map_iff. exists (nat_of_ascii a).
  split; [apply ascii_nat_embedding | apply in_seq].
  pose proof (nat_ascii_bounded a). lia.
Qed.

Lemma class_within_spec q p a : class_within q p = true -> q a = true -> p a = true.
Proof.
  unfold class_within. rewrite forallb_forall. intros H Hq.
  specialize (H a (in_all_ascii a)). rewrite Hq in H. exact H.
Qed.

Lemma some_char_app p : forall a b,
  some_char p (a ++ b) = some_char p a || some_char p b.
Proof.
  induction a as [|c a IH]; intros b; [reflexivity|].
  cbn [append some_char]. now rewrite IH, orb_assoc.
Qed.

Lemma some_char_occurs p d s :
  occurs_in d s -> some_char p d = true -> some_char p s = true.
Proof.
  intros (x & y & ->) H. rewrite !some_char_app, H.
  now rewrite orb_true_r.
Qed.

Lemma spans_requires p r : requires p r = true ->
  forall c g c' g', spans r c g c' g' ->
  exists w, reads c w c' /\ some_char p w = true.
Proof.
  induction r as [|q|r1 IH1 r2 IH2|r1 IH1 r2 IH2|greedy lo hi r1 IH1|n r1 IH1| | |];
    intros Hreq c g c' g' H; cbn [requires] in Hreq; try discriminate;
    cbn [spans] in H.
  - destruct H as (a & s' & E & Hq & -> & _). exists (String a "").
    split; [split; cbn [rest pos append String.length]; [exact E | lia]|].
    cbn [some_char]. now rewrite (class_within_spec q p a Hreq Hq).
  - destruct H as (c1 & g1 & H1 & H2).
    destruct (spans_reads _ _ _ _ _ H1) as (w1 & Hw1).
    destruct (spans_reads _ _ _ _ _ H2) as (w2 & Hw2).
    apply orb_true_iff in Hreq. destruct Hreq as [Hreq|Hreq].
    + destruct (IH1 Hreq _ _ _ _ H1) as (w & Hw & Hs).
      exists (w ++ w2). split; [eapply reads_trans; eauto|].
      now rewrite some_char_app, Hs.
    + destruct (IH2 Hreq _ _ _ _ H2) as (w & Hw & Hs).
      exists (w1 ++ w). split; [eapply reads_trans; eauto|].
      now rewrite some_char_app, Hs, orb_true_r.
  - apply andb_true_iff in Hreq as [R1 R2]. destruct H as [H|H]; eauto.
  - apply andb_true_iff in Hreq as [Hreq R1]. apply andb_true_iff in Hreq as [Hlo Hhi].
    apply Nat.ltb_lt in Hlo. destruct H as (n & Hn & H).
    assert (Hpos : (0 < n)%nat).
    { unfold within in Hn. destruct hi as [h|]; [apply Nat.leb_le in Hhi; lia | lia]. }
    destruct n as [|n]; [lia|]. cbn [repeats] in H.
    destruct H as (c1 & g1 & H1 & H2).
    destruct (IH1 R1 _ _ _ _ H1) as (w & Hw & Hs).
    destruct (repeats_reads (spans r1) (spans_reads r1) _ _ _ _ _ H2) as (w2 & Hw2).
    exists (w ++ w2). split; [eapply reads_trans; eauto|].
    now rewrite some_char_app, Hs.
  - destruct H as (g1 & H & _). eauto.
Qed.

Lemma spans_in_text p r text c0 c' g' :
  requires p r = true -> cursor_in text c0 -> spans r c0 no_captures c' g' ->
  some_char p text = true.
Proof.
  intros Hreq (pre & -> & _) Hs.
  destruct (spans_requires p r Hreq _ _ _ _ Hs) as (w & [Hr _] & Hw).
  rewrite Hr, !some_char_app, Hw. now rewrite orb_true_r.
Qed.

(** An expression that needs a character finds nothing in a text
    without one. *)
Lemma exec_requires p r text :
  requires p r = true -> some_char p text = false -> exec r text = None.
Proof.
  intros Hreq Hno. destruct (exec r text) as [res|] eqn:E; [|reflexivity].
  destruct (exec_sound _ _ _ E) as (c0 & Hc0 & _ & Hs).
  rewrite (spans_in_text p r text _ _ _ Hreq Hc0 Hs) in Hno. discriminate.
Qed.

Lemma matchAll_requires p r text :
  requires p r = true -> some_char p text = false -> matchAll r text = [].
Proof.
  intros Hreq Hno. destruct (matchAll r text) as [|res l] eqn:E; [reflexivity|].
  destruct (matchAll_sound r text res) as (c0 & Hc0 & _ & Hs);
    [rewrite E; left; reflexivity|].
  rewrite (spans_in_text p r text _ _ _ Hreq Hc0 Hs) in Hno. discriminate.
Qed.

Lemma some_char_collapse p : forall s b,
  p " "%char = false -> some_char p s = false ->
  some_char p (collapse_from b s) = false.
Proof.
  induction s as [|c s IH]; intros b Hsp H; [reflexivity|].
  cbn [some_char] in H. apply orb_false_iff in H as [Hc Hs].
  cbn [collapse_from]. destruct (isWhiteSpace c).
  - destruct b; [now apply IH|]. cbn [some_char]. rewrite Hsp. now apply IH.
  - cbn [some_char]. rewrite Hc. now apply IH.
Qed.

Lemma some_char_none_occurs p d s :
  occurs_in d s -> some_char p s = false -> some_char p d = false.
Proof.
  intros Ho Hs. destruct (some_char p d) eqn:E; [|reflexivity].
  rewrite (some_char_occurs p d s Ho E) in Hs. discriminate.
Qed.

Lemma some_char_cleanText p text :
  p " "%char = false -> some_char p text = false ->
  some_char p (cleanText text) = false.
Proof.
  intros Hsp H. unfold cleanText. rewrite replace_all_space.
  eapply some_char_none_occurs; [apply trim_occurs|].
  now apply some_char_collapse.
Qed.

Lemma date_patterns_need_digit_1 : requires isDigit (ast date_numeric) = true.
Proof. vm_compute. reflexivity. Qed.

Lemma date_patterns_need_digit_2 : requires isDigit (ast date_month) = true.
Proof. vm_compute. reflexivity. Qed.

Lemma date_patterns_need_digit_3 : requires isDigit (ast date_iso) = true.
Proof. vm_compute. reflexivity. Qed.

Lemma digits_need_digit : requires isDigit (many1 digit) = true.
Proof. vm_compute. reflexivity. Qed.

Lemma total_patterns_need_digit_1 : requires isDigit (ast total_phrase) = true.
Proof. vm_compute. reflexivity. Qed.

Lemma total_patterns_need_digit_2 : requires isDigit (ast total_keyword) = true.
Proof. vm_compute. reflexivity. Qed.

Lemma total_patterns_need_digit_3 : requires isDigit (ast total_trailing) = true.
Proof. vm_compute. reflexivity. Qed.

Lemma total_patterns_need_digit_4 : requires isDigit (ast currency_amount) = true.
Proof. vm_compute. reflexivity. Qed.

(** X8.  In a text without a digit no date and no total is found: every
    pattern of the two extractors needs a digit. *)
Theorem no_digit_no_date_no_total (text : string) :
  some_char isDigit text = false ->
  extractDate text = Normal None /\ extractTotal text = Normal None.
Proof.
  intros Hno. pose proof (some_char_cleanText isDigit text eq_refl Hno) as Hc.
  split.
  - rewrite extractDate_first_of. unfold literal_match.
    rewrite (exec_requires isDigit (ast date_numeric) _ date_patterns_need_digit_1 Hc).
    rewrite (exec_requires isDigit (ast date_month) _ date_patterns_need_digit_2 Hc).
    rewrite (exec_requires isDigit (ast date_iso) _ date_patterns_need_digit_3 Hc).
    cbn [option_map first_of]. unfold keyword_date.
    destruct (exec (ast date_keyword) (cleanText text)) as [res|]; [|reflexivity].
    destruct (group (cleanText text) res 1) as [captured|] eqn:Eg; [|reflexivity].
    assert (Hd : some_char isDigit (trim captured) = false).
    { eapply some_char_none_occurs; [|exact Hc].
      eapply occurs_in_trans; [apply trim_occurs|].
      unfold group in Eg. destruct (m_groups res 1) as [[i j]|]; [|discriminate].
      injection Eg as <-. apply substring_occurs. }
    unfold test at 1.
    rewrite (exec_requires isDigit (many1 digit) _ digits_need_digit Hd). reflexivity.
  - rewrite extractTotal_first_of. unfold labeled_total.
    rewrite !js_match_first by reflexivity.
    rewrite (exec_requires isDigit (ast total_phrase) _ total_patterns_need_digit_1 Hc).
    rewrite (exec_requires isDigit (ast total_keyword) _ total_patterns_need_digit_2 Hc).
    rewrite (exec_requires isDigit (ast total_trailing) _ total_patterns_need_digit_3 Hc).
    cbn [first_of]. unfold largest_plausible, currency_amounts.
    rewrite (matchAll_requires isDigit (ast currency_amount) _
               total_patterns_need_digit_4 Hc).
    reflexivity.
Qed.

(** A text of two lines without a digit. *)
Lemma no_digit_no_date_no_total_witness :
  extractDate (unlines ["Total due"; "Date: tomorrow"]) = Normal None /\
  extractTotal (unlines ["Total due"; "Date: tomorrow"]) = Normal None.
Proof.
  apply (no_digit_no_date_no_total (unlines ["Total due"; "Date: tomorrow"])).
  vm_compute. reflexivity.
Defined.
(** ** Cleaned texts *)

Lemma trimEnd_step c s :
  trimEnd (String c s)
  = match trimEnd s with
    | EmptyString => if isWhiteSpace c then EmptyString else String c EmptyString
    | t => String c t
    end.
Proof. reflexivity. Qed.

Lemma trimEnd_twice : forall s, trimEnd (trimEnd s) = trimEnd s.
Proof.
  induction s as [|c s IH]; [reflexivity|].
  rewrite trimEnd_step. destruct (trimEnd s) as [|a t] eqn:E.
  - destruct (isWhiteSpace c) eqn:Ec; [reflexivity|].
    rewrite trimEnd_step. cbn [trimEnd]. now rewrite Ec.
  - rewrite trimEnd_step, IH. reflexivity.
Qed.

Lemma trimEnd_fixed_suffix : forall a b,
  trimEnd (a ++ b) = a ++ b -> trimEnd b = b.
Proof.
  induction a as [|c a IH]; intros b H; [exact H|].
  cbn [append] in H. rewrite trimEnd_step in H.
  destruct (trimEnd (a ++ b)) as [|x t] eqn:E.
  - destruct (isWhiteSpace c); [discriminate|].
    injection H as H. apply IH. now rewrite E.
  - injection H as H. apply IH. now rewrite E.
Qed.

Lemma trimStart_twice : forall s, trimStart (trimStart s) = trimStart s.
Proof.
  induction s as [|c s IH]; [reflexivity|].
  cbn [trimStart]. destruct (isWhiteSpace c) eqn:E; [exact IH|].
  cbn [trimStart]. now rewrite E.
Qed.

Lemma trimStart_fixed_head c s :
  trimStart (String c s) = String c s -> isWhiteSpace c = false.
Proof.
  cbn [trimStart]. destruct (isWhiteSpace c); [|reflexivity].
  intros H. pose proof (trimStart_length s) as Hl.
  apply (f_equal String.length) in H. cbn [String.length] in H. lia.
Qed.

Lemma trimStart_trimEnd s :
  trimStart s = s -> trimStart (trimEnd s) = trimEnd s.
Proof.
  destruct s as [|c s]; [reflexivity|]. intros H.
  pose proof (trimStart_fixed_head c s H) as Hc.
  rewrite trimEnd_step.
  destruct (trimEnd s); rewrite ?Hc; cbn [trimStart]; rewrite ?Hc; reflexivity.
Qed.

Lemma collapse_single_spaced : forall s b,
  single_spaced_from b s = true -> collapse_from b s = s.
Proof.
  induction s as [|c s IH]; intros b H; [reflexivity|].
  cbn [single_spaced_from] in H. cbn [collapse_from].
  destruct (isWhiteSpace c).
  - apply andb_true_iff in H as [H Hs]. apply andb_true_iff in H as [Hc Hb].
    apply negb_true_iff in Hb. subst b.
    unfold is_char in Hc. apply Ascii.eqb_eq in Hc. subst c.
    now rewrite IH.
  - now rewrite IH.
Qed.

Lemma cleanText_trimmed text :
  trimStart (cleanText text) = cleanText text /\
  trimEnd (cleanText text) = cleanText text.
Proof.
  unfold cleanText, trim. split.
  - apply trimStart_trimEnd, trimStart_twice.
  - apply trimEnd_twice.
Qed.

Lemma cleanText_fixed s :
  single_spaced s = true -> trimStart s = s -> trimEnd s = s -> cleanText s = s.
Proof.
  intros Hs H1 H2. unfold cleanText. rewrite replace_all_space.
  unfold collapse_ws. rewrite (collapse_single_spaced s false Hs).
  unfold trim. now rewrite H1, H2.
Qed.

(** X9.  Cleaning a cleaned text changes nothing, so the date and the
    total found in a text are those found in its cleaned form: they do not
    depend on how the text is broken into lines or spaced out. *)
Theorem cleanText_idempotent (text : string) :
  cleanText (cleanText text) = cleanText text /\
  extractDate (cleanText text) = extractDate text /\
  extractTotal (cleanText text) = extractTotal text.
Proof.
  assert (H : cleanText (cleanText text) = cleanText text).
  { destruct (cleanText_trimmed text) as [H1 H2].
    apply cleanText_fixed; [apply cleanText_single_spaced | exact H1 | exact H2]. }
  split; [exact H|].
  split; [unfold extractDate | unfold extractTotal]; now rewrite H.
Qed.

(** ** The keyword family of extractDate *)

Lemma single_spaced_inside : forall pre s b,
  single_spaced_from b (pre ++ s) = true ->
  exists b', single_spaced_from b' s = true.
Proof.
  induction pre as [|c pre IH]; intros s b H; [eauto|].
  cbn [append single_spaced_from] in H.
  destruct (isWhiteSpace c).
  - apply andb_true_iff in H as [_ H]. eauto.
  - eauto.
Qed.

Lemma single_spaced_white b a s :
  single_spaced_from b (String a s) = true -> isWhiteSpace a = true ->
  a = " "%char /\ single_spaced_from true s = true.
Proof.
  cbn [single_spaced_from]. intros H Ha. rewrite Ha in H.
  apply andb_true_iff in H as [H Hs]. apply andb_true_iff in H as [Hc _].
  unfold is_char in Hc. apply Ascii.eqb_eq in Hc. auto.
Qed.

Lemma single_spaced_pair b a a' s :
  single_spaced_from b (String a (String a' s)) = true ->
  isWhiteSpace a = true -> isWhiteSpace a' = true -> False.
Proof.
  intros H Ha Ha'. apply single_spaced_white in H as [_ H]; [|exact Ha].
  cbn [single_spaced_from] in H. rewrite Ha' in H.
  apply andb_true_iff in H as [H _]. apply andb_true_iff in H as [_ H].
  discriminate H.
Qed.

(** In a cleaned text the keyword pattern ends at the end of the text:
    there is no line feed and no run of two white spaces for it to end
    at. *)
Lemma keyword_match_to_end clean res :
  single_spaced clean = true ->
  exec (ast date_keyword) clean = Some res ->
  exists before captured,
    clean = before ++ captured /\ group clean res 1 = Some captured.
Proof.
  intros Hss He. destruct (exec_sound _ _ _ He) as (c0 & Hc0 & _ & Hs).
  cbn [ast date_keyword seq_of] in Hs.
  destruct Hs as (c1 & g1 & H1 & c2 & g2 & H2 & c3 & g3 & (g' & H3 & Hg) & H4).
  destruct (cursor_in_spans _ _ _ _ _ _ Hc0 H1) as [Hc1 _].
  destruct (cursor_in_spans _ _ _ _ _ _ Hc1 H2) as [Hc2 _].
  destruct (cursor_in_spans _ _ _ _ _ _ Hc2 H3) as [Hc3 (w & Hw & _)].
  assert (Hend : rest c3 = "" /\ m_groups res = g3).
  { destruct Hc3 as (pre & Ht & _). unfold single_spaced in Hss. rewrite Ht in Hss.
    apply single_spaced_inside in Hss. destruct Hss as (b' & Hss).
    cbn [alt_of spans] in H4. destruct H4 as [H4|[H4|H4]].
    - exfalso. unfold chr in H4. cbn [spans] in H4.
      destruct H4 as (a & s' & E & Ha & _). rewrite E in Hss.
      unfold is_char in Ha. apply Ascii.eqb_eq in Ha. subst a.
      apply single_spaced_white in Hss as [Hss _]; [discriminate Hss | reflexivity].
    - destruct H4 as (E & _ & ->). auto.
    - exfalso. unfold at_least in H4. cbn [spans] in H4.
      destruct H4 as (n & Hn & H4). unfold within in Hn.
      apply repeats_class in H4. destruct H4 as (ws & [Hr _] & Hl & Ha & _).
      destruct ws as [|a [|a' ws]]; cbn [String.length] in Hl; try lia.
      rewrite Hr in Hss. cbn [append] in Hss. cbn [all_chars] in Ha.
      apply andb_true_iff in Ha as [Ha Ha']. apply andb_true_iff in Ha' as [Ha' _].
      exact (single_spaced_pair _ _ _ _ Hss Ha Ha'). }
  destruct Hend as [Hend Hg3].
  destruct Hc2 as (pre & Ht & Hp). exists pre, w. split.
  - destruct Hw as [Hr _]. rewrite Ht, Hr, Hend. now rewrite append_empty_r.
  - apply (group_between clean res 1 c2 c3 w); [exists pre; auto | exact Hw |].
    rewrite Hg3, Hg. reflexivity.
Qed.

(** X10.  A date found by the keyword family alone is the end of the
    cleaned text: the fragment after the label runs up to the last
    character, whatever follows the date. *)
Theorem keyword_date_runs_to_end (text d : string) :
  first_of [literal_match date_numeric (cleanText text);
            literal_match date_month (cleanText text);
            literal_match date_iso (cleanText text)] = None ->
  extractDate text = Normal (Some d) ->
  exists before, cleanText text = before ++ d.
Proof.
  rewrite extractDate_first_of. cbn [first_of]. intros Hnone H.
  destruct (literal_match date_numeric _); [discriminate|].
  destruct (literal_match date_month _); [discriminate|].
  destruct (literal_match date_iso _); [discriminate|].
  injection H as H. unfold keyword_date in H.
  destruct (exec (ast date_keyword) (cleanText text)) as [res|] eqn:He; [|discriminate].
  destruct (keyword_match_to_end _ _ (cleanText_single_spaced text) He)
    as (pre & captured & Ht & Hg).
  rewrite Hg in H. destruct (_ && _); [|discriminate]. injection H as <-.
  destruct (trimStart_split captured) as (run & Hrun).
  exists (pre ++ run). unfold trim.
  destruct (cleanText_trimmed text) as [_ Hend].
  rewrite Ht, Hrun, <- append_assoc in Hend.
  apply trimEnd_fixed_suffix in Hend. rewrite Hend.
  rewrite Ht. rewrite Hrun at 1. now rewrite append_assoc.
Qed.

(** The date of "Invoice Date: March 5. Thank you": the rest of the
    text. *)
Lemma keyword_date_runs_to_end_witness :
  exists before,
    cleanText "Invoice Date: March 5. Thank you" = before ++ "March 5. Thank you".
Proof.
  apply (keyword_date_runs_to_end "Invoice Date: March 5. Thank you").
  - vm_compute. reflexivity.
  - vm_compute. reflexivity.
Defined.

(** ** The merchant is a piece of one line *)

Lemma split_lines_no_feed : forall text line,
  In line (split_lines text) -> some_char (is_char "010") line = false.
Proof.
  induction text as [|c text IH]; intros line H; cbn [split_lines] in H.
  - destruct H as [<-|[]]. reflexivity.
  - destruct (is_char "010" c) eqn:E.
    + destruct H as [<-|H]; [reflexivity | auto].
    + destruct (split_lines text) as [|l ls].
      * destruct H as [<-|[]]. cbn [some_char]. now rewrite E.
      * destruct H as [<-|H].
        -- cbn [some_char]. rewrite E. apply IH. now left.
        -- apply IH. now right.
Qed.

Lemma merchant_lines_source text line :
  In line (merchant_lines text) ->
  exists raw, In raw (split_lines text) /\ line = trim raw.
Proof.
  unfold merchant_lines. intros H. apply List.filter_In in H as [H _].
  apply in_map_iff in H. destruct H as (raw & <- & H). eauto.
Qed.

Lemma labeled_merchant_occurs p line name :
  In p merchantPatterns -> labeled_merchant p line = Some name -> occurs_in name line.
Proof.
  intros Hp H. destruct (labeled_merchant_spec p line name Hp H)
    as (res & captured & _ & Hg & _ & ->).
  eapply occurs_in_trans; [apply trim_occurs|].
  unfold group in Hg. destruct (m_groups res 1) as [[i j]|]; [|discriminate].
  injection Hg as <-. apply substring_occurs.
Qed.

Lemma firstn_subset {A} (l : list A) : forall n x, In x (firstn n l) -> In x l.
Proof.
  induction l as [|y l IH]; intros [|n] x H; cbn [firstn] in H; try contradiction.
  destruct H as [<-|H]; [now left | right; eauto].
Qed.

(** X11.  The merchant returned is a piece of one line of the text: it
    never holds a line feed and never joins two lines. *)
Theorem extractMerchant_within_line (text name : string) :
  extractMerchant text = Some name ->
  exists raw, In raw (split_lines text) /\ occurs_in name raw /\
              some_char (is_char "010") name = false.
Proof.
  intros H.
  assert (Hline : exists line, In line (merchant_lines text) /\ occurs_in name line).
  { rewrite extractMerchant_labeled in H.
    destruct (merchant_line_loop merchant_label _) as [n|] eqn:E1.
    { injection H as ->. apply merchant_line_loop_Some in E1.
      destruct E1 as (front & line & back & Hl & _ & Hm).
      exists line. split; [rewrite Hl; apply in_elt|].
      eapply labeled_merchant_occurs; [|exact Hm]. cbn; auto. }
    destruct (merchant_line_loop merchant_phrase _) as [n|] eqn:E2.
    { injection H as ->. apply merchant_line_loop_Some in E2.
      destruct E2 as (front & line & back & Hl & _ & Hm).
      exists line. split; [rewrite Hl; apply in_elt|].
      eapply labeled_merchant_occurs; [|exact Hm]. cbn; auto. }
    pose proof (header_scan_best (header_candidates text)) as Hb.
    destruct (js_sort score_not_after _) as [|best others]; [discriminate|].
    injection H as <-. destruct Hb as (front & back & Hc & _).
    exists (line best). split; [|apply occurs_in_refl].
    assert (Hin : In (line best) (header_candidates text))
      by (rewrite Hc; apply in_elt).
    unfold header_candidates in Hin. apply List.filter_In in Hin as [Hin _].
    eapply firstn_subset; eauto. }
  destruct Hline as (line & Hin & Ho).
  destruct (merchant_lines_source text line Hin) as (raw & Hraw & ->).
  exists raw. split; [exact Hraw|].
  assert (Hor : occurs_in name raw)
    by (eapply occurs_in_trans; [exact Ho | apply trim_occurs]).
  split; [exact Hor|].
  eapply some_char_none_occurs; [exact Hor | now apply (split_lines_no_feed text)].
Qed.

(** The merchant of three lines, the second with a label. *)
Lemma extractMerchant_within_line_witness :
  exists raw,
    In raw (split_lines (unlines ["Receipt"; "  Store: Corner Shop  "; "Thanks"])) /\
    occurs_in "Corner Shop" raw /\
    some_char (is_char "010") "Corner Shop" = false.
Proof.
  apply (extractMerchant_within_line
           (unlines ["Receipt"; "  Store: Corner Shop  "; "Thanks"])).
  vm_compute. reflexivity.
Defined.
(** ** The hook and the component *)

Lemma apply_updates_app st a b :
  apply_updates st (a ++ b)%list = apply_updates (apply_updates st a) b.
Proof. apply foldl_app. Qed.

Lemma apply_updates_cons st u calls :
  apply_updates st (u :: calls) = apply_updates (apply_update st u) calls.
Proof. reflexivity. Qed.

Lemma apply_progress_only calls : progress_only calls -> forall st,
  isProcessing (apply_updates st calls) = isProcessing st /\
  result (apply_updates st calls) = result st /\
  error (apply_updates st calls) = error st /\
  imagePreview (apply_updates st calls) = imagePreview st /\
  activeTab (apply_updates st calls) = activeTab st /\
  toasts (apply_updates st calls) = toasts st.
Proof.
  induction 1 as [|u calls (p & ->) _ IH]; intros st; [repeat split|].
  cbn [apply_updates foldl]. fold (apply_updates (apply_update st (SetProgress p)) calls).
  destruct (IH (apply_update st (SetProgress p))) as (H1 & H2 & H3 & H4 & H5 & H6).
  rewrite H1, H2, H3, H4, H5, H6. repeat split.
Qed.

Lemma progress_only_logger messages : progress_only (flat_map logger messages).
Proof.
  induction messages as [|m messages IH]; [constructor|].
  cbn [flat_map]. unfold logger at 1.
  destruct (String.eqb _ _); [|exact IH].
  constructor; [eauto | exact IH].
Qed.

Lemma progress_only_app a b :
  progress_only a -> progress_only b -> progress_only (a ++ b)%list.
Proof. intros Ha Hb. unfold progress_only. rewrite List.Forall_app. auto. Qed.

Lemma sets_result_or_throws_worker {A} (p : pending A) (rest : A -> action unit) :
  (forall x, sets_result_or_throws (rest x)) ->
  sets_result_or_throws (and_then (await_worker p) rest).
Proof.
  intros Hrest. unfold and_then, await_worker.
  destruct (settles p) as [x|reason|].
  - destruct (Hrest x) as (calls & Hp & [(bill & E)|[(reason & E)|E]]); rewrite E.
    + exists (flat_map logger (logged p) ++ calls)%list.
      split; [apply progress_only_app; [apply progress_only_logger | exact Hp]|].
      left. exists bill. now rewrite <- app_assoc.
    + exists (flat_map logger (logged p) ++ calls)%list.
      split; [apply progress_only_app; [apply progress_only_logger | exact Hp]|].
      right. left. eauto.
    + exists (flat_map logger (logged p) ++ calls)%list.
      split; [apply progress_only_app; [apply progress_only_logger | exact Hp]|].
      right. right. reflexivity.
  - exists (flat_map logger (logged p)). split; [apply progress_only_logger|].
    right. left. eauto.
  - exists (flat_map logger (logged p)). split; [apply progress_only_logger|].
    right. right. reflexivity.
Qed.

Lemma sets_result_or_throws_await {A} (p : settled A) (rest : A -> action unit) :
  (forall x, sets_result_or_throws (rest x)) ->
  sets_result_or_throws (and_then (await p) rest).
Proof.
  intros Hrest. unfold and_then, await.
  destruct p as [x|reason|].
  - destruct (Hrest x) as (calls & Hp & [(bill & E)|[(reason & E)|E]]); rewrite E.
    + exists calls. split; [exact Hp|]. left. eauto.
    + exists calls. split; [exact Hp|]. right. left. eauto.
    + exists calls. split; [exact Hp|]. right. right. reflexivity.
  - exists []. split; [constructor|]. right. left. eauto.
  - exists []. split; [constructor|]. right. right. reflexivity.
Qed.

Lemma extractFields_normal text :
  exists bill, extractFields text = Normal bill /\ fullText bill = text.
Proof.
  destruct (extractDate_normal text) as (d & Hd).
  destruct (extractTotal_normal text) as (t & Ht).
  exists {| fullText := text; date := d; total := t; merchant := extractMerchant text |}.
  unfold extractFields. rewrite Hd, Ht. split; reflexivity.
Qed.

(** The [try] block of [processImage] after its first three calls. *)
Lemma processImage_body w imageFile :
  sets_result_or_throws
    (and_then (await (preprocessImage_promise w imageFile)) (fun processedImage =>
     and_then (await_worker (createWorker w)) (fun _ =>
     and_then (await_worker (loadLanguage w)) (fun _ =>
     and_then (await_worker (initialize w)) (fun _ =>
     and_then (await_worker (setParameters w)) (fun _ =>
     and_then (await_worker (recognize w processedImage)) (fun text =>
     and_then (await_worker (terminate w)) (fun _ =>
     and_then (evaluate (extractFields text)) (fun billData =>
     call (SetResult (Some billData))))))))))).
Proof.
  apply sets_result_or_throws_await. intros processedImage.
  do 4 (apply sets_result_or_throws_worker; intros _).
  apply sets_result_or_throws_worker. intros text.
  apply sets_result_or_throws_worker. intros _.
  destruct (extractFields_normal text) as (bill & E & _). rewrite E.
  exists []. split; [constructor|]. left. exists bill. reflexivity.
Qed.

Lemma processImage_calls w imageFile :
  exists calls, progress_only calls /\
    ((exists bill,
        processImage w imageFile
        = (([SetIsProcessing true; SetProgress 0%float; SetError None] ++ calls
            ++ [SetResult (Some bill); SetIsProcessing false])%list,
           Fulfilled tt)) \/
     (exists reason,
        processImage w imageFile
        = (([SetIsProcessing true; SetProgress 0%float; SetError None] ++ calls
            ++ [SetError (Some (message_of reason)); SetIsProcessing false])%list,
           Fulfilled tt)) \/
     processImage w imageFile
     = (([SetIsProcessing true; SetProgress 0%float; SetError None] ++ calls)%list,
        Pending)).
Proof.
  destruct (processImage_body w imageFile)
    as (calls & Hp & [(bill & E)|[(reason & E)|E]]);
    exists calls; (split; [exact Hp|]);
    [left; exists bill | right; left; exists reason | right; right];
    unfold processImage; cbn [and_then call]; rewrite E;
    cbn [try_catch finally call app]; now rewrite <- ?app_assoc.
Qed.

Lemma processImage_never_rejects w imageFile :
  snd (processImage w imageFile) = Fulfilled tt \/
  snd (processImage w imageFile) = Pending.
Proof.
  destruct (processImage_calls w imageFile)
    as (calls & _ & [(b & ->) | [(r & ->) | -> ]]); auto.
Qed.

Lemma processImage_load_failed w imageFile :
  load w imageFile = LoadFailed ->
  processImage w imageFile
  = ([SetIsProcessing true; SetProgress 0%float; SetError None;
      SetError (Some "Failed to load image for preprocessing");
      SetIsProcessing false], Fulfilled tt).
Proof.
  intros Hl. unfold processImage, preprocessImage_promise. rewrite Hl. reflexivity.
Qed.

Lemma processImage_onload_throws w imageFile :
  load w imageFile = OnloadThrows ->
  processImage w imageFile
  = ([SetIsProcessing true; SetProgress 0%float; SetError None], Pending).
Proof.
  intros Hl. unfold processImage, preprocessImage_promise. rewrite Hl. reflexivity.
Qed.

(** The body of [processImage] does not stay pending when none of the
    operations it awaits does. *)
Lemma settles_worker {A} (p : pending A) (rest : A -> action unit) :
  settles p <> Pending ->
  (forall x, snd (rest x) <> Pending) ->
  snd (and_then (await_worker p) rest) <> Pending.
Proof.
  intros Hp Hrest. unfold and_then, await_worker.
  destruct (settles p) as [x|reason|]; [|discriminate|contradiction].
  specialize (Hrest x). destruct (rest x) as [more outcome]. exact Hrest.
Qed.

Lemma processImage_not_pending w imageFile :
  load w imageFile <> OnloadThrows ->
  load w imageFile <> NoEvent ->
  settles (createWorker w) <> Pending ->
  settles (loadLanguage w) <> Pending ->
  settles (initialize w) <> Pending ->
  settles (setParameters w) <> Pending ->
  (forall processedImage, settles (recognize w processedImage) <> Pending) ->
  settles (terminate w) <> Pending ->
  snd (processImage w imageFile) = Fulfilled tt.
Proof.
  intros Hl1 Hl2 H1 H2 H3 H4 H5 H6.
  assert (Hbody : snd
    (and_then (await (preprocessImage_promise w imageFile)) (fun processedImage =>
     and_then (await_worker (createWorker w)) (fun _ =>
     and_then (await_worker (loadLanguage w)) (fun _ =>
     and_then (await_worker (initialize w)) (fun _ =>
     and_then (await_worker (setParameters w)) (fun _ =>
     and_then (await_worker (recognize w processedImage)) (fun text =>
     and_then (await_worker (terminate w)) (fun _ =>
     and_then (evaluate (extractFields text)) (fun billData =>
     call (SetResult (Some billData))))))))))) <> Pending).
  { assert (Hrest : forall processedImage, snd
      (and_then (await_worker (createWorker w)) (fun _ =>
       and_then (await_worker (loadLanguage w)) (fun _ =>
       and_then (await_worker (initialize w)) (fun _ =>
       and_then (await_worker (setParameters w)) (fun _ =>
       and_then (await_worker (recognize w processedImage)) (fun text =>
       and_then (await_worker (terminate w)) (fun _ =>
       and_then (evaluate (extractFields text)) (fun billData =>
       call (SetResult (Some billData)))))))))) <> Pending).
    { intros processedImage.
      apply settles_worker; [exact H1|]. intros _.
      apply settles_worker; [exact H2|]. intros _.
      apply settles_worker; [exact H3|]. intros _.
      apply settles_worker; [exact H4|]. intros _.
      apply settles_worker; [apply H5|]. intros text.
      apply settles_worker; [exact H6|]. intros _.
      destruct (extractFields_normal text) as (bill & E & _). rewrite E.
      discriminate. }
    unfold preprocessImage_promise, and_then at 1, await.
    destruct (load w imageFile) as [img| | | | |reason];
      try discriminate; try contradiction.
    specialize (Hrest (toDataURL w (preprocessImage img))).
    destruct (and_then (await_worker (createWorker w)) _) as [more outcome].
    exact Hrest. }
  destruct (processImage_body w imageFile)
    as (calls & Hp & [(bill & E)|[(reason & E)|E]]).
  - unfold processImage. cbn [and_then call]. rewrite E. reflexivity.
  - unfold processImage. cbn [and_then call]. rewrite E. reflexivity.
  - rewrite E in Hbody. now elim Hbody.
Qed.

(** The state after the calls of a run, for each way it can end. *)
Lemma apply_processImage_calls st calls last :
  progress_only calls ->
  isProcessing
    (apply_updates st ([SetIsProcessing true; SetProgress 0%float; SetError None]
                       ++ calls ++ last))
  = isProcessing
      (apply_updates
         {| isProcessing := true; progress := progress st; result := result st;
            error := None; imagePreview := imagePreview st;
            activeTab := activeTab st; toasts := toasts st |} last) /\
  result
    (apply_updates st ([SetIsProcessing true; SetProgress 0%float; SetError None]
                       ++ calls ++ last))
  = result
      (apply_updates
         {| isProcessing := true; progress := progress st; result := result st;
            error := None; imagePreview := imagePreview st;
            activeTab := activeTab st; toasts := toasts st |} last) /\
  error
    (apply_updates st ([SetIsProcessing true; SetProgress 0%float; SetError None]
                       ++ calls ++ last))
  = error
      (apply_updates
         {| isProcessing := true; progress := progress st; result := result st;
            error := None; imagePreview := imagePreview st;
            activeTab := activeTab st; toasts := toasts st |} last) /\
  toasts
    (apply_updates st ([SetIsProcessing true; SetProgress 0%float; SetError None]
                       ++ calls ++ last))
  = toasts
      (apply_updates
         {| isProcessing := true; progress := progress st; result := result st;
            error := None; imagePreview := imagePreview st;
            activeTab := activeTab st; toasts := toasts st |} last).
Proof.
  intros Hp. rewrite !apply_updates_app.
  set (st0 := apply_updates st [SetIsProcessing true; SetProgress 0%float; SetError None]).
  destruct (apply_progress_only calls Hp st0) as (H1 & H2 & H3 & H4 & H5 & H6).
  assert (Hlast : forall a b : app_state,
            isProcessing a = isProcessing b -> result a = result b ->
            error a = error b -> toasts a = toasts b ->
            isProcessing (apply_updates a last) = isProcessing (apply_updates b last) /\
            result (apply_updates a last) = result (apply_updates b last) /\
            error (apply_updates a last) = error (apply_updates b last) /\
            toasts (apply_updates a last) = toasts (apply_updates b last)).
  { clear. induction last as [|u last IH]; intros a b Ha Hb Hc Hd; [auto|].
    rewrite !apply_updates_cons. apply IH;
      destruct u; cbn [apply_update isProcessing result error toasts]; congruence. }
  apply Hlast; [rewrite H1|rewrite H2|rewrite H3|rewrite H6]; reflexivity.
Qed.

(** X12.  [processImage] never rejects, whatever fails inside: it is
    fulfilled, or it stays pending.  When it is fulfilled, [isProcessing]
    is false and either the result is a new record and there is no error,
    or the error is a message and the result is the one of before; a
    failed load of the image gives the message of [preprocessImage].  It
    is fulfilled whenever every operation it awaits settles.  When it
    stays pending, [isProcessing] stays true with no error and the result
    of before: so it is when a call to the canvas throws inside [onload],
    after the first three calls. *)
Theorem processImage_settles (w : world) (imageFile : image_source)
    (st : app_state) :
  (snd (processImage w imageFile) = Fulfilled tt \/
   snd (processImage w imageFile) = Pending) /\
  (snd (processImage w imageFile) = Fulfilled tt ->
   isProcessing (apply_updates st (fst (processImage w imageFile))) = false /\
   ((exists bill,
       result (apply_updates st (fst (processImage w imageFile))) = Some bill /\
       error (apply_updates st (fst (processImage w imageFile))) = None) \/
    (exists message,
       error (apply_updates st (fst (processImage w imageFile))) = Some message /\
       result (apply_updates st (fst (processImage w imageFile))) = result st))) /\
  (snd (processImage w imageFile) = Pending ->
   isProcessing (apply_updates st (fst (processImage w imageFile))) = true /\
   error (apply_updates st (fst (processImage w imageFile))) = None /\
   result (apply_updates st (fst (processImage w imageFile))) = result st) /\
  (load w imageFile <> OnloadThrows ->
   load w imageFile <> NoEvent ->
   settles (createWorker w) <> Pending ->
   settles (loadLanguage w) <> Pending ->
   settles (initialize w) <> Pending ->
   settles (setParameters w) <> Pending ->
   (forall processedImage, settles (recognize w processedImage) <> Pending) ->
   settles (terminate w) <> Pending ->
   snd (processImage w imageFile) = Fulfilled tt) /\
  (load w imageFile = LoadFailed ->
   processImage w imageFile
   = ([SetIsProcessing true; SetProgress 0%float; SetError None;
       SetError (Some "Failed to load image for preprocessing");
       SetIsProcessing false], Fulfilled tt)) /\
  (load w imageFile = OnloadThrows ->
   processImage w imageFile
   = ([SetIsProcessing true; SetProgress 0%float; SetError None], Pending)).
Proof.
  split; [apply processImage_never_rejects|].
  split; [|split; [|split; [apply processImage_not_pending|
                            split; [apply processImage_load_failed|
                                    apply processImage_onload_throws]]]].
  - intros Hs.
    destruct (processImage_calls w imageFile)
      as (calls & Hp & [(b & E)|[(r & E)|E]]); rewrite E in *; cbn [fst snd] in *.
    + destruct (apply_processImage_calls st calls
                  [SetResult (Some b); SetIsProcessing false] Hp) as (H1 & H2 & H3 & _).
      rewrite H1, H2, H3.
      cbn [apply_updates foldl apply_update isProcessing result error].
      split; [reflexivity|]. left. exists b. split; reflexivity.
    + destruct (apply_processImage_calls st calls
                  [SetError (Some (message_of r)); SetIsProcessing false] Hp)
        as (H1 & H2 & H3 & _).
      rewrite H1, H2, H3.
      cbn [apply_updates foldl apply_update isProcessing result error].
      split; [reflexivity|]. right. exists (message_of r). split; reflexivity.
    + discriminate.
  - intros Hs.
    destruct (processImage_calls w imageFile)
      as (calls & Hp & [(b & E)|[(r & E)|E]]); rewrite E in *; cbn [fst snd] in *;
      [discriminate|discriminate|].
    replace calls with (calls ++ [])%list by apply app_nil_r.
    destruct (apply_processImage_calls st calls [] Hp) as (H1 & H2 & H3 & _).
    rewrite H1, H2, H3. repeat split.
Qed.

(** A file whose image cannot be loaded: five calls, none to the worker,
    and the promise is fulfilled.  A file whose canvas throws: three calls,
    and the promise stays pending. *)
Lemma processImage_settles_witness :
  processImage unreadable_image (File "bill.png")
  = ([SetIsProcessing true; SetProgress 0%float; SetError None;
      SetError (Some "Failed to load image for preprocessing");
      SetIsProcessing false], Fulfilled tt) /\
  processImage throwing_canvas (File "bill.png")
  = ([SetIsProcessing true; SetProgress 0%float; SetError None], Pending) /\
  snd (processImage readable_bill (File "bill.png")) = Fulfilled tt.
Proof.
  split; [|split].
  - apply (processImage_settles unreadable_image (File "bill.png") initial_state).
    reflexivity.
  - apply (processImage_settles throwing_canvas (File "bill.png") initial_state).
    reflexivity.
  - apply (processImage_settles readable_bill (File "bill.png") initial_state);
      discriminate.
Defined.

Lemma keeps_result_and_then {A B} (first : action A) (rest : A -> action B) :
  Forall keeps_result (fst first) ->
  (forall x, Forall keeps_result (fst (rest x))) ->
  Forall keeps_result (fst (and_then first rest)).
Proof.
  intros Hf Hr. unfold and_then. destruct first as [calls [a|reason|]];
    [|exact Hf|exact Hf].
  specialize (Hr a). destruct (rest a) as [more outcome]. cbn [fst] in *.
  apply List.Forall_app. auto.
Qed.

Lemma keeps_result_try_catch {A} (body : action A) handler :
  Forall keeps_result (fst body) ->
  (forall reason, Forall keeps_result (fst (handler reason))) ->
  Forall keeps_result (fst (try_catch body handler)).
Proof.
  intros Hb Hh. unfold try_catch. destruct body as [calls [a|reason|]];
    [exact Hb| |exact Hb].
  specialize (Hh reason). destruct (handler reason) as [more outcome]. cbn [fst] in *.
  apply List.Forall_app. auto.
Qed.

Lemma keeps_result_finally {A} (body : action A) finalizer :
  Forall keeps_result (fst body) ->
  Forall keeps_result (fst finalizer) ->
  Forall keeps_result (fst (finally body finalizer)).
Proof.
  intros Hb Hf. unfold finally. destruct body as [calls [a|reason|]];
    [| |exact Hb];
    destruct finalizer as [more [u|r|]]; cbn [fst] in *; apply List.Forall_app; auto.
Qed.

Lemma keeps_result_call u : keeps_result u -> Forall keeps_result (fst (call u)).
Proof. intros H. constructor; [exact H | constructor]. Qed.

Lemma keeps_result_await {A} (p : settled A) : Forall keeps_result (fst (await p)).
Proof. constructor. Qed.

Lemma keeps_result_worker {A} (p : pending A) :
  Forall keeps_result (fst (await_worker p)).
Proof.
  cbn [await_worker fst]. induction (logged p) as [|m l IH]; [constructor|].
  cbn [flat_map]. apply List.Forall_app. split; [|exact IH].
  unfold logger. destruct (String.eqb _ _); repeat constructor. discriminate.
Qed.

Lemma keeps_result_evaluate {A} (c : completion A) :
  Forall keeps_result (fst (evaluate c)).
Proof. destruct c; constructor. Qed.

Ltac keeps_result_steps :=
  repeat first
    [ apply keeps_result_finally
    | apply keeps_result_try_catch
    | apply keeps_result_and_then
    | apply keeps_result_call; discriminate
    | apply keeps_result_await
    | apply keeps_result_worker
    | apply keeps_result_evaluate
    | intro ].

Lemma calls_of_keep_result run : Forall keeps_result (calls_of run).
Proof.
  destruct run as [w file|w imageData| |tab]; cbn [calls_of].
  - unfold handleFileSelected. keeps_result_steps.
  - unfold handleImageCaptured. keeps_result_steps.
  - unfold processAnother. keeps_result_steps.
  - repeat constructor. discriminate.
Qed.

(** X13.  No handler clears the result: once a bill has been read, the
    result stays set through every later call of the handlers, in whatever
    order their calls are interleaved, and the upload and camera tabs are
    not rendered again; "Process another bill" does not bring them
    back. *)
Theorem result_is_never_cleared (calls : list update) (st : app_state) :
  Forall (fun u => exists run, In u (calls_of run)) calls ->
  result st <> None ->
  result (apply_updates st calls) <> None /\
  shows_tabs (apply_updates st calls) = false.
Proof.
  intros Hcalls Hres.
  assert (H : result (apply_updates st calls) <> None).
  { revert st Hres. induction Hcalls as [|u calls (run & Hin) _ IH]; intros st Hres;
      [exact Hres|].
    cbn [apply_updates foldl]. apply IH.
    pose proof (calls_of_keep_result run) as Hk.
    rewrite List.Forall_forall in Hk. specialize (Hk u Hin).
    destruct u as [b|p|[r|]|e|url|tab|title]; cbn [apply_update result];
      try exact Hres; [discriminate | now elim Hk]. }
  split; [exact H|]. unfold shows_tabs.
  destruct (result (apply_updates st calls)); [reflexivity | now elim H].
Qed.

(** After a bill with total "5.00", the calls of "Process another bill". *)
Lemma result_is_never_cleared_witness :
  shows_tabs
    (apply_updates
       {| isProcessing := false; progress := 0%float;
          result := Some {| fullText := "Total: 5.00"; date := None;
                            total := Some "5.00"; merchant := None |};
          error := None; imagePreview := None; activeTab := "camera"; toasts := [] |}
       (calls_of ProcessAnother)) = false.
Proof.
  apply (result_is_never_cleared (calls_of ProcessAnother)).
  - apply List.Forall_forall. intros u Hu. exists ProcessAnother. exact Hu.
  - cbn. discriminate.
Defined.

(** X14.  The toast of [handleFileSelected] does not tell whether the bill
    was read: when the preview URL could be made it is "Processing
    Complete" as soon as [processImage] is done, also when the image could
    not be loaded and the error alert is shown; it is "Processing Failed"
    only when [createObjectURL] throws; and there is no toast at all while
    [processImage] stays pending, as it does when a call to the canvas
    throws inside [onload]: the progress bar then stays, without an
    alert.  In the same way [handleImageCaptured] fails only with [fetch]
    or [blob]. *)
Theorem toast_ignores_failed_processing (w : world) (st : app_state) :
  (forall file,
     toasts (apply_updates st (fst (handleFileSelected w file)))
     = (toasts st
        ++ match createObjectURL w file with
           | Fulfilled _ =>
               match snd (processImage w (File file)) with
               | Pending => []
               | _ => [ProcessingComplete]
               end
           | Rejected _ => [ProcessingFailed]
           | Pending => []
           end)%list) /\
  (forall imageData,
     toasts (apply_updates st (fst (handleImageCaptured w imageData)))
     = (toasts st
        ++ match fetch w imageData with
           | Fulfilled _ =>
               match blob w with
               | Fulfilled _ =>
                   match snd (processImage w (DataUrl imageData)) with
                   | Pending => []
                   | _ => [ProcessingComplete]
                   end
               | Rejected _ => [ProcessingFailed]
               | Pending => []
               end
           | Rejected _ => [ProcessingFailed]
           | Pending => []
           end)%list) /\
  (forall file url,
     createObjectURL w file = Fulfilled url ->
     load w (File file) = LoadFailed ->
     shows_error (apply_updates st (fst (handleFileSelected w file))) = true /\
     toasts (apply_updates st (fst (handleFileSelected w file)))
     = (toasts st ++ [ProcessingComplete])%list) /\
  (forall file url,
     createObjectURL w file = Fulfilled url ->
     load w (File file) = OnloadThrows ->
     toasts (apply_updates st (fst (handleFileSelected w file))) = toasts st /\
     shows_progress (apply_updates st (fst (handleFileSelected w file))) = true /\
     shows_error (apply_updates st (fst (handleFileSelected w file))) = false).
Proof.
  assert (Hrun : forall imageFile st0,
            toasts (apply_updates st0 (fst (processImage w imageFile))) = toasts st0).
  { intros imageFile st0.
    destruct (processImage_calls w imageFile)
      as (calls & Hp & [(b & ->) | [(r & ->) | -> ]]); cbn [fst].
    - destruct (apply_processImage_calls st0 calls
                  [SetResult (Some b); SetIsProcessing false] Hp) as (_ & _ & _ & ->).
      reflexivity.
    - destruct (apply_processImage_calls st0 calls
                  [SetError (Some (message_of r)); SetIsProcessing false] Hp)
        as (_ & _ & _ & ->).
      reflexivity.
    - replace calls with (calls ++ [])%list by apply app_nil_r.
      destruct (apply_processImage_calls st0 calls [] Hp) as (_ & _ & _ & ->).
      reflexivity. }
  assert (Hfile : forall file,
     toasts (apply_updates st (fst (handleFileSelected w file)))
     = (toasts st
        ++ match createObjectURL w file with
           | Fulfilled _ =>
               match snd (processImage w (File file)) with
               | Pending => []
               | _ => [ProcessingComplete]
               end
           | Rejected _ => [ProcessingFailed]
           | Pending => []
           end)%list).
  { intros file. unfold handleFileSelected.
    destruct (createObjectURL w file) as [url|reason|];
      [|reflexivity|symmetry; apply app_nil_r].
    cbn [await and_then call app].
    pose proof (processImage_never_rejects w (File file)) as Hs.
    specialize (Hrun (File file) (apply_update st (SetImagePreview (Some url)))).
    destruct (processImage w (File file)) as [calls outcome]. cbn [snd fst] in *.
    destruct Hs as [-> | ->]; cbn [await and_then try_catch fst call app].
    - rewrite apply_updates_cons, apply_updates_app.
      cbn [apply_updates foldl apply_update toasts] in *.
      now rewrite Hrun.
    - rewrite apply_updates_cons. cbn [apply_updates] in *.
      rewrite Hrun. cbn [apply_update toasts]. symmetry. apply app_nil_r. }
  split; [exact Hfile|]. split; [|split].
  - intros imageData. unfold handleImageCaptured.
    destruct (fetch w imageData) as [response|reason|];
      [|reflexivity|symmetry; apply app_nil_r].
    destruct (blob w) as [b|reason|]; [|reflexivity|symmetry; apply app_nil_r].
    cbn [await and_then call app].
    pose proof (processImage_never_rejects w (DataUrl imageData)) as Hs.
    specialize (Hrun (DataUrl imageData)
                  (apply_update st (SetImagePreview (Some imageData)))).
    destruct (processImage w (DataUrl imageData)) as [calls outcome].
    cbn [snd fst] in *.
    destruct Hs as [-> | ->]; cbn [await and_then try_catch fst call app].
    + rewrite apply_updates_cons, apply_updates_app.
      cbn [apply_updates foldl apply_update toasts] in *.
      now rewrite Hrun.
    + rewrite apply_updates_cons. cbn [apply_updates] in *.
      rewrite Hrun. cbn [apply_update toasts]. symmetry. apply app_nil_r.
  - intros file url Hurl Hload.
    assert (Ht : toasts (apply_updates st (fst (handleFileSelected w file)))
                 = (toasts st ++ [ProcessingComplete])%list).
    { rewrite Hfile, Hurl, (processImage_load_failed w (File file) Hload).
      reflexivity. }
    split; [|exact Ht].
    unfold handleFileSelected. rewrite Hurl. cbn [await and_then call app].
    rewrite (processImage_load_failed w (File file) Hload). reflexivity.
  - intros file url Hurl Hload.
    assert (Ht : toasts (apply_updates st (fst (handleFileSelected w file)))
                 = toasts st).
    { rewrite Hfile, Hurl, (processImage_onload_throws w (File file) Hload).
      apply app_nil_r. }
    split; [exact Ht|].
    unfold handleFileSelected. rewrite Hurl. cbn [await and_then call app].
    rewrite (processImage_onload_throws w (File file) Hload).
    split; reflexivity.
Qed.

(** A file whose image cannot be loaded: the alert and the toast
    "Processing Complete" together.  A file whose canvas throws: no toast,
    and the progress bar is shown. *)
Lemma toast_ignores_failed_processing_witness :
  (shows_error
     (apply_updates initial_state (fst (handleFileSelected unreadable_image "bill.png")))
   = true /\
   toasts
     (apply_updates initial_state (fst (handleFileSelected unreadable_image "bill.png")))
   = [ProcessingComplete]) /\
  (toasts
     (apply_updates initial_state (fst (handleFileSelected throwing_canvas "bill.png")))
   = [] /\
   shows_progress
     (apply_updates initial_state (fst (handleFileSelected throwing_canvas "bill.png")))
   = true /\
   shows_error
     (apply_updates initial_state (fst (handleFileSelected throwing_canvas "bill.png")))
   = false).
Proof.
  split.
  - apply (proj1 (proj2 (proj2 (toast_ignores_failed_processing
                                  unreadable_image initial_state)))
             "bill.png" "blob:bill.png"); reflexivity.
  - apply (proj2 (proj2 (proj2 (toast_ignores_failed_processing
                                  throwing_canvas initial_state)))
             "bill.png" "blob:bill.png"); reflexivity.
Defined.
(** ** Greedy runs of one class *)

Lemma class_step {R} p (k : cursor -> captures -> option R) c g :
  m (Class p) k c g =
  match rest c with
  | String a s' =>
      if p a then k {| pos := S (pos c); before := Some a; rest := s' |} g else None
  | EmptyString => None
  end.
Proof. reflexivity. Qed.

(** A greedy run of a class before a continuation that never fails does
    not fail, when the text starts with enough characters of the class. *)
Lemma iterate_class_total {R} p (f : cursor -> captures -> R) :
  forall s q b g lo fuel,
    (lo + String.length s < fuel)%nat -> (lo <= leading p s)%nat ->
    iterate (m (Class p)) (fun c g => Some (f c g)) true fuel lo None
      {| pos := q; before := b; rest := s |} g <> None.
Proof.
  pose proof (class_step (R := R) p) as Hstep.
  generalize dependent (m (R := R) (Class p)). intros step Hstep.
  induction s as [|a s IH]; intros q b g lo fuel Hf Hlo;
    (destruct fuel as [|fuel]; [lia|]); cbn [iterate dec_bound]; rewrite Hstep;
    cbn [rest pos leading] in *.
  - assert (lo = 0%nat) by lia. subst lo. cbn. discriminate.
  - destruct (p a) eqn:Ea.
    + replace ((lo =? 0)%nat && (S q =? q)%nat) with false
        by (replace (S q =? q)%nat with false
              by (symmetry; apply Nat.eqb_neq; lia);
            now rewrite andb_false_r).
      cbn [String.length] in Hf.
      specialize (IH (S q) (Some a) g (Nat.pred lo) fuel ltac:(lia) ltac:(lia)).
      destruct (iterate step _ true fuel (Nat.pred lo) None _ g); [|contradiction].
      destruct (0 <? lo)%nat; discriminate.
    + assert (lo = 0%nat) by lia. subst lo. cbn. discriminate.
Qed.

(** A greedy run of a class gives way to its continuation only where the
    continuation fails one character further. *)
Lemma greedy_class_next {R} p (k : cursor -> captures -> option R) :
  forall fuel lo c g res,
    (lo + String.length (rest c) < fuel)%nat ->
    iterate (m (Class p)) k true fuel lo None c g = Some res ->
    exists w c', reads c w c' /\ k c' g = Some res /\
      forall a s', rest c' = String a s' -> p a = true ->
        k {| pos := S (pos c'); before := Some a; rest := s' |} g = None.
Proof.
  pose proof (class_step (R := R) p) as Hstep.
  generalize dependent (m (R := R) (Class p)). intros step Hstep.
  induction fuel as [|fuel IH]; intros lo c g res Hf H; [lia|].
  cbn [iterate dec_bound] in H. rewrite Hstep in H.
  assert (Hmore : forall a s',
            rest c = String a s' -> p a = true ->
            iterate step k true fuel (Nat.pred lo) None
              {| pos := S (pos c); before := Some a; rest := s' |} g = Some res ->
            exists w c', reads c w c' /\ k c' g = Some res /\
              forall a s', rest c' = String a s' -> p a = true ->
                k {| pos := S (pos c'); before := Some a; rest := s' |} g = None).
  { intros a s' E Ea Hi. apply IH in Hi;
      [|cbn [rest]; rewrite E in Hf; cbn [String.length] in Hf; lia].
    destruct Hi as (w & c' & [Hr Hp] & Hk & Hmax). cbn [rest pos] in *.
    exists (String a w), c'. split; [|auto]. split.
    - rewrite E, Hr. reflexivity.
    - cbn [String.length]. lia. }
  destruct (rest c) as [|a s'] eqn:E.
  - destruct (0 <? lo)%nat; [discriminate|]. cbn [orelse] in H.
    exists "", c. split; [apply reads_refl|]. split; [exact H|].
    intros a s' E'. rewrite E in E'. discriminate.
  - destruct (p a) eqn:Ea.
    + cbn [pos] in H.
      replace ((lo =? 0)%nat && (S (pos c) =? pos c)%nat) with false in H
        by (replace (S (pos c) =? pos c)%nat with false
              by (symmetry; apply Nat.eqb_neq; lia);
            now rewrite andb_false_r).
      destruct (Nat.ltb_spec 0 lo) as [Hlo|Hlo]; [eapply Hmore; eauto|].
      assert (lo = 0%nat) by lia. subst lo.
      destruct (iterate step k true fuel (Nat.pred 0) None _ g) as [r|] eqn:Ei.
      * cbn [orelse] in H. injection H as ->. eapply Hmore; eauto.
      * cbn [orelse] in H. exists "", c. split; [apply reads_refl|].
        split; [exact H|]. intros a' s'' E' Ha'. rewrite E in E'.
        injection E' as <- <-.
        cbn [String.length] in Hf. destruct fuel as [|fuel]; [lia|].
        cbn [Nat.pred iterate dec_bound] in Ei.
        destruct (step _ _ g); [discriminate|]. exact Ei.
    + destruct (0 <? lo)%nat; [discriminate|]. cbn [orelse] in H.
      exists "", c. split; [apply reads_refl|]. split; [exact H|].
      intros a' s'' E'. rewrite E in E'. injection E' as <- <-. congruence.
Qed.

Lemma search_match_at r : forall s q b res text,
  cursor_in text {| pos := q; before := b; rest := s |} ->
  search r q b s = Some res ->
  exists c0, cursor_in text c0 /\ match_at r c0 = Some res.
Proof.
  induction s as [|a s IH]; intros q b res text Hc H; cbn [search] in H.
  - destruct (match_at r _) as [res0|] eqn:E; [|discriminate]. injection H as <-.
    eauto.
  - destruct (match_at r _) as [res0|] eqn:E.
    + injection H as <-. eauto.
    + eapply IH; [|exact H].
      destruct (cursor_in_reads text _ (String a "")
                  {| pos := S q; before := Some a; rest := s |} Hc) as [Hc' _];
        [|exact Hc'].
      split; cbn [rest pos append String.length]; [reflexivity | lia].
Qed.

(** ** The merchant is not empty *)

(** The fragment captured after a label starts with a character that is
    not white space, unless it is a single character: the white space
    after the label goes to [[:\s]+], which is greedy. *)
Lemma merchant_group_head label line res captured :
  group_free label = true ->
  exec (seq_of [label; many1 (Class colon_or_space); Grp 1 (many1 (Class name_char))])
    line = Some res ->
  group line res 1 = Some captured ->
  (2 <= String.length captured)%nat ->
  exists a w, captured = String a w /\ isWhiteSpace a = false.
Proof.
  intros Hfree He Hg Hlen. unfold exec, search_from in He.
  destruct (search_match_at _ _ _ _ _ line (cursor_in_start line) He)
    as (c0 & Hc0 & Hm).
  unfold match_at in Hm. cbn [seq_of m] in Hm.
  apply (m_sound label) in Hm. destruct Hm as (c1 & g1 & Hlabel & Hm).
  destruct (cursor_in_spans _ _ _ _ _ _ Hc0 Hlabel) as [Hc1 _].
  unfold many1 at 1 in Hm. cbn [m] in Hm.
  apply greedy_class_next in Hm; [|lia].
  destruct Hm as (w & c2 & Hw & Hm & Hmax).
  destruct (cursor_in_reads _ _ _ _ Hc1 Hw) as [Hc2 _].
  pose proof Hm as Hm'. apply (m_sound (many1 (Class name_char))) in Hm'.
  destruct Hm' as (c3 & g' & Hs & Hfin). injection Hfin as <-.
  unfold many1 in Hs. cbn [spans] in Hs. destruct Hs as (n & Hn & Hrun).
  apply repeats_class in Hrun. destruct Hrun as (wg & Hwg & Hl & Hall & _).
  assert (Hcap : group line
                   {| m_start := pos c0; m_after := c3;
                      m_groups := set_capture 1 (pos c2, pos c3) g' |} 1
                 = Some wg).
  { apply (group_between line _ 1 c2 c3 wg Hc2 Hwg). reflexivity. }
  rewrite Hcap in Hg. injection Hg as <-.
  destruct wg as [|a [|a2 wg]]; cbn [String.length] in Hlen; try lia.
  exists a, (String a2 wg). split; [reflexivity|].
  destruct (isWhiteSpace a) eqn:Ews; [exfalso | reflexivity].
  destruct Hwg as [Hr _]. cbn [append] in Hr.
  assert (Hcs : colon_or_space a = true)
    by (unfold colon_or_space; rewrite Ews; apply orb_true_r).
  specialize (Hmax a _ Hr Hcs).
  cbn [all_chars] in Hall. apply andb_true_iff in Hall as [_ Hall].
  apply andb_true_iff in Hall as [Ha2 _].
  cbn [m many1] in Hmax. revert Hmax.
  apply (iterate_class_total name_char
           (fun c' g' =>
              {| m_start := pos c0; m_after := c';
                 m_groups := set_capture 1 (S (pos c2), pos c') g' |})).
  - cbn [rest]. lia.
  - cbn [leading]. rewrite Ha2. lia.
Qed.

Lemma trim_head a w : isWhiteSpace a = false -> trim (String a w) <> "".
Proof.
  intros Ha. unfold trim. cbn [trimStart]. rewrite Ha. rewrite trimEnd_step.
  destruct (trimEnd w); [rewrite Ha|]; discriminate.
Qed.

Lemma labeled_merchant_not_empty p line name :
  In p merchantPatterns -> labeled_merchant p line = Some name -> name <> "".
Proof.
  intros Hp H.
  destruct (labeled_merchant_spec p line name Hp H)
    as (res & captured & He & Hg & Hlen & ->).
  assert (Hhead : exists a w, captured = String a w /\ isWhiteSpace a = false).
  { destruct Hp as [<-|[<-|[]]];
      eapply merchant_group_head; try exact He; try exact Hg; try lia; reflexivity. }
  destruct Hhead as (a & w & -> & Ha). now apply trim_head.
Qed.

Lemma extractMerchant_not_empty_line text name :
  extractMerchant text = Some name -> name <> EmptyString.
Proof.
  rewrite extractMerchant_labeled. intros H.
  destruct (merchant_line_loop merchant_label _) as [n|] eqn:E1.
  { injection H as ->. apply merchant_line_loop_Some in E1.
    destruct E1 as (front & line & back & _ & _ & Hm).
    eapply labeled_merchant_not_empty; [|exact Hm]. cbn; auto. }
  destruct (merchant_line_loop merchant_phrase _) as [n|] eqn:E2.
  { injection H as ->. apply merchant_line_loop_Some in E2.
    destruct E2 as (front & line & back & _ & _ & Hm).
    eapply labeled_merchant_not_empty; [|exact Hm]. cbn; auto. }
  pose proof (header_scan_best (header_candidates text)) as Hb.
  destruct (js_sort score_not_after _) as [|best others]; [discriminate|].
  injection H as <-. destruct Hb as (front & back & Hc & _).
  assert (Hin : In (line best) (header_candidates text))
    by (rewrite Hc; apply in_elt).
  unfold header_candidates in Hin. apply List.filter_In in Hin as [_ Hp].
  unfold potential_merchant in Hp. intros E. rewrite E in Hp. discriminate Hp.
Qed.

(** X15.  A merchant that [extractMerchant] returns is not the empty
    string: a labelled fragment of more than two characters starts with a
    character that [trim] keeps, and a header candidate has more than
    three characters. *)
Theorem extractMerchant_not_empty (text name : string) :
  extractMerchant text = Some name -> name <> EmptyString.
Proof. apply extractMerchant_not_empty_line. Qed.

(** The merchant of a line with a label followed by blanks. *)
Lemma extractMerchant_not_empty_witness : "Corner Shop" <> EmptyString.
Proof.
  apply (extractMerchant_not_empty "Store:    Corner Shop   #12").
  vm_compute. reflexivity.
Defined.

(** ** What is extracted is shown *)

Lemma literal_match_not_empty p clean d :
  requires isDigit (ast p) = true ->
  literal_match p clean = Some d -> d <> "".
Proof.
  intros Hreq H. unfold literal_match in H.
  destruct (exec (ast p) clean) as [res|] eqn:E; [|discriminate].
  injection H as <-.
  destruct (exec_sound _ _ _ E) as (c0 & Hc0 & Hstart & Hs).
  destruct (spans_requires isDigit _ Hreq _ _ _ _ Hs) as (w & Hw & Hd).
  destruct (cursor_in_reads _ _ _ _ Hc0 Hw) as [_ Hsub].
  unfold matched, m_end. rewrite Hstart.
  destruct Hw as [_ Hp]. replace (pos (m_after res) - pos c0)%nat with (String.length w)
    by lia.
  rewrite Hsub. intros ->. discriminate Hd.
Qed.

Lemma extractDate_not_empty text d :
  extractDate text = Normal (Some d) -> d <> "".
Proof.
  rewrite extractDate_first_of. cbn [first_of]. intros [= H].
  destruct (literal_match date_numeric _) as [x|] eqn:E1.
  { injection H as ->. eapply literal_match_not_empty; [|exact E1]. vm_compute. reflexivity. }
  destruct (literal_match date_month _) as [x|] eqn:E2.
  { injection H as ->. eapply literal_match_not_empty; [|exact E2]. vm_compute. reflexivity. }
  destruct (literal_match date_iso _) as [x|] eqn:E3.
  { injection H as ->. eapply literal_match_not_empty; [|exact E3]. vm_compute. reflexivity. }
  unfold keyword_date in H.
  destruct (exec (ast date_keyword) _); [|discriminate].
  destruct (group _ _ 1) as [captured|]; [|discriminate].
  destruct (test (many1 digit) (trim captured)) eqn:Et; [|discriminate].
  destruct (test (one_of "/-.") (trim captured)); [|discriminate].
  cbn [andb] in H. injection H as <-.
  intros E. rewrite E in Et. discriminate Et.
Qed.

Lemma when_not_empty value element v :
  value = Some v -> v <> "" -> In (element v) (when value element).
Proof.
  intros -> Hne. destruct v as [|a s]; [congruence|]. left. reflexivity.
Qed.

(** X16.  Whatever the extractors find is shown: for the record of every
    text, [BillResults] shows the date, the total (after a dollar sign)
    and the merchant that the record holds, none of them being an empty
    string, and the text itself. *)
Theorem extracted_fields_are_shown (text : string) (bill : BillData)
    (imagePreview : option string) :
  extractFields text = Normal bill ->
  (forall d, date bill = Some d ->
             In (Date d) (BillResults (results_props bill imagePreview))) /\
  (forall t, total bill = Some t ->
             In (TotalAmount ("$" ++ t)) (BillResults (results_props bill imagePreview))) /\
  (forall n, merchant bill = Some n ->
             In (Merchant n) (BillResults (results_props bill imagePreview))) /\
  In (ExtractedText text) (BillResults (results_props bill imagePreview)).
Proof.
  intros H. unfold extractFields in H.
  destruct (extractDate text) as [d|] eqn:Ed; [|discriminate]. cbn [bind] in H.
  destruct (extractTotal text) as [t|] eqn:Et; [|discriminate]. cbn [bind] in H.
  injection H as <-. unfold BillResults, results_props.
  cbn [props_date props_total props_merchant props_fullText props_imagePreview
       fullText date total merchant].
  split; [|split; [|split]].
  - intros d' ->. rewrite !in_app_iff. right. right. left.
    apply when_not_empty; [reflexivity|]. now apply (extractDate_not_empty text).
  - intros t' ->. rewrite !in_app_iff. right. right. right. left.
    apply (when_not_empty _ (fun total => TotalAmount ("$" ++ total)));
      [reflexivity|].
    destruct (extractTotal_decimal_shape text t' Et) as [Hs _].
    intros ->. discriminate Hs.
  - intros n Hn. rewrite !in_app_iff. right. left.
    apply when_not_empty; [exact Hn|]. now apply (extractMerchant_not_empty_line text).
  - rewrite !in_app_iff. right. right. right. right. left. reflexivity.
Qed.

(** The record of a receipt of three lines. *)
Lemma extracted_fields_are_shown_witness :
  In (TotalAmount "$5.00")
    (BillResults
       (results_props
          {| fullText := unlines ["ACME HARDWARE"; "03/14/2024"; "Total: $5.00"];
             date := Some "03/14/2024"; total := Some "5.00";
             merchant := Some "ACME HARDWARE" |} None)).
Proof.
  apply (proj1 (proj2 (extracted_fields_are_shown
                         (unlines ["ACME HARDWARE"; "03/14/2024"; "Total: $5.00"])
                         _ None ltac:(vm_compute; reflexivity))) "5.00").
  reflexivity.
Defined.
(** ** The earlier versions *)

Lemma js_match_literal text p :
  global p = true ->
  match js_match text p with
  | Some matches => at_index matches 0
  | None => None
  end = literal_match p text.
Proof.
  intros Hg. rewrite (js_match_global _ _ Hg). unfold literal_match.
  destruct (exec (ast p) text); reflexivity.
Qed.

Lemma intermediate_date_loop_step text p more :
  global p = true ->
  Intermediate.date_loop text (p :: more)
  = match literal_match p text with
    | Some d => Some d
    | None => Intermediate.date_loop text more
    end.
Proof.
  intros Hg. cbn [Intermediate.date_loop]. rewrite (js_match_global _ _ Hg).
  unfold literal_match. destruct (exec (ast p) text); reflexivity.
Qed.

Lemma intermediate_extractDate_first_of text :
  Intermediate.extractDate text
  = first_of [literal_match date_numeric text; literal_match date_month text;
              literal_match date_iso text].
Proof.
  unfold Intermediate.extractDate, Intermediate.datePatterns.
  rewrite !intermediate_date_loop_step by reflexivity.
  cbn [Intermediate.date_loop first_of].
  destruct (literal_match date_numeric text); [reflexivity|].
  destruct (literal_match date_month text); [reflexivity|].
  destruct (literal_match date_iso text); reflexivity.
Qed.

(** X17.  Each version of [extractDate] returns what the version before
    it finds: a date of the first version, of the one numeric pattern, is
    the date of the second version on the same text; a date of the second
    version on the cleaned text is the date of the last version, which
    comes to its keyword pattern only when the second version finds
    nothing. *)
Theorem extractDate_versions_agree (text : string) :
  (forall d, Simple.extractDate text = Some d ->
             Intermediate.extractDate text = Some d) /\
  (forall d, Intermediate.extractDate (cleanText text) = Some d ->
             extractDate text = Normal (Some d)) /\
  (Intermediate.extractDate (cleanText text) = None ->
   extractDate text = Normal (keyword_date (cleanText text))).
Proof.
  split; [|split].
  - intros d H. unfold Simple.extractDate in H.
    rewrite (js_match_literal text Simple.dateRegex eq_refl) in H.
    rewrite intermediate_extractDate_first_of. cbn [first_of].
    change (literal_match Simple.dateRegex text)
      with (literal_match date_numeric text) in H.
    now rewrite H.
  - intros d H. rewrite intermediate_extractDate_first_of in H.
    rewrite extractDate_first_of. cbn [first_of] in *.
    destruct (literal_match date_numeric _); [congruence|].
    destruct (literal_match date_month _); [congruence|].
    destruct (literal_match date_iso _); [congruence | discriminate].
  - intros H. rewrite intermediate_extractDate_first_of in H.
    rewrite extractDate_first_of. cbn [first_of] in *.
    destruct (literal_match date_numeric _); [discriminate|].
    destruct (literal_match date_month _); [discriminate|].
    destruct (literal_match date_iso _); [discriminate|].
    destruct (keyword_date _); reflexivity.
Qed.

(** A date that the first version finds. *)
Lemma extractDate_versions_agree_witness :
  Intermediate.extractDate "Paid 03/14/2024 by card" = Some "03/14/2024".
Proof.
  apply (extractDate_versions_agree "Paid 03/14/2024 by card").
  vm_compute. reflexivity.
Defined.

(** What [\d+[.,]\d{2}] matches. *)
Lemma spans_two_decimals c g c' g' :
  spans (seq_of [many1 digit; one_of ".,"; exactly 2 digit]) c g c' g' ->
  exists whole sep cents,
    reads c (whole ++ String sep cents) c' /\
    whole <> "" /\ all_chars isDigit whole = true /\
    (sep = "."%char \/ sep = ","%char) /\
    String.length cents = 2%nat /\ all_chars isDigit cents = true.
Proof.
  unfold many1, one_of, exactly, digit. cbn [seq_of spans].
  intros (c1 & g1 & (n & Hn & Hds) & c2 & g2 & (b & s' & E & Hb & -> & ->)
          & k & Hk & Hfs).
  apply repeats_class in Hds. destruct Hds as (ds & Hr & Hl & Ha & ->).
  apply repeats_class in Hfs. destruct Hfs as (fs & Hr' & Hl' & Ha' & _).
  unfold within in Hn, Hk.
  exists ds, b, fs. split; [|split; [|split; [|split; [|split]]]].
  - eapply reads_trans; [exact Hr|].
    destruct Hr' as [Hr1 Hr2]. cbn [rest pos] in *. split.
    + rewrite E, Hr1. reflexivity.
    + cbn [String.length]. lia.
  - intros ->. cbn in Hl. lia.
  - exact Ha.
  - cbn [mem_char] in Hb. rewrite orb_false_r in Hb.
    apply orb_true_iff in Hb. unfold is_char in Hb.
    destruct Hb as [Hb|Hb]; apply Ascii.eqb_eq in Hb; auto.
  - lia.
  - exact Ha'.
Qed.

(** X18.  A total of the first version is the captured text as it
    stands: digits, a period or a comma, and two digits.  The comma is
    not replaced and the value is not checked: "0,00" is a total. *)
Theorem simple_extractTotal_two_decimals (text total : string) :
  Simple.extractTotal text = Some total ->
  (exists whole sep cents,
     total = whole ++ String sep cents /\
     whole <> EmptyString /\ all_chars isDigit whole = true /\
     (sep = "."%char \/ sep = ","%char) /\
     String.length cents = 2%nat /\ all_chars isDigit cents = true) /\
  Simple.extractTotal "Total: 0,00" = Some "0,00".
Proof.
  intros H. split; [|vm_compute; reflexivity].
  unfold Simple.extractTotal in H.
  rewrite (js_match_first _ _ (eq_refl : global Simple.totalRegex = false)) in H.
  destruct (exec (ast Simple.totalRegex) text) as [res|] eqn:Ee; [|discriminate].
  change (group_count (ast Simple.totalRegex)) with 1%nat in H.
  cbn [List.seq map at_index nth_error] in H.
  destruct (exec_sound _ _ _ Ee) as (c0 & Hc0 & _ & Hs).
  cbn [ast Simple.totalRegex seq_of spans] in Hs.
  destruct Hs as (c1 & g1 & H1 & c2 & g2 & H2 & c3 & g3 & H3 & c4 & g4 & H4
                  & c5 & g5 & H5 & g6 & H6 & Hg).
  destruct (cursor_in_spans _ _ _ _ _ _ Hc0 H1) as [Hc1 _].
  destruct (cursor_in_spans _ _ _ _ _ _ Hc1 H2) as [Hc2 _].
  destruct (cursor_in_spans _ _ _ _ _ _ Hc2 H3) as [Hc3 _].
  destruct (cursor_in_spans _ _ _ _ _ _ Hc3 H4) as [Hc4 _].
  destruct (cursor_in_spans _ _ _ _ _ _ Hc4 H5) as [Hc5 _].
  destruct (spans_two_decimals _ _ _ _ H6) as (whole & sep & cents & Hw & Hshape).
  rewrite (group_between text res 1 c5 (m_after res) _ Hc5 Hw) in H
    by (rewrite Hg; reflexivity).
  injection H as <-. exists whole, sep, cents. split; [reflexivity | exact Hshape].
Qed.

(** The total of "Amount due: $12.50". *)
Lemma simple_extractTotal_two_decimals_witness :
  exists whole sep cents,
    "12.50" = whole ++ String sep cents /\
    whole <> EmptyString /\ all_chars isDigit whole = true /\
    (sep = "."%char \/ sep = ","%char) /\
    String.length cents = 2%nat /\ all_chars isDigit cents = true.
Proof.
  apply (simple_extractTotal_two_decimals "Amount due: $12.50" "12.50").
  vm_compute. reflexivity.
Defined.

Lemma all_white_no_digit : forall s,
  all_chars isWhiteSpace s = true -> some_char isDigit s = false.
Proof.
  induction s as [|a s IH]; intros H; [reflexivity|].
  cbn [all_chars] in H. apply andb_true_iff in H as [Ha Hs].
  cbn [some_char]. rewrite (IH Hs), orb_false_r.
  unfold isWhiteSpace, isDigit, in_range, code in *.
  destruct (Nat.leb_spec (nat_of_ascii "0") (nat_of_ascii a)); [|reflexivity].
  cbn [andb].
  change (nat_of_ascii "0") with 48%nat in *.
  apply orb_true_iff in Ha. destruct Ha as [Ha|Ha].
  - apply andb_true_iff in Ha as [_ Ha]. apply Nat.leb_le in Ha. lia.
  - apply Nat.eqb_eq in Ha. lia.
Qed.

Lemma all_white_trim : forall s, all_chars isWhiteSpace s = true -> trim s = "".
Proof.
  unfold trim. induction s as [|a s IH]; intros H; [reflexivity|].
  cbn [all_chars] in H. apply andb_true_iff in H as [Ha Hs].
  cbn [trimStart]. rewrite Ha. auto.
Qed.

(** X19.  The first version gives the empty string for a merchant when
    the first line of the text is blank and longer than three characters:
    the line passes the filter and is trimmed afterwards. *)
Theorem simple_extractMerchant_blank_line (text line : string) (more : list string) :
  split_lines text = line :: more ->
  (3 < String.length line)%nat ->
  all_chars isWhiteSpace line = true ->
  Simple.extractMerchant text = Some EmptyString.
Proof.
  intros Hl Hlen Hw. unfold Simple.extractMerchant. rewrite Hl.
  cbn [firstn List.filter].
  pose proof (all_white_no_digit line Hw) as Hd.
  unfold test.
  rewrite (exec_requires isDigit numeric_date line); [|vm_compute; reflexivity | exact Hd].
  rewrite (exec_requires isDigit two_decimal_amount line);
    [|vm_compute; reflexivity | exact Hd].
  destruct (Nat.ltb_spec 3 (String.length line)) as [_|]; [|lia].
  cbn [andb negb]. now rewrite all_white_trim.
Qed.

(** A text that starts with a line of four blanks. *)
Lemma simple_extractMerchant_blank_line_witness :
  Simple.extractMerchant (unlines ["    "; "ACME HARDWARE"]) = Some EmptyString.
Proof.
  apply (simple_extractMerchant_blank_line
           (unlines ["    "; "ACME HARDWARE"]) "    " ["ACME HARDWARE"]).
  - reflexivity.
  - cbn. lia.
  - reflexivity.
Defined.

(** *** The fixed threshold *)

Lemma fixed_cut_local a a' i :
  (forall j, (i <= j < i + 3)%nat -> get a j = get a' j) ->
  fixed_cut a i = fixed_cut a' i.
Proof. intros H. unfold fixed_cut. now rewrite !H by lia. Qed.

Lemma intermediate_data_length img :
  length (data (Intermediate.preprocessImage img)) = length (data img).
Proof.
  cbn [Intermediate.preprocessImage data].
  apply (pass_length fixed_cut); [reflexivity | apply fixed_cut_local].
Qed.

Lemma intermediate_data_get img p :
  get (data (Intermediate.preprocessImage img)) p
  = if decide ((p mod 4 <> 3)%nat /\ (p < length (data img))%nat)
    then fixed_cut (data img) (4 * (p / 4))%nat else get (data img) p.
Proof.
  cbn [Intermediate.preprocessImage data].
  apply (pass_get fixed_cut); [reflexivity | apply fixed_cut_local].
Qed.

Lemma fixed_cut_extreme v :
  v = 0%Z \/ v = 255%Z ->
  (if (Intermediate.threshold <? luminance v v v)%float then 255%Z else 0%Z) = v.
Proof. intros [-> | ->]; vm_compute; reflexivity. Qed.

Lemma intermediate_channel img x y c :
  valid_raster img -> (x < width img)%nat -> (y < height img)%nat -> (c < 3)%nat ->
  channel (Intermediate.preprocessImage img) x y c
  = if (Intermediate.threshold
        <? luminance (channel img x y 0) (channel img x y 1) (channel img x y 2))%float
    then 255%Z else 0%Z.
Proof.
  intros Hv Hx Hy Hc.
  destruct (pixel_index img x y c Hv Hx Hy ltac:(lia)) as (Hp & Hq & Hm).
  unfold channel at 1. cbn [Intermediate.preprocessImage width].
  change (foldl Intermediate.binarize_step (data img) (pixel_offsets (length (data img))))
    with (data (Intermediate.preprocessImage img)).
  rewrite intermediate_data_get.
  case_decide as H; [|exfalso; apply H; split; [lia | exact Hp]].
  rewrite Hq. unfold fixed_cut, channel.
  replace (4 * (y * width img + x))%nat with ((y * width img + x) * 4 + 0)%nat by lia.
  replace ((y * width img + x) * 4 + 0 + 1)%nat with ((y * width img + x) * 4 + 1)%nat by lia.
  replace ((y * width img + x) * 4 + 0 + 2)%nat with ((y * width img + x) * 4 + 2)%nat by lia.
  reflexivity.
Qed.

(** X20.  The second version, with its fixed threshold, gives a raster
    of the same size in which every pixel is white when its weighted gray
    value, not rounded, is above 150, and black otherwise; the alpha
    bytes are kept, and a second run changes nothing. *)
Theorem intermediate_preprocessImage_binarizes (img : ImageData) :
  valid_raster img ->
  width (Intermediate.preprocessImage img) = width img /\
  height (Intermediate.preprocessImage img) = height img /\
  length (data (Intermediate.preprocessImage img)) = length (data img) /\
  (forall x y c,
     (x < width img)%nat -> (y < height img)%nat -> (c < 3)%nat ->
     channel (Intermediate.preprocessImage img) x y c
     = if (150 <? luminance (channel img x y 0) (channel img x y 1)
                    (channel img x y 2))%float
       then 255%Z else 0%Z) /\
  (forall x y,
     (x < width img)%nat -> (y < height img)%nat ->
     channel (Intermediate.preprocessImage img) x y 3 = channel img x y 3) /\
  Intermediate.preprocessImage (Intermediate.preprocessImage img)
  = Intermediate.preprocessImage img.
Proof.
  intros Hv. split; [reflexivity|]. split; [reflexivity|].
  split; [apply intermediate_data_length|].
  split; [intros x y c; apply intermediate_channel; exact Hv|].
  split.
  - intros x y Hx Hy.
    destruct (pixel_index img x y 3 Hv Hx Hy ltac:(lia)) as (Hp & Hq & Hm).
    unfold channel at 1. cbn [Intermediate.preprocessImage width].
    change (foldl Intermediate.binarize_step (data img)
              (pixel_offsets (length (data img))))
      with (data (Intermediate.preprocessImage img)).
    rewrite intermediate_data_get. case_decide as H; [lia | reflexivity].
  - assert (Hd : data (Intermediate.preprocessImage (Intermediate.preprocessImage img))
                 = data (Intermediate.preprocessImage img)).
    { apply list_eq_get; [apply intermediate_data_length|].
      intros p Hp. rewrite !intermediate_data_length in Hp.
      rewrite (intermediate_data_get (Intermediate.preprocessImage img)).
      rewrite intermediate_data_length.
      case_decide as H; [|reflexivity]. destruct H as [Hm _].
      pose proof (block_bounds p) as Hb. destruct Hv as (_ & _ & Hl).
      set (q := (4 * (p / 4))%nat) in *.
      assert (Hch : forall j, (j < 3)%nat ->
                get (data (Intermediate.preprocessImage img)) (q + j)
                = fixed_cut (data img) q).
      { intros j Hj. rewrite intermediate_data_get.
        destruct (block_of (q + j) (p / 4) ltac:(unfold q; lia)) as [Q M].
        case_decide as H; [|exfalso; apply H; split; lia].
        rewrite Q. reflexivity. }
      unfold fixed_cut at 1.
      rewrite <- (Nat.add_0_r q) at 1. rewrite !Hch by lia.
      rewrite fixed_cut_extreme.
      - rewrite intermediate_data_get.
        case_decide as H; [reflexivity | exfalso; apply H; split; lia].
      - unfold fixed_cut. destruct (_ <? _)%float; auto. }
    unfold Intermediate.preprocessImage in *. cbn [width height data] in *.
    now rewrite Hd.
Qed.

(** A 2 by 1 raster: a light orange pixel and a dark one. *)
Lemma intermediate_preprocessImage_binarizes_witness :
  Intermediate.preprocessImage
    (Intermediate.preprocessImage
       {| width := 2; height := 1;
          data := [250; 180; 90; 255; 20; 30; 40; 17]%Z |})
  = Intermediate.preprocessImage
      {| width := 2; height := 1;
         data := [250; 180; 90; 255; 20; 30; 40; 17]%Z |}.
Proof.
  apply (intermediate_preprocessImage_binarizes
           {| width := 2; height := 1;
              data := [250; 180; 90; 255; 20; 30; 40; 17]%Z |}).
  unfold valid_raster. cbn. lia.
Defined.
(** ** The threshold and the histogram *)

(** X21.  The threshold depends on the raster through its histogram
    only: two rasters with as many pixels of every gray level get the
    same threshold, however the pixels are arranged. *)
Theorem threshold_depends_on_histogram (img1 img2 : ImageData) :
  valid_raster img1 -> valid_raster img2 ->
  (forall v, (0 <= v < 256)%Z -> pixels_of_level img1 v = pixels_of_level img2 v) ->
  selected_threshold img1 = selected_threshold img2.
Proof.
  intros Hv1 Hv2 Hsame.
  destruct (selected_histogram img1 Hv1) as (L1 & _ & T1).
  destruct (selected_histogram img2 Hv2) as (L2 & _ & T2).
  assert (Hh : histogram_of (grayscale_pass (data img1))
               = histogram_of (grayscale_pass (data img2))).
  { apply list_eq_get; [congruence|]. intros p Hp. rewrite L1 in Hp.
    pose proof (histogram_bin img1 (Z.of_nat p) Hv1 ltac:(lia)) as B1.
    pose proof (histogram_bin img2 (Z.of_nat p) Hv2 ltac:(lia)) as B2.
    rewrite Nat2Z.id in B1, B2. rewrite B1, B2, Hsame by lia. reflexivity. }
  assert (Ht : Z.of_nat (width img1 * height img1)
               = Z.of_nat (width img2 * height img2))
    by (rewrite <- T1, <- T2, Hh; reflexivity).
  rewrite !selected_threshold_eq, Hh, Ht. reflexivity.
Qed.

(** A 2 by 1 raster and the raster of its two pixels in the other
    order. *)
Lemma threshold_depends_on_histogram_witness :
  selected_threshold {| width := 2; height := 1;
                        data := [200; 200; 200; 255; 40; 40; 40; 255]%Z |}
  = selected_threshold {| width := 1; height := 2;
                          data := [40; 40; 40; 255; 200; 200; 200; 255]%Z |}.
Proof.
  refine (threshold_depends_on_histogram
            {| width := 2; height := 1;
               data := [200; 200; 200; 255; 40; 40; 40; 255]%Z |}
            {| width := 1; height := 2;
               data := [40; 40; 40; 255; 200; 200; 200; 255]%Z |} _ _ _).
  - unfold valid_raster. cbn. lia.
  - unfold valid_raster. cbn. lia.
  - intros v Hv. unfold pixels_of_level. cbn [width height Nat.mul Nat.add List.seq].
    cbn [List.filter].
    change (intensity _ (0 mod 2) (0 / 2)) with 200%Z.
    change (intensity _ (1 mod 2) (1 / 2)) with 40%Z.
    change (intensity _ (0 mod 1) (0 / 1)) with 40%Z.
    change (intensity _ (1 mod 1) (1 / 1)) with 200%Z.
    destruct (200 =? v)%Z, (40 =? v)%Z; reflexivity.
Defined.

(** ** A run of processImage that goes well *)

Lemma sets_result_worker {A} (p : pending A) (rest : A -> action unit) x bill :
  settles p = Fulfilled x ->
  (exists calls, progress_only calls /\
     rest x = ((calls ++ [SetResult (Some bill)])%list, Fulfilled tt)) ->
  exists calls, progress_only calls /\
    and_then (await_worker p) rest
    = ((calls ++ [SetResult (Some bill)])%list, Fulfilled tt).
Proof.
  intros Hs (calls & Hp & E). unfold and_then, await_worker. rewrite Hs, E.
  exists (flat_map logger (logged p) ++ calls)%list.
  split; [apply progress_only_app; [apply progress_only_logger | exact Hp]|].
  now rewrite <- app_assoc.
Qed.

(** The calls of a run in which the image is loaded and every call to
    the worker succeeds. *)
Lemma processImage_succeeds (w : world) (imageFile : image_source)
    (img : ImageData) (text : string) (bill : BillData) :
  load w imageFile = Loaded img ->
  settles (createWorker w) = Fulfilled tt ->
  settles (loadLanguage w) = Fulfilled tt ->
  settles (initialize w) = Fulfilled tt ->
  settles (setParameters w) = Fulfilled tt ->
  settles (recognize w (toDataURL w (preprocessImage img))) = Fulfilled text ->
  settles (terminate w) = Fulfilled tt ->
  extractFields text = Normal bill ->
  exists calls, progress_only calls /\
    processImage w imageFile
    = (([SetIsProcessing true; SetProgress 0%float; SetError None] ++ calls
        ++ [SetResult (Some bill); SetIsProcessing false])%list,
       Fulfilled tt).
Proof.
  intros Hload H1 H2 H3 H4 H5 H6 Hbill.
  assert (Hbody : exists calls, progress_only calls /\
    and_then (await (preprocessImage_promise w imageFile)) (fun processedImage =>
    and_then (await_worker (createWorker w)) (fun _ =>
    and_then (await_worker (loadLanguage w)) (fun _ =>
    and_then (await_worker (initialize w)) (fun _ =>
    and_then (await_worker (setParameters w)) (fun _ =>
    and_then (await_worker (recognize w processedImage)) (fun text =>
    and_then (await_worker (terminate w)) (fun _ =>
    and_then (evaluate (extractFields text)) (fun billData =>
    call (SetResult (Some billData))))))))))
    = ((calls ++ [SetResult (Some bill)])%list, Fulfilled tt)).
  { unfold preprocessImage_promise. rewrite Hload. cbn [await and_then].
    match goal with
    | |- exists calls, _ /\ (let (more, outcome) := ?a in _) = _ =>
        assert (Hin : exists calls, progress_only calls /\
                  a = ((calls ++ [SetResult (Some bill)])%list, Fulfilled tt));
        [| destruct Hin as (calls & Hp & E); exists calls;
           split; [exact Hp | rewrite E; reflexivity] ]
    end.
    apply sets_result_worker with (x := tt); [exact H1|]. cbv beta.
    apply sets_result_worker with (x := tt); [exact H2|]. cbv beta.
    apply sets_result_worker with (x := tt); [exact H3|]. cbv beta.
    apply sets_result_worker with (x := tt); [exact H4|]. cbv beta.
    apply sets_result_worker with (x := text); [exact H5|]. cbv beta.
    apply sets_result_worker with (x := tt); [exact H6|]. cbv beta.
    exists []. split; [constructor|]. rewrite Hbill. reflexivity. }
  destruct Hbody as (calls & Hp & E). exists calls. split; [exact Hp|].
  unfold processImage. cbn [and_then call]. rewrite E.
  cbn [try_catch finally call app]. now rewrite <- !app_assoc.
Qed.

(** The state after the calls of such a run. *)
Lemma apply_successful_run calls bill st :
  progress_only calls ->
  isProcessing
    (apply_updates st ([SetIsProcessing true; SetProgress 0%float; SetError None]
                       ++ calls ++ [SetResult (Some bill); SetIsProcessing false])) = false /\
  result
    (apply_updates st ([SetIsProcessing true; SetProgress 0%float; SetError None]
                       ++ calls ++ [SetResult (Some bill); SetIsProcessing false])) = Some bill /\
  error
    (apply_updates st ([SetIsProcessing true; SetProgress 0%float; SetError None]
                       ++ calls ++ [SetResult (Some bill); SetIsProcessing false])) = None /\
  imagePreview
    (apply_updates st ([SetIsProcessing true; SetProgress 0%float; SetError None]
                       ++ calls ++ [SetResult (Some bill); SetIsProcessing false]))
  = imagePreview st /\
  toasts
    (apply_updates st ([SetIsProcessing true; SetProgress 0%float; SetError None]
                       ++ calls ++ [SetResult (Some bill); SetIsProcessing false]))
  = toasts st.
Proof.
  intros Hp. rewrite !apply_updates_app.
  set (st0 := apply_updates st _).
  destruct (apply_progress_only calls Hp st0) as (_ & _ & He & Hi & _ & Ht).
  cbn [apply_updates foldl apply_update isProcessing result error imagePreview toasts].
  fold (apply_updates st0 calls). rewrite He, Hi, Ht. repeat split.
Qed.

(** X22.  When the image is loaded and every call to the worker
    succeeds, the text recognised in the preprocessed image is parsed and
    its record becomes the result: the full text is the recognised text,
    there is no error and [isProcessing] is false again. *)
Theorem processImage_success (w : world) (imageFile : image_source)
    (img : ImageData) (text : string) (st : app_state) :
  load w imageFile = Loaded img ->
  settles (createWorker w) = Fulfilled tt ->
  settles (loadLanguage w) = Fulfilled tt ->
  settles (initialize w) = Fulfilled tt ->
  settles (setParameters w) = Fulfilled tt ->
  settles (recognize w (toDataURL w (preprocessImage img))) = Fulfilled text ->
  settles (terminate w) = Fulfilled tt ->
  exists bill,
    extractFields text = Normal bill /\
    fullText bill = text /\
    result (apply_updates st (fst (processImage w imageFile))) = Some bill /\
    error (apply_updates st (fst (processImage w imageFile))) = None /\
    isProcessing (apply_updates st (fst (processImage w imageFile))) = false.
Proof.
  intros Hload H1 H2 H3 H4 H5 H6.
  destruct (extractFields_normal text) as (bill & Hbill & Hfull).
  exists bill. split; [exact Hbill|]. split; [exact Hfull|].
  destruct (processImage_succeeds w imageFile img text bill Hload H1 H2 H3 H4 H5 H6 Hbill)
    as (calls & Hp & ->).
  cbn [fst]. destruct (apply_successful_run calls bill st Hp) as (A1 & A2 & A3 & _).
  auto.
Qed.

(** The receipt of two lines read in the 2 by 1 image. *)
Lemma processImage_success_witness :
  exists bill,
    extractFields (unlines ["ACME HARDWARE"; "Total: $5.00"]) = Normal bill /\
    fullText bill = unlines ["ACME HARDWARE"; "Total: $5.00"] /\
    result (apply_updates initial_state
              (fst (processImage readable_bill (File "bill.png")))) = Some bill /\
    error (apply_updates initial_state
             (fst (processImage readable_bill (File "bill.png")))) = None /\
    isProcessing (apply_updates initial_state
                    (fst (processImage readable_bill (File "bill.png")))) = false.
Proof.
  refine (processImage_success readable_bill (File "bill.png")
            {| width := 2; height := 1;
               data := [250; 250; 250; 255; 20; 30; 40; 255]%Z |}
            (unlines ["ACME HARDWARE"; "Total: $5.00"]) initial_state
            _ _ _ _ _ _ _); reflexivity.
Defined.

(** X23.  After an upload in which the preview URL is created, the
    image is loaded and every call to the worker succeeds, the component
    shows the results and nothing else: no tabs, no progress bar and no
    alert; the preview is the created URL, one toast "Processing
    Complete" is added and the results hold the recognised text. *)
Theorem upload_shows_results (w : world) (file url : string)
    (img : ImageData) (text : string) (st : app_state) :
  createObjectURL w file = Fulfilled url ->
  load w (File file) = Loaded img ->
  settles (createWorker w) = Fulfilled tt ->
  settles (loadLanguage w) = Fulfilled tt ->
  settles (initialize w) = Fulfilled tt ->
  settles (setParameters w) = Fulfilled tt ->
  settles (recognize w (toDataURL w (preprocessImage img))) = Fulfilled text ->
  settles (terminate w) = Fulfilled tt ->
  exists bill,
    extractFields text = Normal bill /\
    result (apply_updates st (calls_of (FileSelected w file))) = Some bill /\
    shows_results (apply_updates st (calls_of (FileSelected w file))) = true /\
    shows_tabs (apply_updates st (calls_of (FileSelected w file))) = false /\
    shows_progress (apply_updates st (calls_of (FileSelected w file))) = false /\
    shows_error (apply_updates st (calls_of (FileSelected w file))) = false /\
    imagePreview (apply_updates st (calls_of (FileSelected w file))) = Some url /\
    toasts (apply_updates st (calls_of (FileSelected w file)))
    = (toasts st ++ [ProcessingComplete])%list /\
    In (ExtractedText text)
      (BillResults
         (results_props bill
            (imagePreview (apply_updates st (calls_of (FileSelected w file)))))).
Proof.
  intros Hurl Hload H1 H2 H3 H4 H5 H6.
  destruct (extractFields_normal text) as (bill & Hbill & Hfull).
  exists bill. split; [exact Hbill|].
  destruct (processImage_succeeds w (File file) img text bill
              Hload H1 H2 H3 H4 H5 H6 Hbill) as (calls & Hp & E).
  assert (Hcalls : calls_of (FileSelected w file)
    = (SetImagePreview (Some url)
       :: ([SetIsProcessing true; SetProgress 0%float; SetError None] ++ calls
           ++ [SetResult (Some bill); SetIsProcessing false])
       ++ [Toast ProcessingComplete])%list).
  { cbn [calls_of]. unfold handleFileSelected. rewrite Hurl.
    cbn [await and_then call app]. rewrite E. reflexivity. }
  rewrite Hcalls, apply_updates_cons, apply_updates_app.
  destruct (apply_successful_run calls bill (apply_update st (SetImagePreview (Some url))) Hp)
    as (A1 & A2 & A3 & A4 & A5).
  cbn [apply_updates foldl apply_update] in *.
  unfold shows_results, shows_tabs, shows_progress, shows_error.
  cbn [isProcessing result error imagePreview toasts] in *.
  rewrite A1, A2, A3, A4, A5.
  repeat split.
  unfold BillResults, results_props. cbn [props_fullText]. rewrite Hfull.
  rewrite !List.in_app_iff. do 4 right. left. reflexivity.
Qed.

(** The upload of the receipt of two lines. *)
Lemma upload_shows_results_witness :
  exists bill,
    extractFields (unlines ["ACME HARDWARE"; "Total: $5.00"]) = Normal bill /\
    result (apply_updates initial_state (calls_of (FileSelected readable_bill "bill.png")))
    = Some bill /\
    shows_results
      (apply_updates initial_state (calls_of (FileSelected readable_bill "bill.png")))
    = true /\
    shows_tabs
      (apply_updates initial_state (calls_of (FileSelected readable_bill "bill.png")))
    = false /\
    shows_progress
      (apply_updates initial_state (calls_of (FileSelected readable_bill "bill.png")))
    = false /\
    shows_error
      (apply_updates initial_state (calls_of (FileSelected readable_bill "bill.png")))
    = false /\
    imagePreview
      (apply_updates initial_state (calls_of (FileSelected readable_bill "bill.png")))
    = Some "blob:bill.png" /\
    toasts
      (apply_updates initial_state (calls_of (FileSelected readable_bill "bill.png")))
    = ([] ++ [ProcessingComplete])%list /\
    In (ExtractedText (unlines ["ACME HARDWARE"; "Total: $5.00"]))
      (BillResults
         (results_props bill
            (imagePreview
               (apply_updates initial_state
                  (calls_of (FileSelected readable_bill "bill.png")))))).
Proof.
  refine (upload_shows_results readable_bill "bill.png" "blob:bill.png"
            {| width := 2; height := 1;
               data := [250; 250; 250; 255; 20; 30; 40; 255]%Z |}
            (unlines ["ACME HARDWARE"; "Total: $5.00"]) initial_state
            _ _ _ _ _ _ _ _); reflexivity.
Defined.
(** ** The threshold and the between-class variance *)

Lemma foldl_add_zsum (f : nat -> Z) l a :
  foldl (fun sum i => (sum + f i)%Z) a l = (a + zsum (map f l))%Z.
Proof.
  revert a. induction l as [|i l IH]; intros a; cbn [foldl map zsum foldr].
  - lia.
  - rewrite IH. unfold zsum. lia.
Qed.

Lemma weight_below_pixels img t :
  valid_raster img -> (t < 256)%nat ->
  background_weight (histogram_of (grayscale_pass (data img))) t = pixels_up_to img t.
Proof.
  intros Hv Ht. unfold background_weight, weight_below, pixels_up_to. f_equal.
  apply map_ext_in. intros v Hin. apply in_seq in Hin.
  pose proof (histogram_bin img (Z.of_nat v) Hv ltac:(lia)) as B.
  rewrite Nat2Z.id in B. exact B.
Qed.

Lemma sum_below_levels img n :
  valid_raster img -> (n <= 256)%nat ->
  sum_below (histogram_of (grayscale_pass (data img))) n
  = zsum (map (fun v => (Z.of_nat v * Z.of_nat (pixels_of_level img (Z.of_nat v)))%Z)
            (List.seq 0 n)).
Proof.
  intros Hv Hn. unfold sum_below. f_equal.
  apply map_ext_in. intros v Hin. apply in_seq in Hin.
  pose proof (histogram_bin img (Z.of_nat v) Hv ltac:(lia)) as B.
  rewrite Nat2Z.id in B. now rewrite B.
Qed.

Lemma weighted_sum_levels img :
  valid_raster img ->
  weighted_sum (histogram_of (grayscale_pass (data img))) = levels_up_to img 255.
Proof.
  intros Hv. unfold weighted_sum, levels_up_to.
  rewrite (foldl_add_zsum
             (fun i => (Z.of_nat i * get (histogram_of (grayscale_pass (data img))) i)%Z)).
  rewrite Z.add_0_l.
  exact (sum_below_levels img 256 Hv (Nat.le_refl 256)).
Qed.

(** The variance of the loop is the rounded variance of the raster. *)
Lemma loop_variance_rounded img t :
  valid_raster img -> (t < 256)%nat ->
  loop_variance (histogram_of (grayscale_pass (data img)))
    (Z.of_nat (width img * height img)) t
  = rounded_variance img t.
Proof.
  intros Hv Ht. unfold loop_variance, rounded_variance, variance_of, pixel_count.
  rewrite (weight_below_pixels img t Hv Ht), (weighted_sum_levels img Hv).
  unfold background_sum. rewrite (sum_below_levels img (S t) Hv ltac:(lia)).
  reflexivity.
Qed.

Lemma pixels_up_to_succ img t :
  pixels_up_to img (S t)
  = (pixels_up_to img t + Z.of_nat (pixels_of_level img (Z.of_nat (S t))))%Z.
Proof.
  unfold pixels_up_to. rewrite (seq_S (S t)), map_app, zsum_app.
  cbn [map Nat.add zsum foldr]. lia.
Qed.

Lemma pixels_up_to_mono img n k :
  (pixels_up_to img n <= pixels_up_to img (n + k))%Z.
Proof.
  induction k as [|k IH]; [rewrite Nat.add_0_r; lia|].
  rewrite Nat.add_succ_r, pixels_up_to_succ. lia.
Qed.

(** Every pixel has a gray level of at most 255. *)
Lemma pixels_up_to_all img :
  valid_raster img -> pixels_up_to img 255 = pixel_count img.
Proof.
  intros Hv. destruct (selected_histogram img Hv) as (H1 & H2 & H3).
  rewrite <- (weight_below_pixels img 255 Hv ltac:(lia)).
  unfold background_weight, pixel_count.
  exact (W_256 _ _ H1 H3).
Qed.

(** C3, as amended.  The threshold selected is, among 0..255, the first
    that maximises the between-class variance [wB * wF * (mB - mF)^2] of
    the raster as double precision gives it, every operation rounded (0
    for an empty group): no threshold has a larger rounded variance and
    every earlier one has a strictly smaller one, the scan updating on
    strict improvement only.  Afterwards the three colour channels of a
    pixel are 255 when its gray level is above the threshold and 0
    otherwise. *)
Theorem otsu_selects_first_maximum (img : ImageData) :
  valid_raster img ->
  let V := rounded_variance img in
  let t := Z.to_nat (selected_threshold img) in
  (0 <= selected_threshold img < 255)%Z /\
  (forall t', (t' < 256)%nat -> (V t <? V t')%float = false) /\
  (forall t', (t' < t)%nat -> (V t' <? V t)%float = true) /\
  (forall x y c,
     (x < width img)%nat -> (y < height img)%nat -> (c < 3)%nat ->
     channel (preprocessImage img) x y c
     = if (selected_threshold img <? intensity img x y)%Z then 255%Z else 0%Z).
Proof.
  intros Hv V t. destruct (selected_histogram img Hv) as (H1 & H2 & H3).
  destruct (otsu_threshold_first_maximum _ _ H1 H2 H3) as (Ha & Hb & Hc).
  assert (Ht : (t < 256)%nat).
  { unfold t. rewrite selected_threshold_eq. lia. }
  split; [exact Ha|]. split; [|split].
  - intros t' Ht'. unfold V.
    rewrite <- (loop_variance_rounded img t Hv Ht),
            <- (loop_variance_rounded img t' Hv Ht').
    unfold t. rewrite selected_threshold_eq. apply Hb. exact Ht'.
  - intros t' Ht'. unfold V.
    rewrite <- (loop_variance_rounded img t Hv Ht),
            <- (loop_variance_rounded img t' Hv ltac:(lia)).
    unfold t in *. rewrite selected_threshold_eq in *. apply Hc. exact Ht'.
  - intros x y c. apply preprocessImage_channel. exact Hv.
Qed.

(** A 3 by 1 raster of the gray levels 10, 200 and 90: the rounded
    variance is 36450 for the thresholds 10 to 89 and 45000 for 90 to 199,
    and the threshold is 90; the pixel of level 200 becomes white and the
    one of level 90 black. *)
Lemma otsu_selects_first_maximum_witness :
  selected_threshold
    {| width := 3; height := 1;
       data := [10; 10; 10; 255; 200; 200; 200; 255; 90; 90; 90; 255]%Z |} = 90%Z /\
  (forall t', (t' < 256)%nat ->
     (rounded_variance
        {| width := 3; height := 1;
           data := [10; 10; 10; 255; 200; 200; 200; 255; 90; 90; 90; 255]%Z |} 90
      <? rounded_variance
           {| width := 3; height := 1;
              data := [10; 10; 10; 255; 200; 200; 200; 255; 90; 90; 90; 255]%Z |} t')%float
     = false) /\
  (forall t', (t' < 90)%nat ->
     (rounded_variance
        {| width := 3; height := 1;
           data := [10; 10; 10; 255; 200; 200; 200; 255; 90; 90; 90; 255]%Z |} t'
      <? rounded_variance
           {| width := 3; height := 1;
              data := [10; 10; 10; 255; 200; 200; 200; 255; 90; 90; 90; 255]%Z |} 90)%float
     = true) /\
  channel (preprocessImage
             {| width := 3; height := 1;
                data := [10; 10; 10; 255; 200; 200; 200; 255; 90; 90; 90; 255]%Z |})
    1 0 0 = 255%Z /\
  channel (preprocessImage
             {| width := 3; height := 1;
                data := [10; 10; 10; 255; 200; 200; 200; 255; 90; 90; 90; 255]%Z |})
    2 0 0 = 0%Z.
Proof.
  assert (Hv : valid_raster
                 {| width := 3; height := 1;
                    data := [10; 10; 10; 255; 200; 200; 200; 255; 90; 90; 90; 255]%Z |}).
  { unfold valid_raster. cbn. lia. }
  assert (E : selected_threshold
                {| width := 3; height := 1;
                   data := [10; 10; 10; 255; 200; 200; 200; 255; 90; 90; 90; 255]%Z |}
              = 90%Z) by (vm_compute; reflexivity).
  destruct (otsu_selects_first_maximum _ Hv) as (_ & H2 & H3 & H4).
  rewrite E in H2, H3, H4.
  split; [exact E|]. split; [exact H2|]. split; [exact H3|].
  split.
  - rewrite (H4 1%nat 0%nat 0%nat) by (cbn; lia). vm_compute. reflexivity.
  - rewrite (H4 2%nat 0%nat 0%nat) by (cbn; lia). vm_compute. reflexivity.
Defined.

(** C3, as worded, fails: in the raster of the gray levels 0, 1, 1 and 2
    the between-class variance is 16/3 for the threshold 0 and for the
    threshold 1, and 0 for the others, so that 0 is the earliest threshold
    that maximises it; the two doubles computed for them are different,
    the second the larger, and the threshold selected is 1: the two pixels
    of level 1, above the threshold 0, become black. *)
Lemma otsu_tie_broken_by_rounding :
  forallb (fun t => Qle_bool (between_class_variance tied_raster t)
                      (between_class_variance tied_raster 0))
    (List.seq 0 256) = true /\
  Qeq_bool (between_class_variance tied_raster 0) (16 # 3) = true /\
  Qeq_bool (between_class_variance tied_raster 1) (16 # 3) = true /\
  (rounded_variance tied_raster 0 <? rounded_variance tied_raster 1)%float = true /\
  selected_threshold tied_raster = 1%Z /\
  intensity tied_raster 1 0 = 1%Z /\
  channel (preprocessImage tied_raster) 1 0 0 = 0%Z /\
  channel (preprocessImage tied_raster) 2 0 0 = 0%Z.
Proof.
  assert (Hv : valid_raster tied_raster) by (unfold valid_raster; cbn; lia).
  split; [|repeat apply conj; vm_compute; reflexivity].
  apply forallb_forall. intros t Hin. apply in_seq in Hin.
  destruct t as [|[|t]]; [vm_compute; reflexivity | vm_compute; reflexivity |].
  assert (Hall : pixels_up_to tied_raster (S (S t)) = 4%Z).
  { pose proof (pixels_up_to_mono tied_raster 2 t) as Hlo.
    pose proof (pixels_up_to_mono tied_raster (S (S t)) (255 - S (S t))) as Hhi.
    replace (S (S t) + (255 - S (S t)))%nat with 255%nat in Hhi by lia.
    rewrite (pixels_up_to_all tied_raster Hv) in Hhi.
    change (2 + t)%nat with (S (S t)) in Hlo.
    assert (E2 : pixels_up_to tied_raster 2 = 4%Z) by (vm_compute; reflexivity).
    assert (E4 : pixel_count tied_raster = 4%Z) by reflexivity.
    lia. }
  apply Qle_bool_iff.
  assert (E0 : (between_class_variance tied_raster 0 == 16 # 3)%Q)
    by (apply Qeq_bool_iff; vm_compute; reflexivity).
  rewrite E0. unfold between_class_variance. rewrite Hall.
  change (pixel_count tied_raster - 4)%Z with 0%Z.
  rewrite Qmult_0_r, Qmult_0_l. discriminate.
Qed.
(** ** The four families of dates *)

Lemma literal_match_has_digit p clean d :
  requires isDigit (ast p) = true ->
  literal_match p clean = Some d -> some_char isDigit d = true.
Proof.
  intros Hreq H. unfold literal_match in H.
  destruct (exec (ast p) clean) as [res|] eqn:E; [|discriminate].
  injection H as <-.
  destruct (exec_sound _ _ _ E) as (c0 & Hc0 & Hstart & Hs).
  destruct (spans_requires isDigit _ Hreq _ _ _ _ Hs) as (w & Hw & Hd).
  destruct (cursor_in_reads _ _ _ _ Hc0 Hw) as [_ Hsub].
  unfold matched, m_end. rewrite Hstart.
  destruct Hw as [_ Hp]. replace (pos (m_after res) - pos c0)%nat with (String.length w)
    by lia.
  rewrite Hsub. exact Hd.
Qed.

Lemma test_some_char p r text :
  requires p r = true -> test r text = true -> some_char p text = true.
Proof.
  intros Hreq Ht. destruct (some_char p text) eqn:E; [reflexivity|].
  unfold test in Ht. now rewrite (exec_requires p r text Hreq E) in Ht.
Qed.

Lemma keyword_date_has_separator clean d :
  keyword_date clean = Some d ->
  some_char isDigit d = true /\ some_char (mem_char "/-.") d = true.
Proof.
  unfold keyword_date. intros H.
  destruct (exec (ast date_keyword) clean); [|discriminate].
  destruct (group _ _ 1) as [captured|]; [|discriminate].
  destruct (test (many1 digit) (trim captured)) eqn:Ed; [|discriminate].
  destruct (test (one_of "/-.") (trim captured)) eqn:Es; [|discriminate].
  cbn [andb] in H. injection H as <-. split.
  - apply (test_some_char isDigit (many1 digit)); [vm_compute; reflexivity | exact Ed].
  - apply (test_some_char (mem_char "/-.") (one_of "/-."));
      [vm_compute; reflexivity | exact Es].
Qed.

Lemma extractDate_has_digit text d :
  extractDate text = Normal (Some d) -> some_char isDigit d = true.
Proof.
  rewrite extractDate_first_of. cbn [first_of]. intros [= H].
  destruct (literal_match date_numeric _) as [x|] eqn:E1.
  { injection H as ->. eapply literal_match_has_digit; [|exact E1]. vm_compute. reflexivity. }
  destruct (literal_match date_month _) as [x|] eqn:E2.
  { injection H as ->. eapply literal_match_has_digit; [|exact E2]. vm_compute. reflexivity. }
  destruct (literal_match date_iso _) as [x|] eqn:E3.
  { injection H as ->. eapply literal_match_has_digit; [|exact E3]. vm_compute. reflexivity. }
  destruct (keyword_date (cleanText text)) as [x|] eqn:E4; [|discriminate].
  injection H as ->. apply (keyword_date_has_separator _ _ E4).
Qed.

(** C5.  Date extraction works on the text with every run of white space
    collapsed to one space; it tries the numeric, month-name, ISO and
    keyword-anchored families in this order and returns what the first
    successful one matched; the result is a piece of the cleaned text as it
    stands, with a digit in it, dates that no calendar has included.  On
    "Invoice Date: 03/14/2024 Total: $5.00" it is "03/14/2024".  Each
    family finds its dates: "January 5th, 2023" by its month, "2024-03-14"
    year first, "14.03" after the label "Date:"; and an earlier family
    wins over a later one wherever the two dates stand in the text.  After
    a label, a fragment without a digit or without one of the separators
    is not a date. *)
Theorem extractDate_first_family_wins :
  (forall text,
     cleanText text = trim (collapse_ws text) /\
     single_spaced (cleanText text) = true) /\
  (forall text,
     extractDate text =
     Normal (first_of [literal_match date_numeric (cleanText text);
                       literal_match date_month (cleanText text);
                       literal_match date_iso (cleanText text);
                       keyword_date (cleanText text)])) /\
  (forall text d, extractDate text = Normal (Some d) -> occurs_in d (cleanText text)) /\
  extractDate "Invoice Date: 03/14/2024 Total: $5.00" = Normal (Some "03/14/2024") /\
  extractDate "13/45/2099" = Normal (Some "13/45/2099") /\
  (forall text d, extractDate text = Normal (Some d) -> some_char isDigit d = true) /\
  (forall clean d,
     keyword_date clean = Some d -> some_char (mem_char "/-.") d = true) /\
  (extractDate "Purchase made on January 5th, 2023 at noon"
   = Normal (Some "January 5th, 2023") /\
   literal_match date_numeric "Purchase made on January 5th, 2023 at noon" = None /\
   literal_match date_month "Purchase made on January 5th, 2023 at noon"
   = Some "January 5th, 2023") /\
  (extractDate "Due 2024-03-14" = Normal (Some "2024-03-14") /\
   literal_match date_numeric "Due 2024-03-14" = None /\
   literal_match date_month "Due 2024-03-14" = None /\
   literal_match date_iso "Due 2024-03-14" = Some "2024-03-14") /\
  (extractDate "Date: 14.03" = Normal (Some "14.03") /\
   literal_match date_numeric "Date: 14.03" = None /\
   literal_match date_month "Date: 14.03" = None /\
   literal_match date_iso "Date: 14.03" = None /\
   keyword_date "Date: 14.03" = Some "14.03") /\
  extractDate "January 5th, 2023 or 03/14/2024" = Normal (Some "03/14/2024") /\
  extractDate "2024-03-14 and January 5th, 2023" = Normal (Some "January 5th, 2023") /\
  extractDate "Date: 14.03 paid 2024-03-14" = Normal (Some "2024-03-14") /\
  extractDate "Date: tomorrow" = Normal None /\
  extractDate "Date: 2024" = Normal None /\
  extractDate "Date: n/a" = Normal None /\
  extractDate (String "009" "Date:" ++ String "010" "  7-Mar" ++ String "010" "")
  = Normal (Some "7-Mar").
Proof.
  split.
  { intros text. split; [|apply cleanText_single_spaced].
    unfold cleanText. now rewrite replace_all_space. }
  split; [exact extractDate_first_of|].
  split; [exact extractDate_occurs|].
  split; [vm_compute; reflexivity|].
  split; [vm_compute; reflexivity|].
  split; [exact extractDate_has_digit|].
  split; [intros clean d H; apply (keyword_date_has_separator clean d H)|].
  repeat apply conj; vm_compute; reflexivity.
Qed.

(** The result of the date "Invoice Date: 03/14/2024 Total: $5.00" occurs
    in the cleaned text. *)
Lemma extractDate_first_family_wins_witness :
  occurs_in "03/14/2024" (cleanText "Invoice Date: 03/14/2024 Total: $5.00").
Proof.
  apply (proj1 (proj2 (proj2 extractDate_first_family_wins))).
  vm_compute. reflexivity.
Defined.
(** ** The labelled totals and their value *)

Lemma digit_value_range a :
  isDigit a = true ->
  (0 <= digit_value a <= 9)%Z /\ (0 <? digit_value a)%Z = nonzero_digit a.
Proof.
  unfold isDigit, nonzero_digit, in_range, digit_value.
  change (code "0") with 48%nat. change (code "1") with 49%nat.
  change (code "9") with 57%nat.
  intros H. apply andb_true_iff in H as [H1 H2].
  apply Nat.leb_le in H1, H2. rewrite (proj2 (Nat.leb_le _ _) H2), andb_true_r.
  split; [lia|].
  destruct (Nat.leb_spec 49 (code a)); [apply Z.ltb_lt | apply Z.ltb_ge]; lia.
Qed.

(** Reading a run of digits to its end. *)
Lemma read_digits_all : forall ds acc n,
  all_chars isDigit ds = true -> (0 <= acc)%Z ->
  exists v, read_digits acc n ds = (v, (n + String.length ds)%nat, "") /\
            (0 <= v)%Z /\
            (0 <? v)%Z = (0 <? acc)%Z || some_char nonzero_digit ds.
Proof.
  induction ds as [|a ds IH]; intros acc n Ha Hacc.
  - exists acc. cbn [read_digits String.length some_char].
    rewrite Nat.add_0_r, orb_false_r. auto.
  - cbn [all_chars] in Ha. apply andb_true_iff in Ha as [Hd Ha].
    destruct (digit_value_range a Hd) as [Hr Hnz].
    cbn [read_digits]. rewrite Hd.
    destruct (IH (10 * acc + digit_value a)%Z (S n) Ha ltac:(lia)) as (v & E & Hv & Hpos).
    exists v. rewrite E. cbn [String.length some_char].
    split; [f_equal; f_equal; lia|]. split; [exact Hv|].
    rewrite Hpos, orb_assoc. f_equal. rewrite <- Hnz.
    destruct (Z.ltb_spec 0 acc), (Z.ltb_spec 0 (digit_value a)),
             (Z.ltb_spec 0 (10 * acc + digit_value a)); try reflexivity; lia.
Qed.

(** [parseFloat] on the rest of an amount, [acc] and [n] being what has
    been read of its whole part. *)
Lemma parse_amount_positive : forall w acc n,
  amount_shape ",." w = true -> (0 <= acc)%Z ->
  is_positive
    (let '(int_part, n_int, after_int) := read_digits acc n (replace_first "," "." w) in
     match after_int with
     | String "." frac =>
         let '(all, n_frac, _) := read_digits int_part 0 frac in
         if ((n_int + n_frac)%nat =? 0)%nat then None
         else Some (Qmake all (Z.to_pos (10 ^ Z.of_nat n_frac)))
     | _ => if (n_int =? 0)%nat then None else Some (inject_Z int_part)
     end)
  = (0 <? acc)%Z || some_char nonzero_digit w.
Proof.
  induction w as [|a w IH]; intros acc n Hshape Hacc; [discriminate|].
  assert (Hd : isDigit a = true).
  { cbn [amount_shape] in Hshape. now apply andb_true_iff in Hshape as [Hd _]. }
  destruct (digit_value_range a Hd) as [Hr Hnz].
  assert (Hcomma : is_char "," a = false).
  { unfold is_char. destruct (Ascii.eqb_spec "," a) as [<-|]; [discriminate Hd | reflexivity]. }
  assert (Hacc' : (0 <? 10 * acc + digit_value a)%Z = (0 <? acc)%Z || nonzero_digit a).
  { rewrite <- Hnz.
    destruct (Z.ltb_spec 0 acc), (Z.ltb_spec 0 (digit_value a)),
             (Z.ltb_spec 0 (10 * acc + digit_value a)); try reflexivity; lia. }
  cbn [replace_first]. rewrite Hcomma. cbn [read_digits]. rewrite Hd.
  cbn [some_char]. rewrite orb_assoc, <- Hacc'.
  destruct w as [|b w].
  - cbn [replace_first read_digits some_char]. rewrite orb_false_r.
    cbn [Nat.eqb is_positive]. unfold Qle_bool, inject_Z. cbn [Qnum Qden].
    rewrite Z.mul_1_r, Z.mul_0_l.
    destruct (Z.ltb_spec 0 (10 * acc + digit_value a)),
             (Z.leb_spec (10 * acc + digit_value a) 0); try reflexivity; lia.
  - rewrite amount_shape_step in Hshape. rewrite Hd in Hshape. cbn [andb] in Hshape.
    destruct (isDigit b) eqn:Eb.
    + apply IH; [exact Hshape | lia].
    + apply andb_true_iff in Hshape as [Hshape Hfs].
      apply andb_true_iff in Hshape as [Hshape Hhi].
      apply andb_true_iff in Hshape as [Hsep Hlo].
      assert (Hrep : replace_first "," "." (String b w) = String "." w).
      { cbn [replace_first]. destruct (is_char "," b) eqn:Ec; [reflexivity|].
        cbn [mem_char] in Hsep. rewrite Ec in Hsep. rewrite orb_false_r in Hsep.
        cbn [orb] in Hsep. unfold is_char in Hsep. apply Ascii.eqb_eq in Hsep.
        subst b. now rewrite (replace_first_digits w Hfs). }
      rewrite Hrep. cbn [read_digits]. change (isDigit ".") with false. cbv iota.
      destruct (read_digits_all w (10 * acc + digit_value a)%Z 0 Hfs ltac:(lia))
        as (v & E & Hv & Hpos).
      rewrite E. cbn [Nat.add Nat.eqb].
      cbn [is_positive some_char].
      assert (Hnb : nonzero_digit b = false).
      { unfold nonzero_digit, isDigit, in_range in *.
        change (code "0") with 48%nat in Eb. change (code "1") with 49%nat.
        destruct (Nat.leb_spec 49 (code b)) as [H49|]; [|reflexivity].
        rewrite (proj2 (Nat.leb_le 48 (code b)) ltac:(lia)) in Eb. exact Eb. }
      rewrite Hnb. cbn [orb]. rewrite <- Hpos.
      unfold Qle_bool. cbn [Qnum Qden]. rewrite Z.mul_1_r, Z.mul_0_l.
      destruct (Z.ltb_spec 0 v), (Z.leb_spec v 0); try reflexivity; lia.
Qed.

(** An amount is above 0 exactly when one of its digits is not 0. *)
Lemma positive_amount w :
  amount_shape ",." w = true ->
  is_positive (parseFloat (replace_first "," "." w)) = some_char nonzero_digit w.
Proof.
  intros H. unfold parseFloat.
  exact (parse_amount_positive w 0%Z 0%nat H (Z.le_refl 0)).
Qed.

Lemma amount_shape_not_empty seps w :
  amount_shape seps w = true -> (0 <? String.length w)%nat = true.
Proof. destruct w; [discriminate | reflexivity]. Qed.

(** What one labelled pattern gives on a cleaned text. *)
Lemma labeled_total_leftmost clean p :
  In p [total_phrase; total_keyword; total_trailing] ->
  labeled_total clean p =
  match exec (ast p) clean with
  | Some res =>
      match group clean res 1 with
      | Some captured =>
          if some_char nonzero_digit captured
          then Some (replace_first "," "." captured)
          else None
      | None => None
      end
  | None => None
  end.
Proof.
  intros Hp.
  assert (Hg : global p = false)
    by (destruct Hp as [<-|[<-|[<-|[]]]]; reflexivity).
  assert (Hin : In p totalPatterns)
    by (destruct Hp as [<-|[<-|[<-|[]]]]; cbn; auto).
  unfold labeled_total. rewrite (js_match_first _ _ Hg).
  destruct (exec (ast p) clean) as [res|] eqn:Ee; [|reflexivity].
  change (at_index (?x :: ?l) 1) with (at_index l 0).
  destruct (exec_sound _ _ _ Ee) as (c0 & Hc0 & _ & Hs).
  destruct (total_pattern_group clean p res Hin) as (w & Hw & Hshape); [eauto|].
  assert (Ha : at_index (map (group clean res) (List.seq 1 (group_count (ast p)))) 0
               = Some w).
  { destruct Hp as [<-|[<-|[<-|[]]]]; cbn [map List.seq at_index nth_error];
      try exact Hw;
      change (group_count _) with 1%nat; cbn [map List.seq at_index nth_error];
      exact Hw. }
  rewrite Ha, Hw, (amount_shape_not_empty _ _ Hshape), (positive_amount w Hshape).
  reflexivity.
Qed.

(** C6.  The labelled patterns are tried from the most to the least
    specific, before the fallback.  A pattern gives the number that its
    leftmost match captures when one of the digits of that number is not
    0, which is when it parses to a value above 0; the first comma of the
    capture is replaced by a period.  A pattern whose leftmost match
    captures zeros only gives nothing, whatever it would match further
    on, and the next pattern is tried.  On
    "Subtotal $10.00 Tax $1.00 Grand Total: $11.00" the total is "11.00";
    on "Total: 0.00 paid $7.50 due" the keyword pattern is passed over and
    the total is "7.50"; on "Total: 0.00 Total: 5.00" there is none. *)
Theorem extractTotal_labeled_first :
  (forall text,
     extractTotal text =
     Normal (first_of [labeled_total (cleanText text) total_phrase;
                       labeled_total (cleanText text) total_keyword;
                       labeled_total (cleanText text) total_trailing;
                       largest_plausible (cleanText text)])) /\
  (forall clean p,
     In p [total_phrase; total_keyword; total_trailing] ->
     labeled_total clean p =
     match exec (ast p) clean with
     | Some res =>
         match group clean res 1 with
         | Some captured =>
             if some_char nonzero_digit captured
             then Some (replace_first "," "." captured)
             else None
         | None => None
         end
     | None => None
     end) /\
  (forall clean p v,
     In p [total_phrase; total_keyword; total_trailing] ->
     labeled_total clean p = Some v ->
     exists res captured,
       exec (ast p) clean = Some res /\
       group clean res 1 = Some captured /\
       v = replace_first "," "." captured /\
       exists q, parseFloat v = Some q /\ (0 < q)%Q) /\
  (forall captured,
     amount_shape ",." captured = true ->
     is_positive (parseFloat (replace_first "," "." captured))
     = some_char nonzero_digit captured) /\
  extractTotal "Subtotal $10.00 Tax $1.00 Grand Total: $11.00" = Normal (Some "11.00") /\
  labeled_total "Subtotal $10.00 Tax $1.00 Grand Total: $11.00" total_phrase
    = Some "11.00" /\
  extractTotal "Total: 12,50" = Normal (Some "12.50") /\
  (labeled_total "Total: 0.00 paid $7.50 due" total_phrase = None /\
   labeled_total "Total: 0.00 paid $7.50 due" total_keyword = None /\
   labeled_total "Total: 0.00 paid $7.50 due" total_trailing = Some "7.50" /\
   extractTotal "Total: 0.00 paid $7.50 due" = Normal (Some "7.50")) /\
  extractTotal "Total: 0.00 Total: 5.00" = Normal None /\
  extractTotal "Total: $0.00 Amount $5" = Normal None /\
  extractTotal "Amount: 5.00 Grand Total: 11.00" = Normal (Some "11.00") /\
  (parseFloat "0.00" = Some (0 # 100) /\ parseFloat "7.50" = Some (750 # 100) /\
   parseFloat "11.00" = Some (1100 # 100) /\ parseFloat "12" = Some (12 # 1)).
Proof.
  split; [exact extractTotal_first_of|].
  split; [exact labeled_total_leftmost|].
  split.
  { intros clean p v Hp H.
    assert (Hg : global p = false /\ group_count (ast p) = 1%nat).
    { destruct Hp as [<-|[<-|[<-|[]]]]; split; reflexivity. }
    destruct Hg as [Hg Hn].
    destruct (labeled_total_spec _ _ _ Hg H) as (res & captured & He & Hc & Hv & Hq).
    rewrite Hn in Hc. exists res, captured.
    split; [exact He|]. split; [|split; [exact Hv | exact Hq]].
    cbn [List.seq map at_index nth_error] in Hc. exact Hc. }
  split; [exact positive_amount|].
  repeat apply conj; vm_compute; reflexivity.
Qed.

(** The leftmost match of the phrase pattern in the example captures
    "11.00". *)
Lemma extractTotal_labeled_first_witness :
  exists res captured,
    exec (ast total_phrase) "Subtotal $10.00 Tax $1.00 Grand Total: $11.00" = Some res /\
    group "Subtotal $10.00 Tax $1.00 Grand Total: $11.00" res 1 = Some captured /\
    "11.00" = replace_first "," "." captured /\
    exists q, parseFloat "11.00" = Some q /\ (0 < q)%Q.
Proof.
  apply (proj1 (proj2 (proj2 extractTotal_labeled_first)) _ total_phrase).
  - left. reflexivity.
  - vm_compute. reflexivity.
Defined.
(** ** The lines that the header scan discards *)








